(** * generate_cxx_ast.py: the AST post-processing pipeline, embedded and verified

    The development follows [cmake/codegen/generate_cxx_ast.py]:
    the name-form conversions, the fingerprint functions, the tree merge and
    the five enrichment passes over the JSON tree that the native parser
    dumps.

    Modelling conventions.
    - A Python [str] is a Rocq [string] holding its UTF-8 bytes, so that
      [s.encode('utf-8')] is the identity on the bytes.  The case and
      whitespace predicates are those of Python on ASCII text (identifiers and
      type spellings of a C++ header); bytes above 127 are caseless.  What
      is stated of the case of characters is stated of ASCII text, or, for
      the two conversions of the kebab-case round trip, of code points, in
      the module [Unicode], where the case methods of [str] are parameters.
    - A JSON value is the tree [json.JSONDecoder] builds, with integer
      numbers.  A Python [dict] keeps insertion order, so an object is an
      association list, assignment replacing in place or appending.
    - A pass that mutates the tree in place is a function returning the new
      tree; the trees are freshly decoded, so no two nodes are aliased.
    - A Python exception is a [Raise]; the third outcome [Beyond] marks the
      few ill-typed inputs whose Python behaviour this model does not
      describe. *)

From Stdlib Require Import ZArith List String Ascii Bool Lia Permutation Sorted.
From Stdlib Require Import DecimalString.
Import ListNotations.

Local Open Scope string_scope.
Local Open Scope Z_scope.

(** ** Python string primitives on ASCII text *)

Module PyStr.

Definition code (c : ascii) : Z := Z.of_N (N_of_ascii c).

Definition chr (z : Z) : ascii := ascii_of_N (Z.to_N z).

(** [ch.isupper()] and [ch.islower()] for one character. *)
Definition isupper (c : ascii) : bool := (65 <=? code c) && (code c <=? 90).

Definition islower (c : ascii) : bool := (97 <=? code c) && (code c <=? 122).

Definition isdigit (c : ascii) : bool := (48 <=? code c) && (code c <=? 57).

(** [ch.isspace()]: tab, line feed, vertical tab, form feed, carriage return,
    the four separators 0x1c to 0x1f, and the space. *)
Definition isspace (c : ascii) : bool :=
  ((9 <=? code c) && (code c <=? 13)) || ((28 <=? code c) && (code c <=? 32)).

Definition lower_char (c : ascii) : ascii :=
  if isupper c then chr (code c + 32) else c.

Definition upper_char (c : ascii) : ascii :=
  if islower c then chr (code c - 32) else c.

Fixpoint lower (s : string) : string :=
  match s with
  | EmptyString => EmptyString
  | String c r => String (lower_char c) (lower r)
  end.

(** [s.capitalize()]: first character upper-cased, the rest lower-cased. *)
Definition capitalize (s : string) : string :=
  match s with
  | EmptyString => EmptyString
  | String c r => String (upper_char c) (lower r)
  end.

Fixpoint startswith (p s : string) : bool :=
  match p, s with
  | EmptyString, _ => true
  | String a p', String b s' => Ascii.eqb a b && startswith p' s'
  | String _ _, EmptyString => false
  end.

(** [s.find(p)] for a non-empty [p]: the index of the first occurrence. *)
Fixpoint find (p s : string) : option nat :=
  if startswith p s then Some 0%nat
  else match s with
       | EmptyString => None
       | String _ r => option_map S (find p r)
       end.

Definition contains (p s : string) : bool :=
  match find p s with Some _ => true | None => false end.

(** [s[:n]]. *)
Fixpoint take (n : nat) (s : string) : string :=
  match n, s with
  | S n', String c r => String c (take n' r)
  | _, _ => EmptyString
  end.

(** [s[n:]]. *)
Fixpoint drop (n : nat) (s : string) : string :=
  match n, s with
  | S n', String _ r => drop n' r
  | _, _ => s
  end.

Fixpoint lstrip (s : string) : string :=
  match s with
  | String c r => if isspace c then lstrip r else s
  | EmptyString => EmptyString
  end.

Fixpoint rstrip (s : string) : string :=
  match s with
  | EmptyString => EmptyString
  | String c r =>
      match rstrip r with
      | EmptyString => if isspace c then EmptyString else String c EmptyString
      | r' => String c r'
      end
  end.

(** [s.strip()]. *)
Definition strip (s : string) : string := rstrip (lstrip s).

(** [s.replace(old, new)] for a non-empty [old]: the occurrences are taken
    left to right and do not overlap; [skip] counts the characters of the
    occurrence just replaced that are still to be passed over. *)
Fixpoint replace_from (old new : string) (skip : nat) (s : string) : string :=
  match s with
  | EmptyString => EmptyString
  | String c r =>
      match skip with
      | S k => replace_from old new k r
      | O =>
          if startswith old s
          then new ++ replace_from old new (Nat.pred (String.length old)) r
          else String c (replace_from old new O r)
      end
  end.

Definition replace (old new s : string) : string := replace_from old new O s.

(** [s.split(sep)] for a non-empty [sep]; [cur] is the part being read, in
    reverse. *)
Fixpoint rev_string (acc s : string) : string :=
  match s with
  | EmptyString => acc
  | String c r => rev_string (String c acc) r
  end.

Fixpoint split_from (sep : string) (skip : nat) (cur : string) (s : string)
  : list string :=
  match s with
  | EmptyString => [rev_string EmptyString cur]
  | String c r =>
      match skip with
      | S k => split_from sep k cur r
      | O =>
          if startswith sep s
          then rev_string EmptyString cur
               :: split_from sep (Nat.pred (String.length sep)) EmptyString r
          else split_from sep O (String c cur) r
      end
  end.

Definition split (sep s : string) : list string :=
  split_from sep O EmptyString s.

(** [''.join(parts)]. *)
Definition join (parts : list string) : string :=
  fold_right String.append EmptyString parts.

(** [sep.join(parts)]. *)
Fixpoint join_with (sep : string) (parts : list string) : string :=
  match parts with
  | [] => EmptyString
  | [p] => p
  | p :: rest => p ++ sep ++ join_with sep rest
  end.

(** [parts[-1]] of a non-empty list, the empty string standing for the
    [IndexError] that a split never produces. *)
Definition last_part (parts : list string) : string :=
  List.last parts EmptyString.

(** [str(n)] for an integer. *)
Definition str_of_Z (n : Z) : string := NilZero.string_of_int (Z.to_int n).

(** The bytes of [s.encode('utf-8')]. *)
Fixpoint encode (s : string) : list Z :=
  match s with
  | EmptyString => []
  | String c r => code c :: encode r
  end.

End PyStr.

(** ** SHA-256 (FIPS 180-4) on byte lists, as [hashlib.sha256] computes it *)

Module SHA256.

Definition mask32 : Z := 0xFFFFFFFF.

Definition add32 (x y : Z) : Z := Z.land (x + y) mask32.

Definition rotr (n x : Z) : Z :=
  Z.lor (Z.shiftr x n) (Z.land (Z.shiftl x (32 - n)) mask32).

Definition Ch (x y z : Z) : Z :=
  Z.lxor (Z.land x y) (Z.land (Z.lxor x mask32) z).

Definition Maj (x y z : Z) : Z :=
  Z.lxor (Z.lxor (Z.land x y) (Z.land x z)) (Z.land y z).

Definition bsig0 (x : Z) : Z :=
  Z.lxor (Z.lxor (rotr 2 x) (rotr 13 x)) (rotr 22 x).

Definition bsig1 (x : Z) : Z :=
  Z.lxor (Z.lxor (rotr 6 x) (rotr 11 x)) (rotr 25 x).

Definition ssig0 (x : Z) : Z :=
  Z.lxor (Z.lxor (rotr 7 x) (rotr 18 x)) (Z.shiftr x 3).

Definition ssig1 (x : Z) : Z :=
  Z.lxor (Z.lxor (rotr 17 x) (rotr 19 x)) (Z.shiftr x 10).

(** The first sixty-four primes. *)
Definition primes : list Z :=
  [ 2; 3; 5; 7; 11; 13; 17; 19; 23; 29; 31; 37; 41; 43; 47; 53;
    59; 61; 67; 71; 73; 79; 83; 89; 97; 101; 103; 107; 109; 113; 127; 131;
    137; 139; 149; 151; 157; 163; 167; 173; 179; 181; 191; 193; 197; 199;
    211; 223; 227; 229; 233; 239; 241; 251; 257; 263; 269; 271; 277; 281;
    283; 293; 307; 311 ].

(** The integer cube root below [2 ^ bits], found bit by bit. *)
Fixpoint cube_root (bits : nat) (n r : Z) : Z :=
  match bits with
  | O => r
  | S b =>
      let r' := r + 2 ^ Z.of_nat b in
      cube_root b n (if r' * r' * r' <=? n then r' else r)
  end.

(** The round constants: the first thirty-two bits of the fractional parts
    of the cube roots of the primes. *)
Definition K : list Z :=
  Eval vm_compute in
    map (fun p => Z.land (cube_root 36 (p * 2 ^ 96) 0) mask32) primes.

(** The initial hash value: the same bits of the square roots of the first
    eight primes. *)
Definition H0 : list Z :=
  Eval vm_compute in
    map (fun p => Z.land (Z.sqrt (p * 2 ^ 64)) mask32) (firstn 8 primes).

(** Big-endian bytes of a word of [n] bytes. *)
Fixpoint be_bytes (n : nat) (x : Z) : list Z :=
  match n with
  | O => []
  | S k => Z.land (Z.shiftr x (8 * Z.of_nat k)) 255 :: be_bytes k x
  end.

Definition be_word (bs : list Z) : Z :=
  fold_left (fun acc b => acc * 256 + b) bs 0.

(** The message followed by the bit 1, zero bytes up to 56 modulo 64, and the
    bit length on eight bytes. *)
Definition pad (msg : list Z) : list Z :=
  let len := Z.of_nat (List.length msg) in
  (msg ++ [128] ++ repeat 0 (Z.to_nat ((55 - len) mod 64))
       ++ be_bytes 8 (8 * len))%list.

(** The sixteen words of a block; [n] words are read. *)
Fixpoint words (n : nat) (bs : list Z) : list Z :=
  match n with
  | O => []
  | S k => be_word (firstn 4 bs) :: words k (skipn 4 bs)
  end.

(** The message schedule, most recent word first: [rw] holds
    [W(t-1), W(t-2), ...]. *)
Fixpoint schedule (n : nat) (rw : list Z) : list Z :=
  match n with
  | O => rw
  | S k =>
      let w := add32 (add32 (ssig1 (nth 1 rw 0)) (nth 6 rw 0))
                     (add32 (ssig0 (nth 14 rw 0)) (nth 15 rw 0)) in
      schedule k (w :: rw)
  end.

Record regs := Regs { ra : Z; rb : Z; rc : Z; rd : Z;
                       re : Z; rf : Z; rg : Z; rh : Z }.

Definition round (s : regs) (kw : Z * Z) : regs :=
  let t1 := add32 (add32 (add32 (rh s) (bsig1 (re s)))
                         (add32 (Ch (re s) (rf s) (rg s)) (fst kw))) (snd kw) in
  let t2 := add32 (bsig0 (ra s)) (Maj (ra s) (rb s) (rc s)) in
  Regs (add32 t1 t2) (ra s) (rb s) (rc s) (add32 (rd s) t1) (re s) (rf s) (rg s).

Definition regs_of (h : list Z) : regs :=
  Regs (nth 0 h 0) (nth 1 h 0) (nth 2 h 0) (nth 3 h 0)
       (nth 4 h 0) (nth 5 h 0) (nth 6 h 0) (nth 7 h 0).

Definition list_of (s : regs) : list Z :=
  [ra s; rb s; rc s; rd s; re s; rf s; rg s; rh s].

Definition compress (h : list Z) (block : list Z) : list Z :=
  let w := rev (schedule 48 (rev (words 16 block))) in
  let s := fold_left round (combine K w) (regs_of h) in
  map (fun p => add32 (fst p) (snd p)) (combine h (list_of s)).

Fixpoint blocks (n : nat) (h : list Z) (bs : list Z) : list Z :=
  match n with
  | O => h
  | S k => blocks k (compress h (firstn 64 bs)) (skipn 64 bs)
  end.

(** [hashlib.sha256(msg).digest()]: thirty-two bytes. *)
Definition digest (msg : list Z) : list Z :=
  let p := pad msg in
  flat_map (be_bytes 4) (blocks (Nat.div (List.length p) 64) H0 p).

End SHA256.

(** [int.from_bytes(bs, byteorder='little', signed=False)]. *)
Fixpoint from_bytes_little (bs : list Z) : Z :=
  match bs with
  | [] => 0
  | b :: r => b + 256 * from_bytes_little r
  end.

(** The common tail of the three fingerprint functions:
    [int.from_bytes(hashlib.sha256(s.encode('utf-8')).digest()[:8], 'little')]. *)
Definition hash64 (s : string) : Z :=
  from_bytes_little (firstn 8 (SHA256.digest (PyStr.encode s))).

(** ** JSON values and Python dictionaries *)

Set Warnings "-register-all".

Inductive json : Type :=
| JNull
| JBool (b : bool)
| JNum (n : Z)
| JStr (s : string)
| JArr (items : list json)
| JObj (fields : list (string * json)).

(** A [dict] with string keys, in insertion order. *)
Definition dict : Type := list (string * json).

(** [d.get(k)], [None] when the key is absent. *)
Fixpoint get (k : string) (d : dict) : option json :=
  match d with
  | [] => None
  | (k', v) :: r => if String.eqb k k' then Some v else get k r
  end.

(** [k in d]. *)
Definition has_key (k : string) (d : dict) : bool :=
  match get k d with Some _ => true | None => false end.

(** [d.get(k, default)]. *)
Definition get_default (k : string) (default : json) (d : dict) : json :=
  match get k d with Some v => v | None => default end.

(** [d.get(k)] as a Python value: [None] is the value JSON's null decodes to. *)
Definition get_or_none (k : string) (d : dict) : json := get_default k JNull d.

(** [d[k] = v]: the value of an existing key is replaced where it stands, a
    new key goes to the end. *)
Fixpoint dict_set (k : string) (v : json) (d : dict) : dict :=
  match d with
  | [] => [(k, v)]
  | (k', v') :: r =>
      if String.eqb k k' then (k', v) :: r else (k', v') :: dict_set k v r
  end.

(** A run of assignments [d[k1] = v1; d[k2] = v2; ...]. *)
Definition assign_all (assignments : dict) (d : dict) : dict :=
  fold_left (fun acc kv => dict_set (fst kv) (snd kv) acc) assignments d.

(** Python truthiness of a decoded value. *)
Definition truthy (j : json) : bool :=
  match j with
  | JNull => false
  | JBool b => b
  | JNum n => negb (n =? 0)
  | JStr s => negb (String.eqb s "")
  | JArr l => match l with [] => false | _ => true end
  | JObj d => match d with [] => false | _ => true end
  end.

(** [j == "literal"]. *)
Definition eq_str (j : json) (s : string) : bool :=
  match j with JStr t => String.eqb t s | _ => false end.

(** A value without children. *)
Definition is_scalar (j : json) : bool :=
  match j with JArr _ | JObj _ => false | _ => true end.

(** [d.get("kind") == k]. *)
Definition kind_is (k : string) (d : dict) : bool := eq_str (get_or_none "kind" d) k.

(** ** Outcomes of a pass *)

Inductive exn : Type :=
| ValueError (msg : string)
| TypeError
| AttributeError
| KeyError.

Inductive result (A : Type) : Type :=
| Ok (a : A)
| Raise (e : exn)
| Beyond.

Arguments Ok {A} a.
Arguments Raise {A} e.
Arguments Beyond {A}.

Definition bind {A B : Type} (r : result A) (f : A -> result B) : result B :=
  match r with
  | Ok a => f a
  | Raise e => Raise e
  | Beyond => Beyond
  end.

Notation "x <- c1 ;; c2" := (bind c1 (fun x => c2))
  (at level 61, c1 at next level, right associativity).

Section MapM.
Context {A B : Type} (f : A -> result B).

(** A [for] loop over a list, each iteration of which may raise. *)
Fixpoint mapM (l : list A) : result (list B) :=
  match l with
  | [] => Ok []
  | a :: r => b <- f a ;; bs <- mapM r ;; Ok (b :: bs)
  end.
End MapM.

(** [str(j)], as an f-string renders a scalar. *)
Definition py_format (j : json) : result string :=
  match j with
  | JStr s => Ok s
  | JNum n => Ok (PyStr.str_of_Z n)
  | JBool true => Ok "True"
  | JBool false => Ok "False"
  | JNull => Ok "None"
  | JArr _ | JObj _ => Beyond
  end.

(** ** The primitive-type lookup table *)

Definition TYPE_CONVERSION_TABLE : list (string * list (string * string)) :=
  let row (n c r : string) := (n, [("csharp", c); ("rust", r)]) in
  [ row "std::int8_t" "sbyte" "i8";
    row "std::uint8_t" "byte" "u8";
    row "std::int16_t" "Int16" "i16";
    row "std::uint16_t" "UInt16" "u16";
    row "std::int32_t" "Int32" "i32";
    row "std::uint32_t" "UInt32" "u32";
    row "std::int64_t" "Int64" "i64";
    row "std::uint64_t" "UInt64" "u64";
    row "int" "int" "i32";
    row "unsigned int" "uint" "u32";
    row "long" "long" "i64";
    row "unsigned long" "ulong" "u64";
    row "long long" "long" "i64";
    row "unsigned long long" "ulong" "u64";
    row "short" "short" "i16";
    row "unsigned short" "ushort" "u16";
    row "char" "sbyte" "i8";
    row "unsigned char" "byte" "u8";
    row "float" "float" "f32";
    row "double" "double" "f64";
    row "bool" "bool" "bool";
    row "size_t" "ulong" "usize";
    row "std::size_t" "ulong" "usize";
    row "void" "void" "()" ].

Fixpoint lookup {V : Type} (k : string) (t : list (string * V)) : option V :=
  match t with
  | [] => None
  | (k', v) :: r => if String.eqb k k' then Some v else lookup k r
  end.

Definition convert_type_to_target_language (native_type target_language : string)
  : string :=
  match lookup native_type TYPE_CONVERSION_TABLE with
  | Some row =>
      match lookup target_language row with
      | Some t => t
      | None => native_type
      end
  | None => native_type
  end.

(** The same call on a decoded value: a string goes through the table, another
    scalar is no key of the table and comes back unchanged, a list or an
    object cannot be hashed. *)
Definition convert_value_to_target_language (native_type : json)
  (target_language : string) : result json :=
  match native_type with
  | JStr s => Ok (JStr (convert_type_to_target_language s target_language))
  | JArr _ | JObj _ => Raise TypeError
  | _ => Ok native_type
  end.

(** ** Name-form translator *)

Definition is_empty {A : Type} (l : list A) : bool :=
  match l with [] => true | _ => false end.

(** One iteration of the loop of [convert_function_name_to_wit_format];
    [result] is the list of the pieces appended so far. *)
Definition wit_step (result : list string) (ch : ascii) : list string :=
  if Ascii.eqb ch "_" then result
  else
    let result :=
      if PyStr.isupper ch && negb (is_empty result)
      then (result ++ ["-"])%list else result in
    (result ++ [String (PyStr.lower_char ch) EmptyString])%list.

Definition convert_function_name_to_wit_format (name : string) : string :=
  PyStr.join (fold_left wit_step (list_ascii_of_string name) []).

Definition convert_wit_to_cxx_namespace (wit_full_name : string) : string :=
  let result := PyStr.replace "/" "::" (PyStr.replace ":" "::" wit_full_name) in
  PyStr.replace "-" "_" result.

Definition convert_wit_to_cxx_function_name (wit_function_name : string) : string :=
  let parts := PyStr.split "-" wit_function_name in
  PyStr.join (map PyStr.capitalize parts).

Definition convert_wit_to_cxx_script_full_interface_name
  (wit_full_interface_name : string) : string :=
  let result :=
    PyStr.replace "/" "::" (PyStr.replace ":" "::" wit_full_interface_name) in
  let result := PyStr.replace "-" "_" result in
  if negb (PyStr.startswith "::" result) then "::" ++ result else result.

Definition convert_wit_to_csharp_full_interface_name
  (wit_full_interface_name : string) : string :=
  match PyStr.split "/" wit_full_interface_name with
  | [part0; part1] =>
      let namespace_part := PyStr.replace ":" "." part0 in
      let interface_name_parts := PyStr.split "-" part1 in
      let interface_name :=
        PyStr.join (map PyStr.capitalize interface_name_parts) ++ "Interop" in
      "ApplicationWorld.wit.imports." ++ namespace_part ++ "." ++ interface_name
  | _ => wit_full_interface_name
  end.

Definition convert_wit_to_rust_full_interface_name
  (wit_full_interface_name : string) : string :=
  let result :=
    PyStr.replace "/" "::" (PyStr.replace ":" "::" wit_full_interface_name) in
  let result := PyStr.replace "-" "_" result in
  if negb (PyStr.startswith "crate::" result) then "crate::" ++ result else result.

Definition convert_wit_to_rust_function_name (wit_function_name : string) : string :=
  PyStr.lower (PyStr.replace "-" "_" wit_function_name).

Definition convert_package_name_to_cxx_namespace (package_name : string) : string :=
  let result := PyStr.replace ":" "::" package_name in
  if negb (PyStr.startswith "::" result) then "::" ++ result else result.

Definition convert_package_name_to_csharp_namespace (package_name : string) : string :=
  let namespace_part := PyStr.replace ":" "." package_name in
  "ApplicationWorld.wit.imports." ++ namespace_part.

Definition convert_package_name_to_rust_namespace (package_name : string) : string :=
  let result := PyStr.replace ":" "::" package_name in
  if negb (PyStr.startswith "crate::" result) then "crate::" ++ result else result.

(** [re.sub(r'([a-z])([A-Z])', r'\1_\2', s)]: the matches are taken left to
    right and do not overlap. *)
Fixpoint sub_lower_upper (s : string) : string :=
  match s with
  | EmptyString => EmptyString
  | String a t =>
      match t with
      | String b r =>
          if PyStr.islower a && PyStr.isupper b
          then String a (String "_" (String b (sub_lower_upper r)))
          else String a (sub_lower_upper t)
      | EmptyString => String a EmptyString
      end
  end.

Definition convert_method_name_to_rust_snake_case (method_name : string) : string :=
  PyStr.lower (sub_lower_upper method_name).

(** One iteration of the loop of [convert_interface_name_to_wit_format]. *)
Definition wit_interface_step (result : list string) (ch : ascii) : list string :=
  if Ascii.eqb ch "_" then result
  else
    let result :=
      if PyStr.isupper ch && negb (is_empty result)
         && negb (String.eqb (PyStr.last_part result) "/")
      then (result ++ ["-"])%list else result in
    (result ++ [String (PyStr.lower_char ch) EmptyString])%list.

Definition convert_interface_name_to_wit_format (package_name interface_name : string)
  : string :=
  PyStr.join
    (fold_left wit_interface_step (list_ascii_of_string interface_name)
       [package_name; "/"]).

(** ** Fingerprint engine *)

(** The loop of [calculate_function_checksum] over [enumerate(parameters)]. *)
Definition signature_step (signature_parts : list string)
  (ip : nat * (string * string)) : list string :=
  let '(i, (param_type, param_name)) := ip in
  let signature_parts :=
    if (0 <? i)%nat then (signature_parts ++ [", "])%list else signature_parts in
  (signature_parts ++ [(param_type ++ ":" ++ param_name)%string])%list.

Definition enumerate {A : Type} (l : list A) : list (nat * A) :=
  combine (seq 0 (List.length l)) l.

Definition function_signature (func_name : string)
  (parameters : list (string * string)) : string :=
  let signature_parts :=
    fold_left signature_step (enumerate parameters) [func_name; "("] in
  PyStr.join (signature_parts ++ [")"])%list.

Definition calculate_function_checksum (func_name : string)
  (parameters : list (string * string)) : Z :=
  hash64 (function_signature func_name parameters).

(** [sorted] on integers. *)
Fixpoint insert_sorted (x : Z) (l : list Z) : list Z :=
  match l with
  | [] => [x]
  | y :: r => if x <=? y then x :: l else y :: insert_sorted x r
  end.

Definition sorted (l : list Z) : list Z := fold_right insert_sorted [] l.

Definition interface_signature (interface_name : string)
  (function_checksums : list Z) : string :=
  let sorted_checksums := sorted function_checksums in
  interface_name ++ "{"
    ++ PyStr.join_with "," (map PyStr.str_of_Z sorted_checksums) ++ "}".

Definition calculate_interface_checksum (interface_name : string)
  (function_checksums : list Z) : Z :=
  hash64 (interface_signature interface_name function_checksums).

Definition calculate_name_hash (name : string) : Z := hash64 name.

(** ** Visiting the values of a node *)

Section Walk.
Variable visit : json -> result json.

(** [for value in node.values(): visit(value)] on a node that was assigned
    to just before.  The assigned values are scalars (or lists of objects
    of scalars), which no pass changes, so they are kept as they are; the
    other values are the node's own children. *)
Fixpoint walk_fields (assigned : dict) (d : dict) : result dict :=
  match d with
  | [] => Ok []
  | (k, v) :: r =>
      v' <- match get k assigned with Some a => Ok a | None => visit v end ;;
      r' <- walk_fields assigned r ;;
      Ok ((k, v') :: r')
  end.

(** The assignments [node[k] = v], in order, followed by the visit of all
    the values: an assigned key already in the node keeps its place, the
    new keys follow in the order of their first assignment. *)
Definition assign_then_walk (assignments : dict) (d : dict) : result dict :=
  let assigned := assign_all assignments [] in
  d' <- walk_fields assigned d ;;
  Ok (d' ++ filter (fun kv => negb (has_key (fst kv) d)) assigned)%list.

(** [if "inner" in node and isinstance(node["inner"], list):
       for child in node["inner"]: visit(child)]. *)
Fixpoint walk_inner (d : dict) : result dict :=
  match d with
  | [] => Ok []
  | (k, v) :: r =>
      if String.eqb k "inner" then
        match v with
        | JArr l => l' <- mapM visit l ;; Ok ((k, JArr l') :: r)
        | _ => Ok d
        end
      else r' <- walk_inner r ;; Ok ((k, v) :: r')
  end.

(** [for i, item in enumerate(value)], counting from [i]. *)
Fixpoint mapM_indexed (f : nat -> json -> result json) (i : nat)
  (l : list json) : result (list json) :=
  match l with
  | [] => Ok []
  | a :: r => b <- f i a ;; bs <- mapM_indexed f (S i) r ;; Ok (b :: bs)
  end.
End Walk.

(** [node["inner"]] when it is a list, no child otherwise. *)
Definition inner_list (node : dict) : list json :=
  match get "inner" node with
  | Some (JArr l) => l
  | _ => []
  end.

(** The receiver of a [.get]: anything but a [dict] has no such attribute. *)
Definition as_dict (j : json) : result dict :=
  match j with JObj d => Ok d | _ => Raise AttributeError end.

(** ** Annotation resolver *)

Section Annotations.
(** [os.path.normpath], the path of the processed source file and its
    lines as [readlines] returns them, [None] when the file cannot be
    read. *)
Variable normpath : string -> string.
Variable source_file : string.
Variable source_lines : option (list string).

Definition is_word_char (c : ascii) : bool :=
  PyStr.isupper c || PyStr.islower c || PyStr.isdigit c || Ascii.eqb c "_".

(** The longest prefix of word characters, and what follows it. *)
Fixpoint span_word (s : string) : string * string :=
  match s with
  | String c r =>
      if is_word_char c
      then let (w, t) := span_word r in (String c w, t)
      else (EmptyString, s)
  | EmptyString => (EmptyString, EmptyString)
  end.

(** A match of [METADATA\s*\(\s*([A-Za-z0-9_]+)\s*\)] at the start of [s];
    the three classes are disjoint, so the greedy reading is the only
    one. *)
Definition match_metadata (s : string) : option string :=
  if PyStr.startswith "METADATA" s then
    match PyStr.lstrip (PyStr.drop 8 s) with
    | String "(" r1 =>
        let (w, r2) := span_word (PyStr.lstrip r1) in
        match w, PyStr.lstrip r2 with
        | String _ _, String ")" _ => Some w
        | _, _ => None
        end
    | _ => None
    end
  else None.

(** [re.search]: the leftmost match. *)
Fixpoint search_metadata (s : string) : option string :=
  match match_metadata s with
  | Some w => Some w
  | None =>
      match s with
      | EmptyString => None
      | String _ r => search_metadata r
      end
  end.

(** The body is inside [try: ... except Exception: return None], so a line
    number that cannot be compared or an unreadable file gives [None]. *)
Definition extract_annotation_text (line col : json) : option string :=
  match source_lines with
  | None => None
  | Some lines =>
      match line with
      | JNum _ | JBool _ =>
          let n := match line with JNum n => n | JBool b => Z.b2z b | _ => 0 end in
          if (n <? 1) || (Z.of_nat (List.length lines) <? n) then None
          else
            match nth_error lines (Z.to_nat (n - 1)) with
            | Some line_content => search_metadata line_content
            | None => None
            end
      | _ => None
      end
  end.

(** The [AnnotateAttr] branch: the text to store in [node["annotation"]]. *)
Definition annotation_of (node : dict) : result (option string) :=
  if kind_is "AnnotateAttr" node then
    range <- as_dict (get_default "range" (JObj []) node) ;;
    range_begin <- as_dict (get_default "begin" (JObj []) range) ;;
    let expansion_loc := get_default "expansionLoc" (JObj []) range_begin in
    loc <- (if truthy expansion_loc then as_dict expansion_loc
            else Ok range_begin) ;;
    let line := get_or_none "line" loc in
    let col := get_or_none "col" loc in
    let file_path := get_or_none "file" loc in
    if truthy line && truthy col && truthy file_path then
      match file_path with
      | JStr fp =>
          if String.eqb (normpath fp) (normpath source_file) then
            match extract_annotation_text line col with
            | Some annotation_text =>
                if truthy (JStr annotation_text)
                then Ok (Some annotation_text) else Ok None
            | None => Ok None
            end
          else Ok None
      | _ => Raise TypeError
      end
    else Ok None
  else Ok None.

Fixpoint add_annotation_strings_recursive (node : json) : result json :=
  match node with
  | JObj d =>
      annotation <- annotation_of d ;;
      d' <- walk_inner add_annotation_strings_recursive d ;;
      Ok (JObj (match annotation with
                | Some t => dict_set "annotation" (JStr t) d'
                | None => d'
                end))
  | _ => Ok node
  end.
End Annotations.

(** ** Context-propagating walker *)

Record wit_context : Type := {
  namespace_stack : list json;
  parent_interface_qualified_name : option string;
  parent_wit_interface_fullname : option string;
  parent_witgen_cxx_interface_fullname : option string;
  parent_witgen_csharp_interface_fullname : option string;
  parent_witgen_rust_interface_fullname : option string;
  parent_wasm_cxx_interface_fullname : option string;
  parent_wasm_csharp_interface_name : option string;
  parent_wasm_rust_interface_fullname : option string }.

(** The default arguments of the first call. *)
Definition initial_context : wit_context :=
  {| namespace_stack := [];
     parent_interface_qualified_name := None;
     parent_wit_interface_fullname := None;
     parent_witgen_cxx_interface_fullname := None;
     parent_witgen_csharp_interface_fullname := None;
     parent_witgen_rust_interface_fullname := None;
     parent_wasm_cxx_interface_fullname := None;
     parent_wasm_csharp_interface_name := None;
     parent_wasm_rust_interface_fullname := None |}.

(** [if s:] on an [Optional[str]]. *)
Definition if_str (o : option string) : option string :=
  match o with
  | Some s => if String.eqb s "" then None else Some s
  | None => None
  end.

(** [[(k, prefix + sep + name)] if prefix else []]. *)
Definition fullname_field (k : string) (parent : option string)
  (sep name : string) : dict :=
  match if_str parent with
  | Some p => [(k, JStr (p ++ sep ++ name))]
  | None => []
  end.

(** The [NamespaceDecl] branch. *)
Definition push_namespace (node : dict) (ctx : wit_context) : wit_context :=
  if kind_is "NamespaceDecl" node then
    let namespace_name := get_or_none "name" node in
    if truthy namespace_name then
      {| namespace_stack := (namespace_stack ctx ++ [namespace_name])%list;
         parent_interface_qualified_name := parent_interface_qualified_name ctx;
         parent_wit_interface_fullname := parent_wit_interface_fullname ctx;
         parent_witgen_cxx_interface_fullname :=
           parent_witgen_cxx_interface_fullname ctx;
         parent_witgen_csharp_interface_fullname :=
           parent_witgen_csharp_interface_fullname ctx;
         parent_witgen_rust_interface_fullname :=
           parent_witgen_rust_interface_fullname ctx;
         parent_wasm_cxx_interface_fullname :=
           parent_wasm_cxx_interface_fullname ctx;
         parent_wasm_csharp_interface_name := parent_wasm_csharp_interface_name ctx;
         parent_wasm_rust_interface_fullname :=
           parent_wasm_rust_interface_fullname ctx |}
    else ctx
  else ctx.

(** The [CXXRecordDecl] branch for a package name and an interface name that
    are non-empty strings: the assignments to the node, in order, and the
    context handed to the children. *)
Definition interface_fields (package_name : string)
  (root_namespace : option string) (interface_name : string)
  (ctx : wit_context) : dict * wit_context :=
  let wit_interface_fullname :=
    convert_interface_name_to_wit_format package_name interface_name in
  let wit_interface_name :=
    if PyStr.contains "/" wit_interface_fullname
    then PyStr.last_part (PyStr.split "/" wit_interface_fullname)
    else wit_interface_fullname in
  let witgen_cxx_interface_fullname :=
    convert_wit_to_cxx_script_full_interface_name wit_interface_fullname in
  let cxx_script_interface_fullname :=
    match if_str root_namespace with
    | Some root => root ++ "::" ++ interface_name
    | None => convert_wit_to_cxx_script_full_interface_name wit_interface_fullname
    end in
  let cxx_script_interface_name :=
    PyStr.last_part (PyStr.split "::" cxx_script_interface_fullname) in
  let csharp_interface_fullname :=
    convert_wit_to_csharp_full_interface_name wit_interface_fullname in
  let witgen_rust_interface_fullname :=
    convert_wit_to_rust_full_interface_name wit_interface_fullname in
  let rust_interface_fullname :=
    match if_str root_namespace with
    | Some root =>
        let rust_namespace_path :=
          "crate::" ++ PyStr.lower (PyStr.replace "::" "::" root) in
        rust_namespace_path ++ "::" ++ interface_name
    | None => convert_wit_to_rust_full_interface_name wit_interface_fullname
    end in
  let names : dict :=
    [ ("wit_interface_fullname", JStr wit_interface_fullname);
      ("wit_interface_name", JStr wit_interface_name);
      ("witgen_cxx_interface_fullname", JStr witgen_cxx_interface_fullname);
      ("wasm_cxx_interface_fullname", JStr cxx_script_interface_fullname);
      ("wasm_cxx_interface_name", JStr cxx_script_interface_name);
      ("witgen_csharp_interface_fullname", JStr csharp_interface_fullname);
      ("wasm_csharp_interface_name", JStr interface_name);
      ("witgen_rust_interface_fullname", JStr witgen_rust_interface_fullname);
      ("wasm_rust_interface_fullname", JStr rust_interface_fullname);
      ("wasm_rust_interface_name", JStr interface_name) ] in
  match if_str root_namespace with
  | Some root =>
      let full_qualified_name := "::" ++ root ++ "::" ++ interface_name in
      let interface_name_hash := calculate_name_hash full_qualified_name in
      ((names ++
        [ ("wasm_cxx_namespace_fullname", JStr root);
          ("wasm_dotnet_script_namespace_fullname",
           JStr (PyStr.replace "::" "." root));
          ("wasm_rust_namespace_fullname",
           JStr (PyStr.lower (PyStr.replace "::" "." root)));
          ("full_qualified_name", JStr full_qualified_name);
          ("interface_name_hash", JNum interface_name_hash);
          ("interface_id", JNum interface_name_hash) ])%list,
       {| namespace_stack := namespace_stack ctx;
          parent_interface_qualified_name := Some full_qualified_name;
          parent_wit_interface_fullname := Some wit_interface_fullname;
          parent_witgen_cxx_interface_fullname := Some witgen_cxx_interface_fullname;
          parent_witgen_csharp_interface_fullname := Some csharp_interface_fullname;
          parent_witgen_rust_interface_fullname :=
            Some witgen_rust_interface_fullname;
          parent_wasm_cxx_interface_fullname := Some cxx_script_interface_fullname;
          parent_wasm_csharp_interface_name := Some interface_name;
          parent_wasm_rust_interface_fullname := Some rust_interface_fullname |})
  | None => (names, ctx)
  end.

(** The children of kind [ParmVarDecl] among [node["inner"]]. *)
Fixpoint parm_var_decls (inner : list json) : list dict :=
  match inner with
  | [] => []
  | JObj child :: r =>
      if kind_is "ParmVarDecl" child
      then child :: parm_var_decls r else parm_var_decls r
  | _ :: r => parm_var_decls r
  end.

(** The pair [(param_type, param_name)] read from a [ParmVarDecl] child. *)
Definition checksum_parameter (child : dict) : json * json :=
  let param_name := get_default "name" (JStr "") child in
  let param_type :=
    match get "type" child with
    | Some (JObj t) => get_default "qualType" (JStr "") t
    | _ => JStr ""
    end in
  (param_type, param_name).

(** The two components as the f-string of [calculate_function_checksum]
    renders them. *)
Definition format_parameter (p : json * json) : result (string * string) :=
  param_type <- py_format (fst p) ;;
  param_name <- py_format (snd p) ;;
  Ok (param_type, param_name).

Definition checksum_parameters (node : dict) : result (list (string * string)) :=
  mapM format_parameter (map checksum_parameter (parm_var_decls (inner_list node))).

(** The [CXXMethodDecl] branch for a name that is a non-empty string. *)
Definition method_fields (func_name : string) (node : dict) (ctx : wit_context)
  : result dict :=
  let wit_func_name := convert_function_name_to_wit_format func_name in
  let witgen_cxx_func_name := convert_wit_to_cxx_function_name wit_func_name in
  let witgen_csharp_func_name := witgen_cxx_func_name in
  let witgen_rust_func_name := convert_wit_to_rust_function_name wit_func_name in
  let rust_wrapper_method_name := convert_method_name_to_rust_snake_case func_name in
  let interface_part :=
    match if_str (parent_wit_interface_fullname ctx) with
    | Some parent =>
        let cxx_namespace := convert_wit_to_cxx_namespace parent in
        let cxx_function := PyStr.replace "-" "_" wit_func_name in
        let cxx_function :=
          match cxx_function with
          | String c r => String (PyStr.upper_char c) r
          | EmptyString => cxx_function
          end in
        [ ("wit_interface_fullname", JStr parent);
          ("cxx_namespace", JStr cxx_namespace);
          ("cxx_function_name", JStr cxx_function) ]
    | None => []
    end in
  let hash_part :=
    match if_str (parent_interface_qualified_name ctx) with
    | Some parent =>
        let full_function_qualified_name := parent ++ "::" ++ func_name in
        let function_name_hash := calculate_name_hash full_function_qualified_name in
        [ ("function_name_hash", JNum function_name_hash);
          ("function_id", JNum function_name_hash) ]
    | None => []
    end in
  params <- checksum_parameters node ;;
  let func_checksum := calculate_function_checksum func_name params in
  Ok ([ ("wit_function_name", JStr wit_func_name);
        ("witgen_cxx_function_name", JStr witgen_cxx_func_name) ]
      ++ fullname_field "witgen_cxx_function_fullname"
           (parent_witgen_cxx_interface_fullname ctx) "::" witgen_cxx_func_name
      ++ [ ("witgen_csharp_function_name", JStr witgen_csharp_func_name) ]
      ++ fullname_field "witgen_csharp_function_fullname"
           (parent_witgen_csharp_interface_fullname ctx) "." witgen_csharp_func_name
      ++ [ ("witgen_rust_function_name", JStr witgen_rust_func_name) ]
      ++ fullname_field "witgen_rust_function_fullname"
           (parent_witgen_rust_interface_fullname ctx) "::" witgen_rust_func_name
      ++ [ ("wasm_cxx_function_name", JStr func_name) ]
      ++ fullname_field "wasm_cxx_function_fullname"
           (parent_wasm_cxx_interface_fullname ctx) "::" func_name
      ++ [ ("wasm_csharp_function_name", JStr func_name) ]
      ++ fullname_field "wasm_csharp_function_fullname"
           (parent_wasm_csharp_interface_name ctx) "." func_name
      ++ [ ("rust_wrapper_method_name", JStr rust_wrapper_method_name);
           ("wasm_rust_function_name", JStr rust_wrapper_method_name) ]
      ++ fullname_field "wasm_rust_function_fullname"
           (parent_wasm_rust_interface_fullname ctx) "::" rust_wrapper_method_name
      ++ interface_part
      ++ hash_part
      ++ [ ("function_checksum", JNum func_checksum) ])%list.

(** A name on which the string conversions are called: a non-empty string
    goes through, a falsy value skips the branch, a number or [True] cannot
    be iterated over; what a list or an object does depends on its
    elements. *)
Inductive name_case : Type :=
| NameStr (s : string)
| NameFalsy.

Definition classify_name (name : json) : result name_case :=
  if truthy name then
    match name with
    | JStr s => Ok (NameStr s)
    | JArr _ | JObj _ => Beyond
    | _ => Raise TypeError
    end
  else Ok NameFalsy.

(** What one call does to a node before it visits the values: the
    assignments, in order, and the context handed down. *)
Definition wit_node (package_name root_namespace : option string)
  (ctx : wit_context) (node : dict) : result (dict * wit_context) :=
  let ctx := push_namespace node ctx in
  rc <- (if kind_is "CXXRecordDecl" node then
           match if_str package_name with
           | Some package =>
               name <- classify_name (get_or_none "name" node) ;;
               match name with
               | NameStr interface_name =>
                   Ok (interface_fields package root_namespace interface_name ctx)
               | NameFalsy => Ok ([], ctx)
               end
           | None => Ok ([], ctx)
           end
         else Ok ([], ctx)) ;;
  let (record_fields, ctx) := rc : dict * wit_context in
  if kind_is "CXXMethodDecl" node then
    name <- classify_name (get_or_none "name" node) ;;
    match name with
    | NameStr func_name =>
        fields <- method_fields func_name node ctx ;;
        Ok ((record_fields ++ fields)%list, ctx)
    | NameFalsy => Ok (record_fields, ctx)
    end
  else Ok (record_fields, ctx).

Fixpoint add_wit_format_names_recursive (package_name root_namespace : option string)
  (ctx : wit_context) (node : json) : result json :=
  match node with
  | JObj d =>
      ac <- wit_node package_name root_namespace ctx d ;;
      d' <- assign_then_walk
              (add_wit_format_names_recursive package_name root_namespace (snd ac))
              (fst ac) d ;;
      Ok (JObj d')
  | JArr l =>
      l' <- mapM (add_wit_format_names_recursive package_name root_namespace ctx) l ;;
      Ok (JArr l')
  | _ => Ok node
  end.

(** [add_function_checksums_recursive]: the same checksum, for every
    [CXXMethodDecl] node; the stage does not call it.  The name is joined
    with strings, so it has to be one. *)
Definition function_checksum_fields (node : dict) : result dict :=
  if kind_is "CXXMethodDecl" node then
    params <- checksum_parameters node ;;
    match get_default "name" (JStr "") node with
    | JStr func_name =>
        Ok [("function_checksum", JNum (calculate_function_checksum func_name params))]
    | _ => Raise TypeError
    end
  else Ok [].

Fixpoint add_function_checksums_recursive (node : json) : result json :=
  match node with
  | JObj d =>
      fields <- function_checksum_fields d ;;
      d' <- assign_then_walk add_function_checksums_recursive fields d ;;
      Ok (JObj d')
  | JArr l => l' <- mapM add_function_checksums_recursive l ;; Ok (JArr l')
  | _ => Ok node
  end.

(** ** Signature extractor *)

(** The return-type assignments of a [CXXMethodDecl] node. *)
Definition return_type_fields (node : dict) : result dict :=
  match get_default "type" (JObj []) node with
  | JObj type_info =>
      let qual_type := get_default "qualType" (JStr "") type_info in
      if truthy qual_type then
        match qual_type with
        | JStr q =>
            match PyStr.find "(" q with
            | Some paren_idx =>
                if (0 <? paren_idx)%nat then
                  let return_type := PyStr.strip (PyStr.take paren_idx q) in
                  Ok [ ("native_return_type", JStr return_type);
                       ("csharp_return_type",
                        JStr (convert_type_to_target_language return_type "csharp"));
                       ("rust_return_type",
                        JStr (convert_type_to_target_language return_type "rust"));
                       ("returnType", JStr return_type) ]
                else Ok []
            | None => Ok []
            end
        | _ => Raise AttributeError
        end
      else Ok []
  | _ => Ok []
  end.

(** The descriptor built from one [ParmVarDecl] child, none when its
    [type] is no object.  The name and the desugared spelling are stored as
    they are; were they lists or objects, the descriptor would share them
    with the child. *)
Definition parameter_descriptor (child : dict) : result (list json) :=
  let param_name := get_default "name" (JStr "") child in
  match get_default "type" (JObj []) child with
  | JObj param_type_info =>
      let native_type := get_default "qualType" (JStr "") param_type_info in
      csharp_type <- convert_value_to_target_language native_type "csharp" ;;
      rust_type <- convert_value_to_target_language native_type "rust" ;;
      let desugared := get_default "desugaredQualType" (JStr "") param_type_info in
      if is_scalar param_name && is_scalar desugared then
        Ok [ JObj [ ("name", param_name);
                    ("native_type", native_type);
                    ("csharp_type", csharp_type);
                    ("rust_type", rust_type);
                    ("desugaredType", desugared) ] ]
      else Beyond
  | _ => Ok []
  end.

Definition signature_fields (node : dict) : result dict :=
  if kind_is "CXXMethodDecl" node then
    returns <- return_type_fields node ;;
    parameters <- mapM parameter_descriptor (parm_var_decls (inner_list node)) ;;
    Ok (returns ++ [("parameters", JArr (List.concat parameters))])%list
  else Ok [].

Fixpoint extract_method_signature_details (node : json) : result json :=
  match node with
  | JObj d =>
      fields <- signature_fields d ;;
      d' <- assign_then_walk extract_method_signature_details fields d ;;
      Ok (JObj d')
  | JArr l => l' <- mapM extract_method_signature_details l ;; Ok (JArr l')
  | _ => Ok node
  end.

(** ** Ordering annotator *)

(** The integer a number or a boolean stands for as a dictionary key. *)
Definition key_number (j : json) : option Z :=
  match j with
  | JNum n => Some n
  | JBool b => Some (Z.b2z b)
  | _ => None
  end.

(** Equality of two scalar dictionary keys: [True == 1] and [False == 0]. *)
Definition key_eqb (a b : json) : bool :=
  match a, b with
  | JStr s, JStr t => String.eqb s t
  | JNull, JNull => true
  | _, _ =>
      match key_number a, key_number b with
      | Some m, Some n => m =? n
      | _, _ => false
      end
  end.

(** The key of an element's group; a list or an object cannot be a key. *)
Definition group_key (item : dict) : result json :=
  let kind := get_default "kind" (JStr "_no_kind") item in
  if eq_str kind "CXXMethodDecl" then
    let is_implicit := get_default "isImplicit" (JBool false) item in
    rendered <- py_format is_implicit ;;
    Ok (JStr ("CXXMethodDecl+isImplicit=" ++ rendered))
  else if is_scalar kind then Ok kind else Raise TypeError.

(** [kind_groups], in insertion order. *)
Definition kind_groups_t : Type := list (json * list nat).

(** [if group_key not in kind_groups: kind_groups[group_key] = []]
    then [kind_groups[group_key].append(i)]. *)
Fixpoint groups_add (key : json) (i : nat) (groups : kind_groups_t) : kind_groups_t :=
  match groups with
  | [] => [(key, [i])]
  | (k, indices) :: r =>
      if key_eqb key k then (k, (indices ++ [i])%list) :: r
      else (k, indices) :: groups_add key i r
  end.

(** The grouping loop over [enumerate(value)], counting from [i]. *)
Fixpoint build_groups (i : nat) (value : list json) (groups : kind_groups_t)
  : result kind_groups_t :=
  match value with
  | [] => Ok groups
  | JObj item :: r =>
      key <- group_key item ;;
      build_groups (S i) r (groups_add key i groups)
  | _ :: r => build_groups (S i) r groups
  end.

(** The assignments [value[first_index]["first"] = True] and
    [value[last_index]["last"] = True] of one group, as (index, key). *)
Definition group_marks (g : json * list nat) : list (nat * string) :=
  match snd g with
  | [] => []
  | first_index :: _ => [(first_index, "first"); (List.last (snd g) O, "last")]
  end.

(** All the assignments one element receives: the marks that name its index,
    then [False] for each flag it still lacks. *)
Definition item_assignments (marks : list (nat * string)) (i : nat) (item : dict)
  : dict :=
  let marked :=
    map (fun m => (snd m, JBool true))
        (filter (fun m => Nat.eqb (fst m) i) marks) in
  let present k := has_key k item || has_key k marked in
  (marked
     ++ (if present "first" then [] else [("first", JBool false)])
     ++ (if present "last" then [] else [("last", JBool false)]))%list.

(** The pass.  [as_value] tells a value met in [data.items()], where a
    non-empty list is grouped and flagged, from the argument of a call. *)
Fixpoint add_last_flags (as_value : bool) (data : json) : result json :=
  match data with
  | JObj d => d' <- walk_fields (add_last_flags true) [] d ;; Ok (JObj d')
  | JArr value =>
      if as_value && negb (is_empty value) then
        kind_groups <- build_groups O value [] ;;
        let marks := flat_map group_marks kind_groups in
        value' <-
          mapM_indexed
            (fun i item =>
               match item with
               | JObj fields =>
                   fields' <- assign_then_walk (add_last_flags true)
                                (item_assignments marks i fields) fields ;;
                   Ok (JObj fields')
               | _ => add_last_flags false item
               end) O value ;;
        Ok (JArr value')
      else
        value' <- mapM (add_last_flags false) value ;; Ok (JArr value')
  | _ => Ok data
  end.

Definition add_last_flags_recursive (data : json) : result json :=
  add_last_flags false data.

(** ** Interface fingerprints *)

(** Of the two definitions of [add_interface_checksums_recursive] in the
    source, the second replaces the first; it is the one embedded here. *)

(** The truthy [function_checksum] values of the [CXXMethodDecl] children. *)
Fixpoint method_checksums (inner : list json) : list json :=
  match inner with
  | [] => []
  | JObj child :: r =>
      if kind_is "CXXMethodDecl" child then
        let func_checksum := get_or_none "function_checksum" child in
        if truthy func_checksum
        then func_checksum :: method_checksums r else method_checksums r
      else method_checksums r
  | _ :: r => method_checksums r
  end.

(** A collected checksum as [sorted] and [str] treat it: an integer; how
    other truthy values sort and print is not described. *)
Definition as_int (j : json) : result Z :=
  match j with JNum n => Ok n | _ => Beyond end.

Definition interface_checksum_fields (node : dict) : result dict :=
  if kind_is "CXXRecordDecl" node then
    let interface_name := get_or_none "name" node in
    if truthy interface_name then
      let function_checksums := method_checksums (inner_list node) in
      checksums <- mapM as_int function_checksums ;;
      name <- py_format interface_name ;;
      Ok [("interface_checksum", JNum (calculate_interface_checksum name checksums))]
    else Ok []
  else Ok [].

Fixpoint add_interface_checksums_recursive (node : json) : result json :=
  match node with
  | JObj d =>
      fields <- interface_checksum_fields d ;;
      d' <- assign_then_walk add_interface_checksums_recursive fields d ;;
      Ok (JObj d')
  | JArr l => l' <- mapM add_interface_checksums_recursive l ;; Ok (JArr l')
  | _ => Ok node
  end.

(** ** Tree merge *)

(** ["inner" in obj]: a key of an object, an element of a list, a substring
    of a string; nothing else is a container. *)
Definition contains_inner (obj : json) : result bool :=
  match obj with
  | JObj d => Ok (has_key "inner" d)
  | JArr l => Ok (existsb (fun x => eq_str x "inner") l)
  | JStr s => Ok (PyStr.contains "inner" s)
  | _ => Raise TypeError
  end.

(** [if "inner" not in ast_data: ast_data["inner"] = []]. *)
Definition ensure_inner (ast_data : json) : result json :=
  present <- contains_inner ast_data ;;
  if present then Ok ast_data
  else match ast_data with
       | JObj d => Ok (JObj (dict_set "inner" (JArr []) d))
       | _ => Raise TypeError
       end.

(** [if "inner" in obj and isinstance(obj["inner"], list):
       ast_data["inner"].extend(obj["inner"])]. *)
Definition extend_inner (ast_data obj : json) : result json :=
  present <- contains_inner obj ;;
  if present then
    match obj with
    | JObj o =>
        match get "inner" o with
        | Some (JArr children) =>
            match ast_data with
            | JObj d =>
                match get "inner" d with
                | Some (JArr l) =>
                    Ok (JObj (dict_set "inner" (JArr (l ++ children)) d))
                | Some _ => Raise AttributeError
                | None => Raise KeyError
                end
            | _ => Raise TypeError
            end
        | _ => Ok ast_data
        end
    | _ => Raise TypeError
    end
  else Ok ast_data.

Fixpoint extend_all (ast_data : json) (rest : list json) : result json :=
  match rest with
  | [] => Ok ast_data
  | obj :: r => merged <- extend_inner ast_data obj ;; extend_all merged r
  end.

Definition no_json_objects : exn :=
  ValueError "No valid JSON objects found in AST output".

(** Lines 1056 to 1068: the check for an empty list and the merge. *)
Definition merge_json_objects (json_objects : list json) : result json :=
  match json_objects with
  | [] => Raise no_json_objects
  | ast_data :: rest =>
      if (1 <? List.length json_objects)%nat then
        base <- ensure_inner ast_data ;;
        extend_all base rest
      else Ok ast_data
  end.

(** ** Document assembler *)

Definition root_namespace_fields (root_namespace : option string) : dict :=
  match if_str root_namespace with
  | Some root =>
      let last := PyStr.last_part (PyStr.split "::" root) in
      [ ("root_namespace", JStr root);
        ("root_namespace_dotnet", JStr (PyStr.replace "::" "." root));
        ("root_namespace_rust", JStr (PyStr.lower (PyStr.replace "::" "." root)));
        ("root_namespace_last", JStr last);
        ("root_namespace_dotnet_last", JStr last);
        ("root_namespace_rust_last", JStr (PyStr.lower last)) ]
  | None => []
  end.

Definition package_name_fields (package_name : option string) : dict :=
  match if_str package_name with
  | Some package =>
      [ ("package_name", JStr package);
        ("wit_package_name", JStr package);
        ("witgen_cxx_namespace_fullname",
         JStr (convert_package_name_to_cxx_namespace package));
        ("witgen_dotnet_namespace_fullname",
         JStr (convert_package_name_to_csharp_namespace package));
        ("witgen_rust_namespace_fullname",
         JStr (convert_package_name_to_rust_namespace package)) ]
  | None => []
  end.

(** [ordered_data.update(ast_data)]: the items of an object; an empty list
    or string brings nothing, a character is no pair, a number cannot be
    iterated over; what a non-empty list does depends on its elements. *)
Definition dict_update (ordered_data : dict) (ast_data : json) : result dict :=
  match ast_data with
  | JObj d => Ok (assign_all d ordered_data)
  | JArr [] => Ok ordered_data
  | JArr _ => Beyond
  | JStr s =>
      if String.eqb s "" then Ok ordered_data
      else Raise (ValueError
        "dictionary update sequence element #0 has length 1; 2 is required")
  | _ => Raise TypeError
  end.

Definition assemble (root_namespace package_name : option string) (ast_data : json)
  : result json :=
  let ordered_data :=
    assign_all (root_namespace_fields root_namespace
                  ++ package_name_fields package_name)%list [] in
  d <- dict_update ordered_data ast_data ;;
  Ok (JObj d).

(** ** The post-process stage *)

Section PostProcess.
Variable normpath : string -> string.
Variable source_file : string.
Variable source_lines : option (list string).
Variable root_namespace package_name : option string.


(** [decoder.raw_decode(content, idx)]: the value that starts at [idx] and
    the index after it, [None] for a [JSONDecodeError]. *)
Variable raw_decode : string -> nat -> option (json * nat).

(** [while idx < len(content) and content[idx].isspace(): idx += 1]. *)
Fixpoint skip_whitespace (rest : string) (idx : nat) : nat :=
  match rest with
  | String c r => if PyStr.isspace c then skip_whitespace r (S idx) else idx
  | EmptyString => idx
  end.

(** The decoding loop; each turn moves [idx] forward, so [fuel] above the
    length of the text is never used up. *)
Fixpoint decode_loop (fuel : nat) (content : string) (idx : nat) : list json :=
  match fuel with
  | O => []
  | S fuel' =>
      if (idx <? String.length content)%nat then
        let idx := skip_whitespace (PyStr.drop idx content) idx in
        if (String.length content <=? idx)%nat then []
        else
          match raw_decode content idx with
          | Some (obj, end_idx) =>
              obj :: decode_loop fuel' content (idx + end_idx)%nat
          | None => []
          end
      else []
  end.

Definition decode_objects (content : string) : list json :=
  decode_loop (S (String.length content)) content O.

End PostProcess.

(** ** Predicates and sample data of the statements *)

(** The kebab-case rule in the words of the specification: the characters
    are read left to right with the output accumulated so far in [out]. *)
Fixpoint kebab_from (out : string) (s : string) : string :=
  match s with
  | EmptyString => out
  | String ch r =>
      if Ascii.eqb ch "_" then kebab_from out r
      else
        let out :=
          if PyStr.isupper ch && negb (String.eqb out "") then out ++ "-" else out in
        kebab_from (out ++ String (PyStr.lower_char ch) EmptyString) r
  end.

Definition kebab_spec (s : string) : string := kebab_from EmptyString s.

Definition is_alnum (c : ascii) : bool :=
  PyStr.isupper c || PyStr.islower c || PyStr.isdigit c.

Fixpoint all_chars (p : ascii -> bool) (s : string) : bool :=
  match s with
  | EmptyString => true
  | String c r => p c && all_chars p r
  end.

Definition no_dash (c : ascii) : bool := negb (Ascii.eqb c "-").

(** A character the kebab loop copies as it is. *)
Definition plain (c : ascii) : bool :=
  negb (PyStr.isupper c) && negb (Ascii.eqb c "_").

Definition is_str (j : json) : bool := match j with JStr _ => true | _ => false end.
Definition is_num (j : json) : bool := match j with JNum _ => true | _ => false end.
Definition is_bool (j : json) : bool := match j with JBool _ => true | _ => false end.
Definition is_arr (j : json) : bool := match j with JArr _ => true | _ => false end.
Definition is_obj (j : json) : bool := match j with JObj _ => true | _ => false end.

Definition mem (k : string) (l : list string) : bool := existsb (String.eqb k) l.

(** The type the parser gives to the fields the passes read. *)
Definition field_ok (k : string) (v : json) : bool :=
  if mem k ["kind"; "name"; "qualType"; "desugaredQualType"; "file"] then is_str v
  else if String.eqb k "inner" then is_arr v
  else if mem k ["range"; "begin"; "expansionLoc"] then is_obj v
  else if String.eqb k "isImplicit" then is_bool v
  else if String.eqb k "function_checksum" then is_num v
  else true.

Fixpoint well_typed (j : json) : bool :=
  match j with
  | JObj d => forallb (fun kv => field_ok (fst kv) (snd kv) && well_typed (snd kv)) d
  | JArr l => forallb well_typed l
  | _ => true
  end.

(** The constructor of a value. *)
Definition tag (j : json) : nat :=
  match j with
  | JNull => 0 | JBool _ => 1 | JNum _ => 2 | JStr _ => 3 | JArr _ => 4 | JObj _ => 5
  end%nat.

Definition wt_field (kv : string * json) : Prop :=
  field_ok (fst kv) (snd kv) = true /\ well_typed (snd kv) = true.

Definition wt (j : json) : Prop := well_typed j = true.

(** A pass is good on a value when it succeeds on it, keeps it well typed
    and keeps its constructor. *)
Definition good (f : json -> result json) (j : json) : Prop :=
  wt j -> exists j', f j = Ok j' /\ wt j' /\ tag j' = tag j.

Definition children (j : json) : list json :=
  match j with
  | JArr l => l
  | JObj d => map snd d
  | _ => []
  end.

Definition flag_key (m : nat * string) : Prop := snd m = "first" \/ snd m = "last".

Definition flags_good (j : json) : Prop := forall b, good (add_last_flags b) j.

(** [node["inner"]], when present, is a list. *)
Definition inner_is_list (d : dict) : bool :=
  match get "inner" d with
  | Some (JArr _) | None => true
  | Some _ => false
  end.



Definition sample_parameter (name type : string) : json :=
  JObj [("kind", JStr "ParmVarDecl"); ("name", JStr name);
        ("type", JObj [("qualType", JStr type)])].

Definition sample_method (name type : string) (inner : list json) : dict :=
  [("kind", JStr "CXXMethodDecl"); ("name", JStr name);
   ("type", JObj [("qualType", JStr type)]); ("inner", JArr inner)].

Definition checked_method (checksum : Z) : json :=
  JObj [("kind", JStr "CXXMethodDecl"); ("function_checksum", JNum checksum)].

Definition sample_interface (name : string) (inner : list json) : dict :=
  [("kind", JStr "CXXRecordDecl"); ("name", JStr name); ("inner", JArr inner)].

(** The checksum of [int f(int x)], which a const and a non-const overload
    share. *)
Definition overloaded_checksum : Z := calculate_function_checksum "f" [("int", "x")].

(** The first and the last character of a text. *)
Definition first_char (s : string) : option ascii :=
  match s with String c _ => Some c | EmptyString => None end.


(** What the interface checksum reads of a child. *)
Definition child_view (child : json) : option (bool * json) :=
  match child with
  | JObj c => Some (kind_is "CXXMethodDecl" c, get_or_none "function_checksum" c)
  | _ => None
  end.


(** The indices, counted from [i], of the keys equal to [k]. *)
Fixpoint positions_from (i : nat) (k : json) (ks : list json) : list nat :=
  match ks with
  | [] => []
  | k' :: r =>
      if key_eqb k' k then i :: positions_from (S i) k r
      else positions_from (S i) k r
  end.

Definition matches (groups : kind_groups_t) (k : json) : bool :=
  existsb (fun g => key_eqb k (fst g)) groups.

(** No two groups have equal keys. *)
Fixpoint distinct_keys (groups : kind_groups_t) : Prop :=
  match groups with
  | [] => True
  | g :: r => matches r (fst g) = false /\ distinct_keys r
  end.

(** The groups built from the keys [ks]: each holds the positions of the
    keys equal to its own, no two have equal keys, every key has its group. *)
Definition groups_of (groups : kind_groups_t) (ks : list json) : Prop :=
  Forall (fun g => snd g = positions_from 0 (fst g) ks /\ snd g <> []) groups
  /\ distinct_keys groups
  /\ Forall (fun k => matches groups k = true) ks.

Definition marked_with (marks : list (nat * string)) (i : nat) (k : string) : bool :=
  existsb (fun m => Nat.eqb (fst m) i && String.eqb (snd m) k) marks.

(** The fields of [m] other than the two flags are in [m'], each visited. *)
Definition kept (m m' : dict) : Prop :=
  forall key, key <> "first" -> key <> "last" ->
    match get key m with
    | None => get key m' = None
    | Some v => exists v', add_last_flags true v = Ok v' /\ get key m' = Some v'
    end.

(** Two elements are in the same group. *)
Definition same_group (a b : dict) : bool :=
  match group_key a, group_key b with
  | Ok x, Ok y => key_eqb x y
  | _, _ => false
  end.

(** An element of the output is in the group of [m]. *)
Definition in_group (m : dict) (j : json) : bool :=
  match j with JObj m' => same_group m m' | _ => false end.

(** An element of the output has the flag [k] set. *)
Definition flagged (k : string) (j : json) : bool :=
  match j with
  | JObj m' => match get k m' with Some (JBool true) => true | _ => false end
  | _ => false
  end.

(** The output [j] of the element [m] of key [k], given the keys before it
    and the keys after it. *)
Definition flagged_element (seen later : list json) (k : json) (m : dict) (j : json)
  : Prop :=
  exists m', j = JObj m'
    /\ get "first" m' = Some (JBool (negb (existsb (key_eqb k) seen)))
    /\ get "last" m' = Some (JBool (negb (existsb (key_eqb k) later)))
    /\ group_key m' = Ok k
    /\ kept m m'.

Fixpoint flagged_as (seen ks : list json) (ms : list dict) (out : list json) : Prop :=
  match ks, ms, out with
  | [], [], [] => True
  | k :: ks', m :: ms', j :: out' =>
      flagged_element seen ks' k m j /\ flagged_as (seen ++ [k]) ks' ms' out'
  | _, _, _ => False
  end.

Definition no_flags (m : dict) : Prop :=
  has_key "first" m = false /\ has_key "last" m = false.

Definition sample_element (kind name : string) : dict :=
  [("kind", JStr kind); ("name", JStr name)].

(** The node after the assignments, given what was assigned. *)
Definition overlay (assigned d : dict) : dict :=
  (map (fun kv => (fst kv, match get (fst kv) assigned with
                           | Some a => a
                           | None => snd kv
                           end)) d
   ++ filter (fun kv => negb (has_key (fst kv) d)) assigned)%list.




(** ** The kebab-case round trip on text beyond ASCII *)

(** A byte of ASCII text. *)
Definition is_ascii (c : ascii) : bool := PyStr.code c <? 128.

(** The definitions above read a name byte by byte, which is what Python
    does on ASCII text.  On any other text Python reads code points, and
    [str.isupper], [str.lower] and [str.capitalize] follow the Unicode
    database of the interpreter.  This module embeds the two conversions of
    the round trip on code points, with the three methods as parameters. *)
Module Unicode.

(** A code point, and a Python [str] as the list of its code points. *)
Abbreviation codepoint := N (only parsing).
Abbreviation text := (list N) (only parsing).

(** The methods of [str] that depend on the Unicode database, at the
    arguments the code calls them with. *)
Record str_methods : Type := {
  isupper : codepoint -> bool;  (* [ch.isupper()] for one character *)
  lower : codepoint -> text;    (* [ch.lower()] for one character *)
  capitalize : text -> text     (* [part.capitalize()] *)
}.

Definition underscore : codepoint := 95%N.
Definition dash : codepoint := 45%N.

(** One iteration of the loop of [convert_function_name_to_wit_format];
    [result] is the list of the pieces appended so far. *)
Definition wit_step (py : str_methods) (result : list text) (ch : codepoint)
  : list text :=
  if N.eqb ch underscore then result
  else
    let result :=
      if isupper py ch && negb (is_empty result)
      then (result ++ [[dash]])%list else result in
    (result ++ [lower py ch])%list.

Definition convert_function_name_to_wit_format (py : str_methods) (name : text)
  : text :=
  List.concat (fold_left (wit_step py) name []).

(** [s.split(sep)] for a separator of one character; [cur] is the part
    being read, in reverse. *)
Fixpoint split_from (sep : codepoint) (cur : text) (s : text) : list text :=
  match s with
  | [] => [rev cur]
  | c :: r =>
      if N.eqb c sep then rev cur :: split_from sep [] r
      else split_from sep (c :: cur) r
  end.

Definition split (sep : codepoint) (s : text) : list text := split_from sep [] s.

Definition convert_wit_to_cxx_function_name (py : str_methods)
  (wit_function_name : text) : text :=
  let parts := split dash wit_function_name in
  List.concat (map (capitalize py) parts).

(** The kebab-case rule in the words of the specification: the characters
    are read left to right with the output accumulated so far in [out]. *)
Fixpoint kebab_from (py : str_methods) (out : text) (s : text) : text :=
  match s with
  | [] => out
  | ch :: r =>
      if N.eqb ch underscore then kebab_from py out r
      else
        let out :=
          if isupper py ch && negb (is_empty out) then (out ++ [dash])%list
          else out in
        kebab_from py (out ++ lower py ch)%list r
  end.

Definition kebab_spec (py : str_methods) (s : text) : text := kebab_from py [] s.

(** The code points of ASCII text. *)
Definition of_string (s : string) : text := map N_of_ascii (list_ascii_of_string s).

(** Lower-casing keeps every character: the lower-case form of a character
    is never the empty string. *)
Definition lower_keeps_characters (py : str_methods) : Prop :=
  forall ch, lower py ch <> [].

(** On ASCII text the three methods are the ones of [PyStr]. *)
Record agrees_on_ascii (py : str_methods) : Prop := {
  isupper_on_ascii : forall c,
    is_ascii c = true -> isupper py (N_of_ascii c) = PyStr.isupper c;
  lower_on_ascii : forall c,
    is_ascii c = true -> lower py (N_of_ascii c) = [N_of_ascii (PyStr.lower_char c)];
  capitalize_on_ascii : forall s,
    all_chars is_ascii s = true ->
    capitalize py (of_string s) = of_string (PyStr.capitalize s)
}.

(** Three letters of the Unicode database beside those of ASCII: the
    capital theta U+0398, the small theta U+03B8, which are each other's
    case forms, and the capital theta symbol U+03F4, an uppercase letter
    whose lower-case form is the small theta and which is its own title-case
    form. *)
Definition capital_theta : codepoint := 0x398%N.
Definition small_theta : codepoint := 0x3B8%N.
Definition capital_theta_symbol : codepoint := 0x3F4%N.

Definition ascii_upper (c : codepoint) : bool := ((65 <=? c) && (c <=? 90))%N.
Definition ascii_lower (c : codepoint) : bool := ((97 <=? c) && (c <=? 122))%N.

Definition theta_isupper (c : codepoint) : bool :=
  ascii_upper c || N.eqb c capital_theta || N.eqb c capital_theta_symbol.

Definition theta_lower (c : codepoint) : codepoint :=
  if ascii_upper c then (c + 32)%N
  else if N.eqb c capital_theta || N.eqb c capital_theta_symbol then small_theta
  else c.

Definition theta_title (c : codepoint) : codepoint :=
  if ascii_lower c then (c - 32)%N
  else if N.eqb c small_theta then capital_theta
  else c.

(** The methods on text made of ASCII characters and of the three thetas;
    any other character is taken as caseless. *)
Definition theta_methods : str_methods :=
  {| isupper := theta_isupper;
     lower := fun c => [theta_lower c];
     capitalize := fun s =>
       match s with
       | [] => []
       | c :: r => theta_title c :: map theta_lower r
       end |}.

End Unicode.

(** ** Predicates of the further properties *)

(** A character that is no uppercase letter. *)
Definition not_upper (c : ascii) : bool := negb (PyStr.isupper c).

(** A character other than [a]. *)
Definition is_not (a c : ascii) : bool := negb (Ascii.eqb c a).

(** [s.count(a)] for one character. *)
Fixpoint count_char (a : ascii) (s : string) : nat :=
  match s with
  | EmptyString => O
  | String c r => ((if Ascii.eqb c a then 1 else 0) + count_char a r)%nat
  end.

(** A character of a C++ or Rust path: neither of the two separators of the
    WIT form. *)
Definition path_char (c : ascii) : bool := is_not "/" c && is_not "-" c.

(** A namespace segment: a non-empty name without a colon. *)
Definition segment (s : string) : Prop :=
  s <> "" /\ all_chars (is_not ":") s = true.

(** The context with another stack of namespace names. *)
Definition with_stack (stack : list json) (ctx : wit_context) : wit_context :=
  {| namespace_stack := stack;
     parent_interface_qualified_name := parent_interface_qualified_name ctx;
     parent_wit_interface_fullname := parent_wit_interface_fullname ctx;
     parent_witgen_cxx_interface_fullname := parent_witgen_cxx_interface_fullname ctx;
     parent_witgen_csharp_interface_fullname :=
       parent_witgen_csharp_interface_fullname ctx;
     parent_witgen_rust_interface_fullname := parent_witgen_rust_interface_fullname ctx;
     parent_wasm_cxx_interface_fullname := parent_wasm_cxx_interface_fullname ctx;
     parent_wasm_csharp_interface_name := parent_wasm_csharp_interface_name ctx;
     parent_wasm_rust_interface_fullname := parent_wasm_rust_interface_fullname ctx |}.

(** The text of a field, empty when the field is absent. *)
Definition text_field (k : string) (d : dict) : string :=
  match get k d with Some (JStr s) => s | _ => "" end.

(** The descriptor of a parameter declared with the type object [t]. *)
Definition expected_descriptor (child t : dict) : json :=
  let native_type := text_field "qualType" t in
  JObj [ ("name", JStr (text_field "name" child));
         ("native_type", JStr native_type);
         ("csharp_type", JStr (convert_type_to_target_language native_type "csharp"));
         ("rust_type", JStr (convert_type_to_target_language native_type "rust"));
         ("desugaredType", JStr (text_field "desugaredQualType" t)) ].

(** One descriptor for each declaration whose [type] is an object (an
    absent [type] counts as an empty object), in the order of the
    declarations. *)
Definition expected_parameters (declarations : list dict) : list json :=
  flat_map (fun child =>
              match get_default "type" (JObj []) child with
              | JObj t => [expected_descriptor child t]
              | _ => []
              end) declarations.

(** The keys the stage writes at the head of the document. *)
Definition header_keys : list string :=
  [ "root_namespace"; "root_namespace_dotnet"; "root_namespace_rust";
    "root_namespace_last"; "root_namespace_dotnet_last"; "root_namespace_rust_last";
    "package_name"; "wit_package_name"; "witgen_cxx_namespace_fullname";
    "witgen_dotnet_namespace_fullname"; "witgen_rust_namespace_fullname" ].

(** The keys the walker assigns to an interface node. *)
Definition interface_keys : list string :=
  [ "wit_interface_fullname"; "wit_interface_name"; "witgen_cxx_interface_fullname";
    "wasm_cxx_interface_fullname"; "wasm_cxx_interface_name";
    "witgen_csharp_interface_fullname"; "wasm_csharp_interface_name";
    "witgen_rust_interface_fullname"; "wasm_rust_interface_fullname";
    "wasm_rust_interface_name"; "wasm_cxx_namespace_fullname";
    "wasm_dotnet_script_namespace_fullname"; "wasm_rust_namespace_fullname";
    "full_qualified_name"; "interface_name_hash"; "interface_id" ].

(** The keys the walker assigns to a method node. *)
Definition method_keys : list string :=
  [ "wit_function_name"; "witgen_cxx_function_name"; "witgen_cxx_function_fullname";
    "witgen_csharp_function_name"; "witgen_csharp_function_fullname";
    "witgen_rust_function_name"; "witgen_rust_function_fullname";
    "wasm_cxx_function_name"; "wasm_cxx_function_fullname";
    "wasm_csharp_function_name"; "wasm_csharp_function_fullname";
    "rust_wrapper_method_name"; "wasm_rust_function_name";
    "wasm_rust_function_fullname"; "wit_interface_fullname"; "cxx_namespace";
    "cxx_function_name"; "function_name_hash"; "function_id"; "function_checksum" ].

(** The keys the signature extractor assigns. *)
Definition signature_keys : list string :=
  [ "native_return_type"; "csharp_return_type"; "rust_return_type"; "returnType";
    "parameters" ].

(** All the keys of [fields] are among [keys]. *)
Definition keys_in (keys : list string) (fields : dict) : Prop :=
  Forall (fun kv => mem (fst kv) keys = true) fields.




(** A parameter as the signature shows it. *)
Definition render_parameter (p : string * string) : string := fst p ++ ":" ++ snd p.

(** The keys a method receives only inside an interface. *)
Definition interface_dependent_keys : list string :=
  [ "witgen_cxx_function_fullname"; "witgen_csharp_function_fullname";
    "witgen_rust_function_fullname"; "wasm_cxx_function_fullname";
    "wasm_csharp_function_fullname"; "wasm_rust_function_fullname";
    "wit_interface_fullname"; "cxx_namespace"; "cxx_function_name";
    "function_name_hash"; "function_id" ].

(** [grown keys j j']: the value [j'] is [j] grown.  A scalar is the same;
    a list has the same length, its elements grown in place; an object has
    its fields in their order, each with its value grown or, for a key among
    [keys], replaced, and new fields after them, all with keys among
    [keys]. *)
Inductive grown (keys : list string) : json -> json -> Prop :=
| grown_scalar (j : json) : is_scalar j = true -> grown keys j j
| grown_list (l l' : list json) :
    Forall2 (grown keys) l l' -> grown keys (JArr l) (JArr l')
| grown_object (d d' added : dict) :
    Forall2 (fun kv kv' =>
               fst kv' = fst kv
               /\ (grown keys (snd kv) (snd kv') \/ mem (fst kv) keys = true)) d d' ->
    Forall (fun kv => mem (fst kv) keys = true) added ->
    grown keys (JObj d) (JObj (d' ++ added)%list).

(** A decoder that knows the empty object only. *)
Definition braces_decoder (content : string) (idx : nat) : option (json * nat) :=
  if PyStr.startswith "{}" (PyStr.drop idx content)
  then Some (JObj [], (idx + 2)%nat) else None.

(** * Proofs *)

(** ** The digest on the test vectors of the standard *)

Lemma digest_abc :
  SHA256.digest (PyStr.encode "abc")
  = [186; 120; 22; 191; 143; 1; 207; 234; 65; 65; 64; 222; 93; 174; 34; 35;
     176; 3; 97; 163; 150; 23; 122; 156; 180; 16; 255; 97; 242; 0; 21; 173].
Proof. vm_compute. reflexivity. Qed.

Lemma digest_empty :
  SHA256.digest (PyStr.encode "")
  = [227; 176; 196; 66; 152; 252; 28; 20; 154; 251; 244; 200; 153; 111; 185; 36;
     39; 174; 65; 228; 100; 155; 147; 76; 164; 149; 153; 27; 120; 82; 184; 85].
Proof. vm_compute. reflexivity. Qed.

(** A message of two blocks. *)
Lemma digest_two_blocks :
  SHA256.digest
    (PyStr.encode "abcdbcdecdefdefgefghfghighijhijkijkljklmklmnlmnomnopnopq")
  = [36; 141; 106; 97; 210; 6; 56; 184; 229; 192; 38; 147; 12; 62; 96; 57;
     163; 60; 228; 89; 100; 255; 33; 103; 246; 236; 237; 212; 25; 219; 6; 193].
Proof. vm_compute. reflexivity. Qed.

Lemma append_assoc (a b c : string) : (a ++ b) ++ c = a ++ (b ++ c).
Proof. induction a; simpl; congruence. Qed.

Lemma join_app (a b : list string) :
  PyStr.join (a ++ b) = PyStr.join a ++ PyStr.join b.
Proof.
  induction a as [|x a IH]; simpl; [reflexivity|].
  unfold PyStr.join in *. simpl. rewrite IH.
  now rewrite append_assoc.
Qed.

Lemma append_empty_r (s : string) : s ++ "" = s.
Proof. induction s; simpl; congruence. Qed.

Lemma join_single (x : string) : PyStr.join [x] = x.
Proof. unfold PyStr.join; simpl. apply append_empty_r. Qed.

Lemma append_eq_empty (a b : string) : a ++ b = "" -> a = "" /\ b = "".
Proof. destruct a; simpl; [auto | discriminate]. Qed.

(** Every piece in the list is non-empty, so the list is empty exactly when
    the joined text is. *)
Lemma join_empty_iff (l : list string) :
  Forall (fun p => p <> "") l ->
  is_empty l = String.eqb (PyStr.join l) "".
Proof.
  intros H. destruct l as [|x l]; [reflexivity|].
  inversion H as [|? ? Hx _]; subst. simpl.
  destruct x as [|c x]; [congruence|]. reflexivity.
Qed.

Lemma wit_step_pieces (l : list string) (ch : ascii) :
  Forall (fun p => p <> "") l -> Forall (fun p => p <> "") (wit_step l ch).
Proof.
  intros H. unfold wit_step.
  destruct (Ascii.eqb ch "_"); [exact H|].
  destruct (PyStr.isupper ch && negb (is_empty l));
    repeat (apply Forall_app; split); auto; repeat constructor; discriminate.
Qed.

Lemma wit_loop_kebab (s : string) : forall (l : list string),
  Forall (fun p => p <> "") l ->
  PyStr.join (fold_left wit_step (list_ascii_of_string s) l)
  = kebab_from (PyStr.join l) s.
Proof.
  induction s as [|ch r IH]; intros l Hl; simpl; [reflexivity|].
  rewrite IH by (apply wit_step_pieces; exact Hl).
  unfold wit_step.
  destruct (Ascii.eqb ch "_"); [reflexivity|].
  rewrite (join_empty_iff l Hl).
  destruct (PyStr.isupper ch && negb (PyStr.join l =? "")%string);
    rewrite ?join_app, ?join_single; reflexivity.
Qed.

Lemma wit_format_kebab (name : string) :
  convert_function_name_to_wit_format name = kebab_spec name.
Proof.
  unfold convert_function_name_to_wit_format, kebab_spec.
  now rewrite wit_loop_kebab by constructor.
Qed.

Lemma kebab_from_prefix (s : string) : forall out,
  exists t, kebab_from out s = out ++ t.
Proof.
  induction s as [|ch r IH]; intros out; simpl.
  - exists "". now rewrite append_empty_r.
  - destruct (Ascii.eqb ch "_"); [apply IH|].
    match goal with |- exists t, kebab_from (?o ++ ?x) r = _ =>
      destruct (IH (o ++ x)) as [t Ht]; rewrite Ht end.
    destruct (PyStr.isupper ch && negb (out =? "")%string);
      rewrite ?append_assoc; eauto.
Qed.

Lemma lower_char_not_dash (c : ascii) :
  PyStr.isupper c = true -> PyStr.lower_char c <> "-"%char.
Proof.
  destruct c as [[] [] [] [] [] [] [] []]; vm_compute; intros H; discriminate.
Qed.

(** *** Round trip *)

Ltac by_cases_on_char c :=
  destruct c as [[] [] [] [] [] [] [] []]; vm_compute; try reflexivity;
  try discriminate; auto.

Lemma rev_string_acc (s : string) : forall acc,
  PyStr.rev_string acc s = PyStr.rev_string "" s ++ acc.
Proof.
  induction s as [|c r IH]; intros acc; simpl; [reflexivity|].
  rewrite (IH (String c acc)), (IH (String c "")).
  now rewrite append_assoc.
Qed.

Lemma split_from_char (a c : ascii) (cur r : string) :
  PyStr.split_from (String a "") O cur (String c r)
  = if Ascii.eqb a c
    then PyStr.rev_string "" cur :: PyStr.split_from (String a "") O "" r
    else PyStr.split_from (String a "") O (String c cur) r.
Proof.
  cbn [PyStr.split_from PyStr.startswith String.length Nat.pred].
  now rewrite andb_true_r.
Qed.

Lemma split_without_dash (s : string) : forall cur,
  all_chars no_dash s = true ->
  PyStr.split_from "-" O cur s = [PyStr.rev_string "" cur ++ s].
Proof.
  induction s as [|c r IH]; intros cur H.
  - simpl. now rewrite append_empty_r.
  - cbn [all_chars] in H. apply andb_true_iff in H as [Hc Hr].
    unfold no_dash in Hc. apply negb_true_iff in Hc.
    rewrite split_from_char, Ascii.eqb_sym, Hc, (IH _ Hr).
    cbn [PyStr.rev_string].
    rewrite (rev_string_acc cur (String c "")).
    now rewrite append_assoc.
Qed.

Lemma pascal_without_dash (s : string) :
  all_chars no_dash s = true ->
  convert_wit_to_cxx_function_name s = PyStr.capitalize s.
Proof.
  intros H. unfold convert_wit_to_cxx_function_name, PyStr.split.
  rewrite (split_without_dash s "" H). simpl. apply join_single.
Qed.

Lemma all_chars_impl (p q : ascii -> bool) (s : string) :
  (forall c, p c = true -> q c = true) ->
  all_chars p s = true -> all_chars q s = true.
Proof.
  intros Hpq. induction s as [|c r IH]; simpl; [auto|].
  intros H. apply andb_true_iff in H as [Hc Hr].
  now rewrite (Hpq c Hc), IH.
Qed.

Lemma all_chars_lower (p q : ascii -> bool) (s : string) :
  (forall c, p c = true -> q (PyStr.lower_char c) = true) ->
  all_chars p s = true -> all_chars q (PyStr.lower s) = true.
Proof.
  intros Hpq. induction s as [|c r IH]; simpl; [auto|].
  intros H. apply andb_true_iff in H as [Hc Hr].
  now rewrite (Hpq c Hc), IH.
Qed.

Lemma alnum_no_dash c : is_alnum c = true -> no_dash c = true.
Proof. by_cases_on_char c. Qed.

Lemma alnum_lower_no_dash c : is_alnum c = true -> no_dash (PyStr.lower_char c) = true.
Proof. by_cases_on_char c. Qed.

Lemma alnum_lower_plain c : is_alnum c = true -> plain (PyStr.lower_char c) = true.
Proof. by_cases_on_char c. Qed.

Lemma alnum_upper_not_underscore c :
  is_alnum c = true -> Ascii.eqb (PyStr.upper_char c) "_" = false.
Proof. by_cases_on_char c. Qed.

Lemma lower_upper_char c : PyStr.lower_char (PyStr.upper_char c) = PyStr.lower_char c.
Proof. by_cases_on_char c. Qed.

Lemma upper_lower_char c : PyStr.upper_char (PyStr.lower_char c) = PyStr.upper_char c.
Proof. by_cases_on_char c. Qed.

Lemma lower_lower_char c : PyStr.lower_char (PyStr.lower_char c) = PyStr.lower_char c.
Proof. by_cases_on_char c. Qed.

Lemma plain_lower_char c : plain c = true -> PyStr.lower_char c = c.
Proof. by_cases_on_char c. Qed.

Lemma lower_idempotent (s : string) : PyStr.lower (PyStr.lower s) = PyStr.lower s.
Proof. induction s; simpl; [|rewrite lower_lower_char]; congruence. Qed.

Lemma kebab_from_plain (s : string) : forall out,
  all_chars plain s = true -> kebab_from out s = out ++ s.
Proof.
  induction s as [|c r IH]; intros out H; simpl in *.
  - now rewrite append_empty_r.
  - apply andb_true_iff in H as [Hc Hr].
    rewrite (plain_lower_char c Hc).
    unfold plain in Hc. apply andb_true_iff in Hc as [Hu Hn].
    apply negb_true_iff in Hu, Hn. rewrite Hu, Hn. simpl.
    rewrite (IH _ Hr). now rewrite append_assoc.
Qed.

Lemma kebab_of_capitalized (x : string) :
  all_chars is_alnum x = true ->
  convert_function_name_to_wit_format (PyStr.capitalize x) = PyStr.lower x.
Proof.
  intros H. rewrite wit_format_kebab. unfold kebab_spec.
  destruct x as [|c r]; [reflexivity|]. simpl in *.
  apply andb_true_iff in H as [Hc Hr].
  rewrite (alnum_upper_not_underscore c Hc), andb_false_r. simpl.
  rewrite kebab_from_plain by (eapply all_chars_lower; [apply alnum_lower_plain | exact Hr]).
  simpl. now rewrite lower_upper_char.
Qed.

(** ** Text beyond ASCII *)

Lemma concat_snoc {A : Type} (l : list (list A)) (x : list A) :
  List.concat (l ++ [x]) = (List.concat l ++ x)%list.
Proof. rewrite concat_app. simpl. now rewrite app_nil_r. Qed.

Lemma is_empty_concat {A : Type} (l : list (list A)) :
  Forall (fun p => p <> []) l -> is_empty l = is_empty (List.concat l).
Proof.
  intros H. destruct l as [|x l]; [reflexivity|].
  inversion H as [|? ? Hx _]; subst. simpl. destruct x; [congruence|reflexivity].
Qed.

Section Kebab.
Variable py : Unicode.str_methods.
Hypothesis lower_kept : Unicode.lower_keeps_characters py.

Lemma unicode_wit_step_pieces (l : list Unicode.text) (ch : Unicode.codepoint) :
  Forall (fun p => p <> []) l -> Forall (fun p => p <> []) (Unicode.wit_step py l ch).
Proof.
  intros H. unfold Unicode.wit_step.
  destruct (N.eqb ch Unicode.underscore); [exact H|].
  destruct (Unicode.isupper py ch && negb (is_empty l));
    repeat (apply Forall_app; split); auto; repeat constructor;
    solve [discriminate | apply lower_kept].
Qed.

Lemma unicode_wit_loop_kebab (s : Unicode.text) : forall (l : list Unicode.text),
  Forall (fun p => p <> []) l ->
  List.concat (fold_left (Unicode.wit_step py) s l)
  = Unicode.kebab_from py (List.concat l) s.
Proof.
  induction s as [|ch r IH]; intros l Hl; simpl; [reflexivity|].
  rewrite IH by (apply unicode_wit_step_pieces; exact Hl).
  unfold Unicode.wit_step.
  destruct (N.eqb ch Unicode.underscore); [reflexivity|].
  rewrite (is_empty_concat l Hl).
  destruct (Unicode.isupper py ch && negb (is_empty (List.concat l)));
    rewrite ?concat_snoc; reflexivity.
Qed.

Lemma unicode_wit_format_kebab (name : Unicode.text) :
  Unicode.convert_function_name_to_wit_format py name = Unicode.kebab_spec py name.
Proof.
  unfold Unicode.convert_function_name_to_wit_format, Unicode.kebab_spec.
  now rewrite unicode_wit_loop_kebab by constructor.
Qed.

Lemma unicode_kebab_from_prefix (s : Unicode.text) : forall out,
  exists t, Unicode.kebab_from py out s = (out ++ t)%list.
Proof.
  induction s as [|ch r IH]; intros out; simpl.
  - exists []. now rewrite app_nil_r.
  - destruct (N.eqb ch Unicode.underscore); [apply IH|].
    match goal with |- exists t, Unicode.kebab_from py (?o ++ ?x)%list r = _ =>
      destruct (IH (o ++ x)%list) as [t Ht]; rewrite Ht end.
    destruct (Unicode.isupper py ch && negb (is_empty out));
      rewrite <- ?app_assoc; eauto.
Qed.

End Kebab.

(** *** The conversions on ASCII text *)

Lemma of_string_app (a b : string) :
  Unicode.of_string (a ++ b) = (Unicode.of_string a ++ Unicode.of_string b)%list.
Proof.
  unfold Unicode.of_string.
  induction a as [|c a IH]; simpl; [reflexivity|]. now rewrite IH.
Qed.

Lemma of_string_join (l : list string) :
  Unicode.of_string (PyStr.join l) = List.concat (map Unicode.of_string l).
Proof.
  induction l as [|x l IH]; [reflexivity|].
  change (PyStr.join (x :: l)) with (x ++ PyStr.join l).
  rewrite of_string_app, IH. reflexivity.
Qed.

Lemma underscore_code (c : ascii) :
  N.eqb (N_of_ascii c) Unicode.underscore = Ascii.eqb c "_".
Proof. by_cases_on_char c. Qed.

Lemma dash_code (c : ascii) : N.eqb (N_of_ascii c) Unicode.dash = Ascii.eqb c "-".
Proof. by_cases_on_char c. Qed.

Lemma lower_char_ascii (c : ascii) : is_ascii c = true -> is_ascii (PyStr.lower_char c) = true.
Proof. by_cases_on_char c. Qed.

Lemma upper_char_ascii (c : ascii) : is_ascii c = true -> is_ascii (PyStr.upper_char c) = true.
Proof. by_cases_on_char c. Qed.

Lemma alnum_ascii (c : ascii) : is_alnum c = true -> is_ascii c = true.
Proof. by_cases_on_char c. Qed.

Lemma lower_ascii (s : string) :
  all_chars is_ascii s = true -> all_chars is_ascii (PyStr.lower s) = true.
Proof. apply all_chars_lower. apply lower_char_ascii. Qed.

Lemma capitalize_ascii (s : string) :
  all_chars is_ascii s = true -> all_chars is_ascii (PyStr.capitalize s) = true.
Proof.
  destruct s as [|c r]; [auto|]. simpl. intros H.
  apply andb_true_iff in H as [Hc Hr].
  now rewrite (upper_char_ascii c Hc), (lower_ascii r Hr).
Qed.

Section OnAscii.
Variable py : Unicode.str_methods.
Hypothesis ascii_agreed : Unicode.agrees_on_ascii py.

Lemma unicode_wit_step_ascii (l : list string) (c : ascii) :
  is_ascii c = true ->
  Unicode.wit_step py (map Unicode.of_string l) (N_of_ascii c)
  = map Unicode.of_string (wit_step l c).
Proof.
  intros Hc. unfold Unicode.wit_step, wit_step.
  rewrite underscore_code. destruct (Ascii.eqb c "_"); [reflexivity|].
  rewrite (Unicode.isupper_on_ascii py ascii_agreed c Hc).
  rewrite (Unicode.lower_on_ascii py ascii_agreed c Hc).
  assert (E : is_empty (map Unicode.of_string l) = is_empty l) by now destruct l.
  rewrite E.
  destruct (PyStr.isupper c && negb (is_empty l)); rewrite !map_app; reflexivity.
Qed.

Lemma unicode_wit_loop_ascii (s : string) : forall (l : list string),
  all_chars is_ascii s = true ->
  fold_left (Unicode.wit_step py) (Unicode.of_string s) (map Unicode.of_string l)
  = map Unicode.of_string (fold_left wit_step (list_ascii_of_string s) l).
Proof.
  unfold Unicode.of_string at 1.
  induction s as [|c r IH]; intros l H; simpl; [reflexivity|].
  simpl in H. apply andb_true_iff in H as [Hc Hr].
  rewrite (unicode_wit_step_ascii l c Hc). now apply IH.
Qed.

(** On ASCII text the conversion on code points is the conversion on
    bytes. *)
Lemma kebab_on_ascii (name : string) :
  all_chars is_ascii name = true ->
  Unicode.convert_function_name_to_wit_format py (Unicode.of_string name)
  = Unicode.of_string (convert_function_name_to_wit_format name).
Proof.
  intros H. unfold Unicode.convert_function_name_to_wit_format,
    convert_function_name_to_wit_format.
  pose proof (unicode_wit_loop_ascii name [] H) as E. cbn [map] in E.
  rewrite E. now rewrite of_string_join.
Qed.

Lemma split_from_none (sep : Unicode.codepoint) (s : Unicode.text) : forall cur,
  Forall (fun c => N.eqb c sep = false) s ->
  Unicode.split_from sep cur s = [(rev cur ++ s)%list].
Proof.
  induction s as [|c r IH]; intros cur H; simpl.
  - now rewrite app_nil_r.
  - inversion H as [|? ? Hc Hr]; subst. rewrite Hc, (IH _ Hr). simpl.
    now rewrite <- app_assoc.
Qed.

Lemma of_string_no_dash (s : string) :
  all_chars no_dash s = true ->
  Forall (fun c => N.eqb c Unicode.dash = false) (Unicode.of_string s).
Proof.
  unfold Unicode.of_string.
  induction s as [|c r IH]; simpl; intros H; constructor.
  - apply andb_true_iff in H as [Hc _]. rewrite dash_code.
    unfold no_dash in Hc. now apply negb_true_iff in Hc.
  - apply andb_true_iff in H as [_ Hr]. now apply IH.
Qed.

Lemma pascal_on_ascii_word (s : string) :
  all_chars no_dash s = true -> all_chars is_ascii s = true ->
  Unicode.convert_wit_to_cxx_function_name py (Unicode.of_string s)
  = Unicode.of_string (PyStr.capitalize s).
Proof.
  intros Hd Ha. unfold Unicode.convert_wit_to_cxx_function_name, Unicode.split.
  rewrite (split_from_none Unicode.dash _ [] (of_string_no_dash s Hd)). simpl.
  rewrite app_nil_r. now apply (Unicode.capitalize_on_ascii py ascii_agreed).
Qed.

End OnAscii.

(** *** The sample methods *)

Lemma theta_lower_kept : Unicode.lower_keeps_characters Unicode.theta_methods.
Proof. intros ch. discriminate. Qed.

Lemma theta_isupper_ascii (c : ascii) :
  is_ascii c = true -> Unicode.theta_isupper (N_of_ascii c) = PyStr.isupper c.
Proof. by_cases_on_char c. Qed.

Lemma theta_lower_ascii (c : ascii) :
  is_ascii c = true ->
  Unicode.theta_lower (N_of_ascii c) = N_of_ascii (PyStr.lower_char c).
Proof. by_cases_on_char c. Qed.

Lemma theta_title_ascii (c : ascii) :
  is_ascii c = true ->
  Unicode.theta_title (N_of_ascii c) = N_of_ascii (PyStr.upper_char c).
Proof. by_cases_on_char c. Qed.

Lemma theta_lower_text (s : string) :
  all_chars is_ascii s = true ->
  map Unicode.theta_lower (Unicode.of_string s) = Unicode.of_string (PyStr.lower s).
Proof.
  unfold Unicode.of_string.
  induction s as [|c r IH]; simpl; intros H; [reflexivity|].
  apply andb_true_iff in H as [Hc Hr].
  now rewrite (theta_lower_ascii c Hc), (IH Hr).
Qed.

Lemma theta_agrees : Unicode.agrees_on_ascii Unicode.theta_methods.
Proof.
  split.
  - exact theta_isupper_ascii.
  - intros c Hc. cbn [Unicode.lower Unicode.theta_methods].
    now rewrite (theta_lower_ascii c Hc).
  - intros [|c r] H; [reflexivity|].
    cbn [all_chars] in H. apply andb_true_iff in H as [Hc Hr].
    change (Unicode.of_string (String c r))
      with (N_of_ascii c :: Unicode.of_string r).
    cbn [Unicode.capitalize Unicode.theta_methods PyStr.capitalize].
    change (Unicode.of_string (String (PyStr.upper_char c) (PyStr.lower r)))
      with (N_of_ascii (PyStr.upper_char c) :: Unicode.of_string (PyStr.lower r)).
    rewrite (theta_title_ascii c Hc), (theta_lower_text r Hr). reflexivity.
Qed.

(** ** C4 *)

Lemma upper_not_underscore (c : ascii) :
  PyStr.isupper c = true -> N_of_ascii c <> Unicode.underscore.
Proof. by_cases_on_char c. Qed.

(** C4.  For every text, whatever the Unicode database says of its
    characters, the kebab-case conversion is the rule of the specification:
    the characters are read left to right, every underscore is dropped, a
    dash comes before an uppercase character exactly when the output so far
    is not empty, and each kept character is lower-cased.  A leading
    uppercase character gives its lower-case form with no dash before it.
    "DoSomething1" and "doSomething1" both give "do-something1". *)
Theorem kebab_case_rule (py : Unicode.str_methods) :
  Unicode.lower_keeps_characters py ->
  (forall name,
     Unicode.convert_function_name_to_wit_format py name = Unicode.kebab_spec py name)
  /\ (forall ch r,
        Unicode.isupper py ch = true -> ch <> Unicode.underscore ->
        exists t,
          Unicode.convert_function_name_to_wit_format py (ch :: r)
          = (Unicode.lower py ch ++ t)%list)
  /\ (Unicode.agrees_on_ascii py ->
      Unicode.convert_function_name_to_wit_format py (Unicode.of_string "DoSomething1")
      = Unicode.of_string "do-something1"
      /\ Unicode.convert_function_name_to_wit_format py
           (Unicode.of_string "doSomething1")
         = Unicode.of_string "do-something1"
      /\ (forall c r,
            is_ascii c = true -> PyStr.isupper c = true ->
            exists t,
              Unicode.convert_function_name_to_wit_format py (N_of_ascii c :: r)
              = N_of_ascii (PyStr.lower_char c) :: t
              /\ PyStr.lower_char c <> "-"%char)).
Proof.
  intros Hl.
  assert (Hlead : forall ch r,
            ch <> Unicode.underscore ->
            exists t,
              Unicode.convert_function_name_to_wit_format py (ch :: r)
              = (Unicode.lower py ch ++ t)%list).
  { intros ch r Hu. rewrite (unicode_wit_format_kebab py Hl).
    unfold Unicode.kebab_spec. cbn [Unicode.kebab_from].
    apply N.eqb_neq in Hu. rewrite Hu. cbn [is_empty negb]. rewrite andb_false_r.
    cbn [app]. apply unicode_kebab_from_prefix. }
  split; [exact (unicode_wit_format_kebab py Hl)|].
  split; [intros ch r _ Hu; now apply Hlead|].
  intros Ha.
  split; [now rewrite (kebab_on_ascii py Ha)|].
  split; [now rewrite (kebab_on_ascii py Ha)|].
  intros c r Hc Hup.
  destruct (Hlead (N_of_ascii c) r (upper_not_underscore c Hup)) as [t Ht].
  exists t. rewrite Ht, (Unicode.lower_on_ascii py Ha c Hc).
  split; [reflexivity|now apply lower_char_not_dash].
Qed.

Lemma kebab_case_rule_witness :
  Unicode.convert_function_name_to_wit_format Unicode.theta_methods
    (Unicode.of_string "DoSomething1")
  = Unicode.of_string "do-something1"
  /\ Unicode.convert_function_name_to_wit_format Unicode.theta_methods
       [Unicode.capital_theta_symbol; Unicode.capital_theta]
     = Unicode.kebab_spec Unicode.theta_methods
         [Unicode.capital_theta_symbol; Unicode.capital_theta].
Proof.
  destruct (kebab_case_rule Unicode.theta_methods theta_lower_kept)
    as (Hrule & _ & Hascii).
  split; [apply (Hascii theta_agrees)|apply Hrule].
Defined.

(** ** C5 *)

(** C5, as amended.  For an identifier made of ASCII letters and digits,
    [pascal (kebab (pascal x)) = pascal x], where kebab is
    [convert_function_name_to_wit_format] and pascal is
    [convert_wit_to_cxx_function_name], with any methods of [str] that are
    the usual ones on ASCII text. *)
Theorem pascal_kebab_round_trip (py : Unicode.str_methods) (x : string) :
  Unicode.agrees_on_ascii py ->
  all_chars is_alnum x = true ->
  Unicode.convert_wit_to_cxx_function_name py
    (Unicode.convert_function_name_to_wit_format py
       (Unicode.convert_wit_to_cxx_function_name py (Unicode.of_string x)))
  = Unicode.convert_wit_to_cxx_function_name py (Unicode.of_string x).
Proof.
  intros Ha H.
  assert (Hx : all_chars is_ascii x = true)
    by (eapply all_chars_impl; [apply alnum_ascii | exact H]).
  rewrite (pascal_on_ascii_word py Ha x)
    by first [exact Hx | eapply all_chars_impl; [apply alnum_no_dash | exact H]].
  rewrite (kebab_on_ascii py Ha) by now apply capitalize_ascii.
  rewrite (kebab_of_capitalized x H).
  rewrite (pascal_on_ascii_word py Ha (PyStr.lower x))
    by first [now apply lower_ascii
             | eapply all_chars_lower; [apply alnum_lower_no_dash | exact H]].
  f_equal. destruct x as [|c r]; [reflexivity|]. simpl.
  now rewrite upper_lower_char, lower_idempotent.
Qed.

Lemma pascal_kebab_round_trip_witness :
  Unicode.convert_wit_to_cxx_function_name Unicode.theta_methods
    (Unicode.convert_function_name_to_wit_format Unicode.theta_methods
       (Unicode.convert_wit_to_cxx_function_name Unicode.theta_methods
          (Unicode.of_string "DoSomething1")))
  = Unicode.convert_wit_to_cxx_function_name Unicode.theta_methods
      (Unicode.of_string "DoSomething1").
Proof.
  apply (pascal_kebab_round_trip Unicode.theta_methods "DoSomething1" theta_agrees).
  reflexivity.
Defined.

(** The round trip on the capital theta symbol, whatever the methods do
    elsewhere: it is its own capitalized form, its lower-case form is the
    small theta, and the capitalized form of the small theta is the capital
    theta. *)
Lemma round_trip_of_theta_symbol (py : Unicode.str_methods) :
  Unicode.capitalize py [Unicode.capital_theta_symbol]
  = [Unicode.capital_theta_symbol] ->
  Unicode.lower py Unicode.capital_theta_symbol = [Unicode.small_theta] ->
  Unicode.capitalize py [Unicode.small_theta] = [Unicode.capital_theta] ->
  Unicode.convert_wit_to_cxx_function_name py [Unicode.capital_theta_symbol]
  = [Unicode.capital_theta_symbol]
  /\ Unicode.convert_wit_to_cxx_function_name py
       (Unicode.convert_function_name_to_wit_format py
          (Unicode.convert_wit_to_cxx_function_name py
             [Unicode.capital_theta_symbol]))
     = [Unicode.capital_theta].
Proof.
  intros H1 H2 H3.
  assert (E1 : Unicode.convert_wit_to_cxx_function_name py
                 [Unicode.capital_theta_symbol] = [Unicode.capital_theta_symbol]).
  { unfold Unicode.convert_wit_to_cxx_function_name. cbn. now rewrite H1. }
  split; [exact E1|]. rewrite E1.
  assert (E2 : Unicode.convert_function_name_to_wit_format py
                 [Unicode.capital_theta_symbol] = [Unicode.small_theta]).
  { unfold Unicode.convert_function_name_to_wit_format. cbn.
    rewrite andb_false_r. cbn. now rewrite H2. }
  rewrite E2. unfold Unicode.convert_wit_to_cxx_function_name. cbn. now rewrite H3.
Qed.

(** C5 as stated fails: the capital theta symbol is a letter, and the round
    trip turns it into the capital theta. *)
Lemma round_trip_fails_beyond_ascii :
  Unicode.convert_wit_to_cxx_function_name Unicode.theta_methods
    (Unicode.convert_function_name_to_wit_format Unicode.theta_methods
       (Unicode.convert_wit_to_cxx_function_name Unicode.theta_methods
          [Unicode.capital_theta_symbol]))
  <> Unicode.convert_wit_to_cxx_function_name Unicode.theta_methods
       [Unicode.capital_theta_symbol].
Proof.
  destruct (round_trip_of_theta_symbol Unicode.theta_methods) as [-> ->];
    try reflexivity.
  discriminate.
Qed.

(** ** Well-typed trees *)

(* ------------------------------------------------------------------ *)

Lemma json_ind' (P : json -> Prop) :
  P JNull -> (forall b, P (JBool b)) -> (forall n, P (JNum n)) ->
  (forall s, P (JStr s)) ->
  (forall l, Forall P l -> P (JArr l)) ->
  (forall d, Forall (fun kv => P (snd kv)) d -> P (JObj d)) ->
  forall j, P j.
Proof.
  intros HN HB HZ HS HA HO. fix IH 1. intros [ | b | n | s | l | d ].
  - exact HN.
  - apply HB.
  - apply HZ.
  - apply HS.
  - apply HA. induction l as [|x l IHl]; constructor; [apply IH | exact IHl].
  - apply HO. induction d as [|[k v] d IHd]; constructor; [apply IH | exact IHd].
Qed.

Lemma wt_obj (d : dict) : well_typed (JObj d) = true <-> Forall wt_field d.
Proof.
  cbn [well_typed]. rewrite forallb_forall, Forall_forall.
  split; intros H kv Hin; specialize (H kv Hin).
  - apply andb_true_iff in H. exact H.
  - apply andb_true_iff. exact H.
Qed.

Lemma wt_arr (l : list json) : well_typed (JArr l) = true <-> Forall wt l.
Proof. cbn [well_typed]. now rewrite forallb_forall, Forall_forall. Qed.

Lemma field_ok_tag (k : string) (v v' : json) :
  tag v' = tag v -> field_ok k v' = field_ok k v.
Proof. unfold field_ok. destruct v, v'; intros H; try discriminate H; reflexivity. Qed.

Lemma get_In (k : string) (d : dict) (v : json) :
  get k d = Some v -> In (k, v) d.
Proof.
  induction d as [|[k' v'] d IH]; simpl; [discriminate|].
  destruct (String.eqb_spec k k') as [->|_].
  - intros [= ->]. now left.
  - intros H. right. now apply IH.
Qed.

Lemma wt_get (k : string) (d : dict) (v : json) :
  Forall wt_field d -> get k d = Some v -> field_ok k v = true /\ wt v.
Proof.
  intros Hd Hg. apply get_In in Hg.
  rewrite Forall_forall in Hd. exact (Hd _ Hg).
Qed.

Lemma get_dict_set_same (k : string) (v : json) (d : dict) :
  get k (dict_set k v d) = Some v.
Proof.
  induction d as [|[k' v'] d IH]; simpl.
  - now rewrite String.eqb_refl.
  - destruct (String.eqb_spec k k') as [->|Hne]; simpl.
    + now rewrite String.eqb_refl.
    + destruct (String.eqb_spec k k'); [contradiction|exact IH].
Qed.

Lemma get_dict_set_other (k k' : string) (v : json) (d : dict) :
  k <> k' -> get k (dict_set k' v d) = get k d.
Proof.
  intros Hne. induction d as [|[k2 v2] d IH]; simpl.
  - destruct (String.eqb_spec k k'); [contradiction|reflexivity].
  - destruct (String.eqb_spec k' k2) as [->|Hne2]; simpl.
    + destruct (String.eqb_spec k k2); [contradiction|reflexivity].
    + destruct (String.eqb_spec k k2); [reflexivity|exact IH].
Qed.

Lemma dict_set_wt (k : string) (v : json) (d : dict) :
  wt_field (k, v) -> Forall wt_field d -> Forall wt_field (dict_set k v d).
Proof.
  intros Hv. induction d as [|[k' v'] d IH]; simpl; intros Hd.
  - now constructor.
  - inversion Hd as [|? ? Hx Hr]; subst.
    destruct (String.eqb_spec k k') as [->|_]; constructor; auto.
Qed.

Lemma assign_all_wt (fields d : dict) :
  Forall wt_field fields -> Forall wt_field d -> Forall wt_field (assign_all fields d).
Proof.
  unfold assign_all. revert d.
  induction fields as [|[k v] fields IH]; simpl; intros d Hf Hd; [exact Hd|].
  inversion Hf; subst. apply IH; [assumption|]. now apply dict_set_wt.
Qed.

Lemma mapM_good (f : json -> result json) (l : list json) :
  Forall (good f) l -> Forall wt l ->
  exists l', mapM f l = Ok l' /\ Forall wt l' /\ List.length l' = List.length l.
Proof.
  induction l as [|x l IH]; intros Hg Hw; simpl.
  - exists []. repeat split; constructor.
  - inversion Hg as [|? ? Hx Hl]; inversion Hw as [|? ? Wx Wl]; subst.
    destruct (Hx Wx) as (x' & -> & Wx' & _).
    destruct (IH Hl Wl) as (l' & -> & Wl' & Hlen). simpl.
    exists (x' :: l'). repeat split; [now constructor | simpl; congruence].
Qed.

Lemma walk_fields_good (visit : json -> result json) (assigned d : dict) :
  Forall (fun kv => good visit (snd kv)) d ->
  Forall wt_field d -> Forall wt_field assigned ->
  exists d', walk_fields visit assigned d = Ok d' /\ Forall wt_field d'.
Proof.
  intros Hg Hd Ha. induction d as [|[k v] d IH]; simpl.
  - exists []. split; [reflexivity|constructor].
  - inversion Hg as [|? ? Hx Hl]; inversion Hd as [|? ? Wx Wl]; subst.
    destruct (IH Hl Wl) as (d' & Hd' & Wd').
    destruct (get k assigned) as [a|] eqn:Hget.
    + simpl. rewrite Hd'. simpl. exists ((k, a) :: d'). split; [reflexivity|].
      constructor; [|exact Wd']. exact (wt_get _ _ _ Ha Hget).
    + destruct Wx as [Fk Wv]. simpl in Fk, Wv, Hx.
      destruct (Hx Wv) as (v' & -> & Wv' & Htag). simpl. rewrite Hd'. simpl.
      exists ((k, v') :: d'). split; [reflexivity|].
      constructor; [|exact Wd']. split; simpl; [|exact Wv'].
      now rewrite (field_ok_tag k v v' Htag).
Qed.

Lemma assign_then_walk_good (visit : json -> result json) (fields d : dict) :
  Forall (fun kv => good visit (snd kv)) d ->
  Forall wt_field d -> Forall wt_field fields ->
  exists d', assign_then_walk visit fields d = Ok d' /\ Forall wt_field d'.
Proof.
  intros Hg Hd Hf. unfold assign_then_walk.
  assert (Ha : Forall wt_field (assign_all fields [])).
  { apply assign_all_wt; [exact Hf|constructor]. }
  destruct (walk_fields_good visit _ d Hg Hd Ha) as (d' & -> & Wd'). simpl.
  eexists. split; [reflexivity|].
  apply Forall_app. split; [exact Wd'|].
  apply Forall_forall. intros kv Hin. apply filter_In in Hin as [Hin _].
  rewrite Forall_forall in Ha. now apply Ha.
Qed.

(** The shape shared by three of the passes: assignments computed from the
    node, then the visit of its values. *)
Lemma node_pass_good (fields_of : dict -> result dict)
  (pass : json -> result json) (d : dict) :
  (forall d, Forall wt_field d ->
     exists fields, fields_of d = Ok fields /\ Forall wt_field fields) ->
  Forall (fun kv => good pass (snd kv)) d ->
  Forall wt_field d ->
  exists d', (fields <- fields_of d ;;
              d' <- assign_then_walk pass fields d ;; Ok (JObj d')) = Ok (JObj d')
             /\ Forall wt_field d'.
Proof.
  intros Hf Hg Hd. destruct (Hf d Hd) as (fields & -> & Wf). simpl.
  destruct (assign_then_walk_good pass fields d Hg Hd Wf) as (d' & -> & Wd').
  simpl. now exists d'.
Qed.

(** *** Reading typed fields *)

Lemma wt_get_str (k : string) (d : dict) :
  Forall wt_field d -> (forall v, field_ok k v = is_str v) ->
  get k d = None \/ exists s, get k d = Some (JStr s).
Proof.
  intros Hd Hk. destruct (get k d) as [v|] eqn:Hg; [right|now left].
  destruct (wt_get _ _ _ Hd Hg) as [Hf _]. rewrite Hk in Hf.
  destruct v; try discriminate Hf. eauto.
Qed.

Lemma wt_inner_list (d : dict) : Forall wt_field d -> Forall wt (inner_list d).
Proof.
  intros Hd. unfold inner_list. destruct (get "inner" d) as [v|] eqn:Hg; [|constructor].
  destruct (wt_get _ _ _ Hd Hg) as [_ Hw]. destruct v; try constructor.
  now apply wt_arr.
Qed.

Lemma wt_parm_var_decls (l : list json) :
  Forall wt l -> Forall (Forall wt_field) (parm_var_decls l).
Proof.
  induction 1 as [|x l Hx _ IH]; simpl; [constructor|].
  destruct x; auto. destruct (kind_is "ParmVarDecl" fields); auto.
  constructor; [now apply wt_obj | exact IH].
Qed.

Lemma checksum_parameter_strings (c : dict) :
  Forall wt_field c -> exists t n, checksum_parameter c = (JStr t, JStr n).
Proof.
  intros Hc. unfold checksum_parameter, get_default.
  destruct (wt_get_str "name" c Hc (fun _ => eq_refl)) as [-> | [n ->]];
    (destruct (get "type" c) as [ty|] eqn:Hty; [|eauto]);
    (destruct ty; eauto);
    (destruct (wt_get _ _ _ Hc Hty) as [_ Hw]; apply wt_obj in Hw;
     destruct (wt_get_str "qualType" fields Hw (fun _ => eq_refl)) as [-> | [t ->]];
     eauto).
Qed.

Lemma checksum_parameters_good (d : dict) :
  Forall wt_field d -> exists ps, checksum_parameters d = Ok ps.
Proof.
  intros Hd. unfold checksum_parameters.
  pose proof (wt_parm_var_decls _ (wt_inner_list d Hd)) as H.
  induction H as [|c l Hc _ IH]; simpl; [eauto|].
  destruct (checksum_parameter_strings c Hc) as (t & n & ->).
  destruct IH as (ps & ->). simpl. eauto.
Qed.

Ltac scalar_fields :=
  repeat first
    [ apply Forall_nil
    | apply Forall_cons; [split; reflexivity|]
    | apply Forall_app; split ].

Lemma fullname_field_wt (k : string) (parent : option string) (sep name : string) :
  field_ok k (JStr "") = true -> Forall wt_field (fullname_field k parent sep name).
Proof.
  intros Hk. unfold fullname_field. destruct (if_str parent); [|constructor].
  constructor; [|constructor]. split; [|reflexivity].
  simpl. now rewrite (field_ok_tag k (JStr "") (JStr _)).
Qed.

Lemma interface_fields_wt (package : string) (root : option string) (name : string)
  (ctx : wit_context) :
  Forall wt_field (fst (interface_fields package root name ctx)).
Proof.
  unfold interface_fields. cbv zeta.
  destruct (if_str root); cbn [fst]; scalar_fields.
Qed.

Lemma method_fields_good (func_name : string) (d : dict) (ctx : wit_context) :
  Forall wt_field d ->
  exists fields, method_fields func_name d ctx = Ok fields /\ Forall wt_field fields.
Proof.
  intros Hd. unfold method_fields. cbv zeta.
  destruct (checksum_parameters_good d Hd) as (ps & ->). simpl bind.
  eexists. split; [reflexivity|].
  destruct (if_str (parent_wit_interface_fullname ctx));
    destruct (if_str (parent_interface_qualified_name ctx));
    repeat first
      [ apply Forall_nil
      | apply fullname_field_wt; reflexivity
      | apply Forall_cons; [split; reflexivity|]
      | apply Forall_app; split ].
Qed.

Lemma classify_name_good (d : dict) :
  Forall wt_field d -> exists c, classify_name (get_or_none "name" d) = Ok c.
Proof.
  intros Hd. unfold get_or_none, get_default.
  destruct (wt_get_str "name" d Hd (fun _ => eq_refl)) as [-> | [s ->]].
  - now exists NameFalsy.
  - unfold classify_name. simpl. destruct (String.eqb s ""); simpl; eauto.
Qed.

Lemma wit_node_good (package_name root_namespace : option string)
  (ctx : wit_context) (d : dict) :
  Forall wt_field d ->
  exists ac, wit_node package_name root_namespace ctx d = Ok ac
             /\ Forall wt_field (fst ac).
Proof.
  intros Hd. unfold wit_node. cbv zeta.
  destruct (classify_name_good d Hd) as (c & Hc).
  set (ctx0 := push_namespace d ctx). clearbody ctx0.
  assert (H1 : exists rc,
    (if kind_is "CXXRecordDecl" d
     then match if_str package_name with
          | Some package =>
              name <- classify_name (get_or_none "name" d) ;;
              match name with
              | NameStr interface_name =>
                  Ok (interface_fields package root_namespace interface_name ctx0)
              | NameFalsy => Ok ([], ctx0)
              end
          | None => Ok ([], ctx0)
          end
     else Ok ([], ctx0)) = Ok rc /\ Forall wt_field (fst rc)).
  { destruct (kind_is "CXXRecordDecl" d); [|eexists; split; [reflexivity|constructor]].
    destruct (if_str package_name); [|eexists; split; [reflexivity|constructor]].
    rewrite Hc. simpl. destruct c.
    - eexists. split; [reflexivity|]. apply interface_fields_wt.
    - eexists. split; [reflexivity|constructor]. }
  destruct H1 as ([rf ctx1] & -> & Hrf). simpl bind. cbn [fst] in Hrf.
  destruct (kind_is "CXXMethodDecl" d); [|eexists; split; [reflexivity|exact Hrf]].
  rewrite Hc. simpl. destruct c.
  - destruct (method_fields_good s d ctx1 Hd) as (fields & -> & Hf). simpl.
    eexists. split; [reflexivity|]. cbn [fst]. apply Forall_app. now split.
  - eexists. split; [reflexivity|exact Hrf].
Qed.

Lemma wit_pass_good (package_name root_namespace : option string) (j : json) :
  forall ctx, good (add_wit_format_names_recursive package_name root_namespace ctx) j.
Proof.
  induction j as [ | b | n | s | l IH | d IH ] using json_ind'; intros ctx Hw;
    try (eexists; split; [reflexivity | split; [exact Hw | reflexivity]]).
  - apply wt_arr in Hw. cbn [add_wit_format_names_recursive].
    destruct (mapM_good (add_wit_format_names_recursive package_name root_namespace ctx) l)
      as (l' & -> & Wl' & _); [|exact Hw|].
    + eapply Forall_impl; [|exact IH]. intros a Ha. apply Ha.
    + simpl. exists (JArr l'). split; [reflexivity|]. split; [now apply wt_arr|reflexivity].
  - apply wt_obj in Hw. cbn [add_wit_format_names_recursive].
    destruct (wit_node_good package_name root_namespace ctx d Hw) as (ac & -> & Hac).
    simpl bind.
    destruct (assign_then_walk_good
                (add_wit_format_names_recursive package_name root_namespace (snd ac))
                (fst ac) d) as (d' & -> & Wd'); [|exact Hw|exact Hac|].
    + eapply Forall_impl; [|exact IH]. intros a Ha. apply Ha.
    + simpl. exists (JObj d'). split; [reflexivity|]. split; [now apply wt_obj|reflexivity].
Qed.

Lemma function_checksum_fields_good (d : dict) :
  Forall wt_field d ->
  exists fields, function_checksum_fields d = Ok fields /\ Forall wt_field fields.
Proof.
  intros Hd. unfold function_checksum_fields.
  destruct (kind_is "CXXMethodDecl" d); [|eexists; split; [reflexivity|constructor]].
  destruct (checksum_parameters_good d Hd) as (ps & ->). simpl. unfold get_default.
  destruct (wt_get_str "name" d Hd (fun _ => eq_refl)) as [-> | [s ->]];
    eexists; (split; [reflexivity|]); scalar_fields.
Qed.

(** A pass made of assignments computed from the node and of the visit of
    its values is good as soon as the assignments are. *)
Lemma node_pass_total (fields_of : dict -> result dict) (pass : json -> result json) :
  (forall d, pass (JObj d)
             = (fields <- fields_of d ;;
                d' <- assign_then_walk pass fields d ;; Ok (JObj d'))) ->
  (forall l, pass (JArr l) = (l' <- mapM pass l ;; Ok (JArr l'))) ->
  (forall j, is_scalar j = true -> pass j = Ok j) ->
  (forall d, Forall wt_field d ->
     exists fields, fields_of d = Ok fields /\ Forall wt_field fields) ->
  forall j, good pass j.
Proof.
  intros Hobj Harr Hsc Hf.
  induction j as [ | b | n | s | l IH | d IH ] using json_ind'; intros Hw;
    try (eexists; split; [now apply Hsc | split; [exact Hw | reflexivity]]).
  - apply wt_arr in Hw. rewrite Harr.
    destruct (mapM_good pass l IH Hw) as (l' & -> & Wl' & _). simpl.
    exists (JArr l'). split; [reflexivity|]. split; [now apply wt_arr|reflexivity].
  - apply wt_obj in Hw. rewrite Hobj.
    destruct (Hf d Hw) as (fields & -> & Wf). simpl.
    destruct (assign_then_walk_good pass fields d IH Hw Wf) as (d' & -> & Wd').
    simpl. exists (JObj d'). split; [reflexivity|].
    split; [now apply wt_obj|reflexivity].
Qed.

(** *** Signature extractor *)

Lemma return_type_fields_good (d : dict) :
  Forall wt_field d ->
  exists fields, return_type_fields d = Ok fields /\ Forall wt_field fields.
Proof.
  intros Hd. unfold return_type_fields, get_default.
  destruct (get "type" d) as [ty|] eqn:Hty.
  - destruct (wt_get _ _ _ Hd Hty) as [_ Hw].
    destruct ty; try (eexists; split; [reflexivity|constructor]).
    apply wt_obj in Hw.
    destruct (wt_get_str "qualType" fields Hw (fun _ => eq_refl)) as [-> | [q ->]].
    + eexists; split; [reflexivity|constructor].
    + destruct (truthy (JStr q)); [|eexists; split; [reflexivity|constructor]].
      destruct (PyStr.find "(" q) as [i|]; [|eexists; split; [reflexivity|constructor]].
      destruct (0 <? i)%nat; eexists; (split; [reflexivity|]); scalar_fields.
  - simpl. eexists; split; [reflexivity|constructor].
Qed.

Lemma parameter_descriptor_good (c : dict) :
  Forall wt_field c ->
  exists ps, parameter_descriptor c = Ok ps /\ Forall wt ps.
Proof.
  intros Hc. unfold parameter_descriptor, get_default.
  destruct (get "type" c) as [ty|] eqn:Hty.
  - destruct (wt_get _ _ _ Hc Hty) as [_ Hw].
    destruct ty; try (eexists; split; [reflexivity|constructor]).
    apply wt_obj in Hw.
    destruct (wt_get_str "name" c Hc (fun _ => eq_refl)) as [-> | [n ->]];
      destruct (wt_get_str "qualType" fields Hw (fun _ => eq_refl)) as [-> | [q ->]];
      destruct (wt_get_str "desugaredQualType" fields Hw (fun _ => eq_refl))
        as [-> | [ds ->]];
      simpl; eexists; (split; [reflexivity|]); repeat constructor.
  - simpl.
    destruct (wt_get_str "name" c Hc (fun _ => eq_refl)) as [-> | [n ->]];
      simpl; eexists; (split; [reflexivity|]); repeat constructor.
Qed.

Lemma parameter_descriptors_good (l : list dict) :
  Forall (Forall wt_field) l ->
  exists pss, mapM parameter_descriptor l = Ok pss /\ Forall wt (List.concat pss).
Proof.
  induction 1 as [|c l Hc _ IH]; simpl.
  - exists []. split; [reflexivity|constructor].
  - destruct (parameter_descriptor_good c Hc) as (ps & -> & Wps).
    destruct IH as (pss & -> & Wpss). simpl.
    exists (ps :: pss). split; [reflexivity|]. simpl. apply Forall_app. now split.
Qed.

Lemma signature_fields_good (d : dict) :
  Forall wt_field d ->
  exists fields, signature_fields d = Ok fields /\ Forall wt_field fields.
Proof.
  intros Hd. unfold signature_fields.
  destruct (kind_is "CXXMethodDecl" d); [|eexists; split; [reflexivity|constructor]].
  destruct (return_type_fields_good d Hd) as (rf & -> & Wrf). simpl.
  destruct (parameter_descriptors_good _ (wt_parm_var_decls _ (wt_inner_list d Hd)))
    as (pss & -> & Wpss). simpl.
  eexists. split; [reflexivity|]. apply Forall_app. split; [exact Wrf|].
  constructor; [|constructor]. split; [reflexivity|]. now apply wt_arr.
Qed.

Lemma extract_pass_good (j : json) : good extract_method_signature_details j.
Proof.
  apply (node_pass_total signature_fields); try reflexivity.
  - intros [] H; try reflexivity; discriminate H.
  - exact signature_fields_good.
Qed.

Lemma function_checksum_pass_good (j : json) : good add_function_checksums_recursive j.
Proof.
  apply (node_pass_total function_checksum_fields); try reflexivity.
  - intros [] H; try reflexivity; discriminate H.
  - exact function_checksum_fields_good.
Qed.

(** *** Interface fingerprints *)

Lemma method_checksums_ints (l : list json) :
  Forall wt l -> exists cs, mapM as_int (method_checksums l) = Ok cs.
Proof.
  induction 1 as [|x l Hx _ IH]; simpl; [eauto|].
  destruct x; auto. destruct (kind_is "CXXMethodDecl" fields); auto.
  unfold get_or_none, get_default.
  destruct (get "function_checksum" fields) as [v|] eqn:Hg; [|exact IH].
  apply wt_obj in Hx. destruct (wt_get _ _ _ Hx Hg) as [Hf _].
  destruct v; try discriminate Hf.
  destruct (truthy (JNum n)); [|exact IH].
  destruct IH as (cs & Hcs). simpl. rewrite Hcs. simpl. eauto.
Qed.

Lemma interface_checksum_fields_good (d : dict) :
  Forall wt_field d ->
  exists fields, interface_checksum_fields d = Ok fields /\ Forall wt_field fields.
Proof.
  intros Hd. unfold interface_checksum_fields.
  destruct (kind_is "CXXRecordDecl" d); [|eexists; split; [reflexivity|constructor]].
  unfold get_or_none, get_default.
  destruct (wt_get_str "name" d Hd (fun _ => eq_refl)) as [-> | [s ->]].
  - eexists; split; [reflexivity|constructor].
  - destruct (truthy (JStr s)); [|eexists; split; [reflexivity|constructor]].
    destruct (method_checksums_ints _ (wt_inner_list d Hd)) as (cs & ->). simpl.
    eexists. split; [reflexivity|]. scalar_fields.
Qed.

Lemma interface_pass_good (j : json) : good add_interface_checksums_recursive j.
Proof.
  apply (node_pass_total interface_checksum_fields); try reflexivity.
  - intros [] H; try reflexivity; discriminate H.
  - exact interface_checksum_fields_good.
Qed.

(** *** Induction with the grandchildren at hand *)

Lemma json_ind_deep (P : json -> Prop) :
  (forall j, Forall (fun x => P x /\ Forall P (children x)) (children j) -> P j) ->
  forall j, P j.
Proof.
  intros H.
  assert (D : forall j, P j /\ Forall P (children j)).
  { induction j as [ | b | n | s | l IH | d IH ] using json_ind';
      try (split; [apply H|]; constructor).
    - split; [apply H; exact IH|].
      simpl. eapply Forall_impl; [|exact IH]. now intros a [Ha _].
    - assert (IH' : Forall (fun x => P x /\ Forall P (children x)) (map snd d)).
      { apply Forall_map. exact IH. }
      split; [apply H; exact IH'|].
      simpl. eapply Forall_impl; [|exact IH']. now intros a [Ha _]. }
  intros j. apply D.
Qed.

(** *** Annotation resolver *)

Section AnnotationsGood.
Variable normpath : string -> string.
Variable source_file : string.
Variable source_lines : option (list string).

Lemma wt_get_obj (k : string) (d : dict) :
  Forall wt_field d -> (forall v, field_ok k v = is_obj v) ->
  exists r, get_default k (JObj []) d = JObj r /\ Forall wt_field r.
Proof.
  intros Hd Hk. unfold get_default.
  destruct (get k d) as [v|] eqn:Hg; [|exists []; split; [reflexivity|constructor]].
  destruct (wt_get _ _ _ Hd Hg) as [Hf Hw]. rewrite Hk in Hf.
  destruct v; try discriminate Hf. exists fields. split; [reflexivity|].
  now apply wt_obj.
Qed.

Lemma annotation_at_good (loc : dict) :
  Forall wt_field loc ->
  exists o,
    (if truthy (get_or_none "line" loc) && truthy (get_or_none "col" loc)
        && truthy (get_or_none "file" loc)
     then
       match get_or_none "file" loc with
       | JStr fp =>
           if String.eqb (normpath fp) (normpath source_file) then
             match extract_annotation_text source_lines
                     (get_or_none "line" loc) (get_or_none "col" loc) with
             | Some annotation_text =>
                 if truthy (JStr annotation_text)
                 then Ok (Some annotation_text) else Ok None
             | None => Ok None
             end
           else Ok None
       | _ => Raise TypeError
       end
     else Ok None) = Ok o.
Proof.
  intros Hl.
  assert (Hf : get_or_none "file" loc = JNull
               \/ exists fp, get_or_none "file" loc = JStr fp).
  { unfold get_or_none, get_default.
    destruct (wt_get_str "file" loc Hl (fun _ => eq_refl)) as [-> | [fp ->]]; eauto. }
  destruct Hf as [-> | [fp ->]].
  - simpl. rewrite !andb_false_r. eauto.
  - destruct (truthy (get_or_none "line" loc) && truthy (get_or_none "col" loc)
              && truthy (JStr fp)); [|eauto].
    destruct (String.eqb (normpath fp) (normpath source_file)); [|eauto].
    destruct (extract_annotation_text source_lines _ _) as [t|]; [|eauto].
    destruct (truthy (JStr t)); eauto.
Qed.

Lemma annotation_of_good (d : dict) :
  Forall wt_field d ->
  exists o, annotation_of normpath source_file source_lines d = Ok o.
Proof.
  intros Hd. unfold annotation_of. cbv zeta.
  destruct (kind_is "AnnotateAttr" d); [|eauto].
  destruct (wt_get_obj "range" d Hd (fun _ => eq_refl)) as (r & -> & Hr). simpl.
  destruct (wt_get_obj "begin" r Hr (fun _ => eq_refl)) as (b & -> & Hb). simpl.
  destruct (wt_get_obj "expansionLoc" b Hb (fun _ => eq_refl)) as (e & -> & He).
  destruct (truthy (JObj e)); simpl bind; now apply annotation_at_good.
Qed.

Lemma walk_inner_good (visit : json -> result json) (d : dict) :
  Forall (fun v => Forall (good visit) (children v)) (map snd d) ->
  Forall wt_field d ->
  exists d', walk_inner visit d = Ok d' /\ Forall wt_field d'.
Proof.
  induction d as [|[k v] d IH]; simpl; intros Hg Hd.
  - exists []. split; [reflexivity|constructor].
  - inversion Hg as [|? ? Hv Hr]; inversion Hd as [|? ? Wv Wr]; subst.
    destruct (String.eqb_spec k "inner") as [->|Hne].
    + destruct v; try (eexists; split; [reflexivity|exact Hd]).
      destruct Wv as [_ Wv]. simpl in Wv, Hv. apply wt_arr in Wv.
      destruct (mapM_good visit items Hv Wv) as (l' & -> & Wl' & _). simpl.
      eexists. split; [reflexivity|]. constructor; [|exact Wr].
      split; [reflexivity|]. now apply wt_arr.
    + destruct (IH Hr Wr) as (d' & -> & Wd'). simpl.
      eexists. split; [reflexivity|]. now constructor.
Qed.

Lemma annotation_pass_good (j : json) :
  good (add_annotation_strings_recursive normpath source_file source_lines) j.
Proof.
  induction j as [j IH] using json_ind_deep. intros Hw.
  destruct j; try (eexists; split; [reflexivity | split; [exact Hw | reflexivity]]).
  apply wt_obj in Hw. cbn [add_annotation_strings_recursive].
  destruct (annotation_of_good fields Hw) as (o & ->). simpl bind.
  destruct (walk_inner_good
              (add_annotation_strings_recursive normpath source_file source_lines)
              fields) as (d' & -> & Wd'); [|exact Hw|].
  - simpl in IH. eapply Forall_impl; [|exact IH]. now intros a [_ Ha].
  - simpl. eexists. split; [reflexivity|]. split; [|reflexivity].
    apply wt_obj. destruct o; [|exact Wd']. apply dict_set_wt; [|exact Wd'].
    split; reflexivity.
Qed.
End AnnotationsGood.

(** *** Ordering annotator *)

Lemma group_key_good (item : dict) :
  Forall wt_field item -> exists k, group_key item = Ok k.
Proof.
  intros Hi. unfold group_key, get_default.
  destruct (wt_get_str "kind" item Hi (fun _ => eq_refl)) as [-> | [s ->]].
  - simpl. eauto.
  - destruct (eq_str (JStr s) "CXXMethodDecl"); [|simpl; eauto].
    destruct (get "isImplicit" item) as [v|] eqn:Hg; [|simpl; eauto].
    destruct (wt_get _ _ _ Hi Hg) as [Hf _].
    destruct v; try discriminate Hf. destruct b; simpl; eauto.
Qed.

Lemma build_groups_good (value : list json) :
  Forall wt value -> forall i groups, exists g, build_groups i value groups = Ok g.
Proof.
  induction 1 as [|x l Hx _ IH]; intros i groups; simpl; [eauto|].
  destruct x; auto. apply wt_obj in Hx.
  destruct (group_key_good fields Hx) as (k & ->). simpl. apply IH.
Qed.

Lemma group_marks_keys (groups : kind_groups_t) :
  Forall flag_key (flat_map group_marks groups).
Proof.
  induction groups as [|[k ix] g IH]; simpl; [constructor|].
  apply Forall_app. split; [|exact IH].
  unfold group_marks. simpl. destruct ix as [|f ix]; [constructor|].
  constructor; [now left|]. constructor; [now right|constructor].
Qed.

Lemma item_assignments_wt (marks : list (nat * string)) (i : nat) (item : dict) :
  Forall flag_key marks -> Forall wt_field (item_assignments marks i item).
Proof.
  intros Hm. unfold item_assignments. cbv zeta.
  repeat (apply Forall_app; split).
  - apply Forall_map. apply Forall_forall. intros m Hin.
    apply filter_In in Hin as [Hin _]. rewrite Forall_forall in Hm.
    destruct (Hm m Hin) as [-> | ->]; split; reflexivity.
  - match goal with |- context [if ?c then _ else _] => destruct c end;
      repeat constructor.
  - match goal with |- context [if ?c then _ else _] => destruct c end;
      repeat constructor.
Qed.

Lemma flag_items_good (marks : list (nat * string)) (value : list json) :
  Forall flag_key marks ->
  Forall (fun x => flags_good x /\ Forall flags_good (children x)) value ->
  Forall wt value ->
  forall i, exists value',
    mapM_indexed
      (fun i item =>
         match item with
         | JObj fields =>
             fields' <- assign_then_walk (add_last_flags true)
                          (item_assignments marks i fields) fields ;;
             Ok (JObj fields')
         | _ => add_last_flags false item
         end) i value = Ok value'
    /\ Forall wt value' /\ List.length value' = List.length value.
Proof.
  intros Hm Hg Hw. induction value as [|x l IH]; intros i; simpl.
  - exists []. repeat split; constructor.
  - inversion Hg as [|? ? [Hx Hcx] Hl]; inversion Hw as [|? ? Wx Wl]; subst.
    assert (Hhead : exists x',
      match x with
      | JObj fields =>
          fields' <- assign_then_walk (add_last_flags true)
                       (item_assignments marks i fields) fields ;;
          Ok (JObj fields')
      | _ => add_last_flags false x
      end = Ok x' /\ wt x').
    { destruct x;
        try (destruct (Hx false Wx) as (x' & Hx' & Wx' & _); now exists x').
      apply wt_obj in Wx.
      destruct (assign_then_walk_good (add_last_flags true)
                  (item_assignments marks i fields) fields) as (d' & -> & Wd');
        [| exact Wx | now apply item_assignments_wt |].
      - simpl in Hcx. apply -> Forall_map in Hcx.
        eapply Forall_impl; [|exact Hcx]. intros a Ha. apply Ha.
      - simpl. eexists. split; [reflexivity|]. now apply wt_obj. }
    destruct Hhead as (x' & -> & Wx').
    destruct (IH Hl Wl (S i)) as (l' & -> & Wl' & Hlen). simpl.
    exists (x' :: l'). repeat split; [now constructor | simpl; congruence].
Qed.

Lemma flags_pass_good (j : json) : flags_good j.
Proof.
  induction j as [j IH] using json_ind_deep. intros b Hw.
  destruct j; try (eexists; split; [reflexivity | split; [exact Hw | reflexivity]]).
  - apply wt_arr in Hw. cbn [add_last_flags]. simpl in IH.
    destruct (b && negb (is_empty items)).
    + destruct (build_groups_good items Hw O []) as (g & ->). simpl bind.
      destruct (flag_items_good (flat_map group_marks g) items
                  (group_marks_keys g) IH Hw O) as (v' & -> & Wv' & _).
      simpl. eexists. split; [reflexivity|]. split; [now apply wt_arr|reflexivity].
    + destruct (mapM_good (add_last_flags false) items) as (l' & -> & Wl' & _);
        [|exact Hw|].
      * eapply Forall_impl; [|exact IH]. intros a [Ha _]. apply Ha.
      * simpl. eexists. split; [reflexivity|]. split; [now apply wt_arr|reflexivity].
  - apply wt_obj in Hw. cbn [add_last_flags]. simpl in IH.
    destruct (walk_fields_good (add_last_flags true) [] fields) as (d' & -> & Wd');
      [|exact Hw|constructor|].
    + apply -> Forall_map in IH. eapply Forall_impl; [|exact IH].
      intros a [Ha _]. apply Ha.
    + simpl. eexists. split; [reflexivity|]. split; [now apply wt_obj|reflexivity].
Qed.

(** *** Tree merge *)

Lemma dict_set_twice (k : string) (v w : json) (d : dict) :
  dict_set k w (dict_set k v d) = dict_set k w d.
Proof.
  induction d as [|[k' v'] d IH]; simpl.
  - now rewrite String.eqb_refl.
  - destruct (String.eqb_spec k k') as [->|Hne]; simpl.
    + now rewrite String.eqb_refl.
    + destruct (String.eqb_spec k k'); [contradiction|]. now rewrite IH.
Qed.

Lemma dict_set_same_value (k : string) (v : json) (d : dict) :
  get k d = Some v -> dict_set k v d = d.
Proof.
  induction d as [|[k' v'] d IH]; simpl; [discriminate|].
  destruct (String.eqb_spec k k') as [->|Hne].
  - now intros [= ->].
  - intros H. now rewrite IH.
Qed.

Lemma extend_inner_object (l : list json) (d o : dict) :
  extend_inner (JObj (dict_set "inner" (JArr l) d)) (JObj o)
  = Ok (JObj (dict_set "inner" (JArr (l ++ inner_list o)) d)).
Proof.
  unfold extend_inner, contains_inner, has_key, inner_list. simpl bind.
  destruct (get "inner" o) as [v|]; [|now rewrite app_nil_r].
  destruct v; try now rewrite app_nil_r.
  now rewrite get_dict_set_same, dict_set_twice.
Qed.

Lemma extend_all_objects (ds : list dict) : forall (l : list json) (d : dict),
  extend_all (JObj (dict_set "inner" (JArr l) d)) (map JObj ds)
  = Ok (JObj (dict_set "inner" (JArr (l ++ flat_map inner_list ds)) d)).
Proof.
  induction ds as [|o ds IH]; intros l d; simpl.
  - now rewrite app_nil_r.
  - rewrite extend_inner_object. simpl. rewrite IH. now rewrite app_assoc.
Qed.

Lemma ensure_inner_object (d : dict) :
  inner_is_list d = true ->
  ensure_inner (JObj d) = Ok (JObj (dict_set "inner" (JArr (inner_list d)) d)).
Proof.
  unfold inner_is_list, ensure_inner, contains_inner, has_key, inner_list. simpl bind.
  destruct (get "inner" d) as [v|] eqn:Hg; [|reflexivity].
  destruct v; try discriminate. intros _. now rewrite (dict_set_same_value _ _ _ Hg).
Qed.

Lemma merge_objects (d : dict) (ds : list dict) :
  inner_is_list d = true ->
  merge_json_objects (JObj d :: map JObj ds)
  = Ok (match ds with
        | [] => JObj d
        | _ => JObj (dict_set "inner"
                       (JArr (inner_list d ++ flat_map inner_list ds)) d)
        end).
Proof.
  intros Hd. unfold merge_json_objects.
  destruct ds as [|o ds]; [reflexivity|].
  change (1 <? List.length (JObj d :: map JObj (o :: ds)))%nat with true.
  cbv iota. rewrite (ensure_inner_object d Hd).
  exact (extend_all_objects (o :: ds) (inner_list d) d).
Qed.





(** *** The stage on well-typed trees *)


(** ** No pass raises a [ValueError] *)






















(** ** Reading a field after a pass *)

Lemma get_app (k : string) (a b : dict) :
  get k (a ++ b)%list = match get k a with Some v => Some v | None => get k b end.
Proof.
  induction a as [|[k' v'] a IH]; simpl; [reflexivity|].
  destruct (String.eqb k k'); [reflexivity|exact IH].
Qed.

Lemma get_dict_set (k k' : string) (v : json) (d : dict) :
  get k (dict_set k' v d) = if String.eqb k k' then Some v else get k d.
Proof.
  destruct (String.eqb_spec k k') as [->|Hne].
  - apply get_dict_set_same.
  - now apply get_dict_set_other.
Qed.

(** After a run of assignments a key holds the value assigned to it last. *)
Lemma get_assign_all (k : string) (assignments : dict) : forall d,
  get k (assign_all assignments d)
  = match get k (rev assignments) with Some v => Some v | None => get k d end.
Proof.
  unfold assign_all.
  induction assignments as [|[k' v'] l IH]; intros d; simpl; [reflexivity|].
  rewrite IH, get_app, get_dict_set. simpl.
  destruct (get k (rev l)); [reflexivity|].
  destruct (String.eqb k k'); reflexivity.
Qed.

Lemma get_last_assignment (k : string) (v : json) (front d : dict) :
  get k (assign_all (front ++ [(k, v)])%list d) = Some v.
Proof.
  rewrite get_assign_all, rev_app_distr. simpl. now rewrite String.eqb_refl.
Qed.

Lemma get_filter_key (q : string -> bool) (k : string) (d : dict) :
  get k (filter (fun kv => q (fst kv)) d) = if q k then get k d else None.
Proof.
  induction d as [|[k' v'] d IH]; simpl; [now destruct (q k)|].
  destruct (String.eqb_spec k k') as [->|Hne].
  - destruct (q k') eqn:Hq; simpl; [now rewrite String.eqb_refl|].
    exact IH.
  - destruct (q k'); simpl; [|exact IH].
    destruct (String.eqb_spec k k'); [contradiction|exact IH].
Qed.

Lemma walk_fields_get (visit : json -> result json) (assigned : dict) (k : string) :
  forall d d', walk_fields visit assigned d = Ok d' ->
  match get k d with
  | None => get k d' = None
  | Some v =>
      match get k assigned with
      | Some a => get k d' = Some a
      | None => exists v', visit v = Ok v' /\ get k d' = Some v'
      end
  end.
Proof.
  induction d as [|[k' v'] d IH]; simpl; intros d' H.
  - now injection H as <-.
  - destruct (match get k' assigned with Some a => Ok a | None => visit v' end)
      as [w| |] eqn:Hw; try discriminate H. simpl in H.
    destruct (walk_fields visit assigned d) as [r| |] eqn:Hr; try discriminate H.
    simpl in H. injection H as <-. simpl.
    destruct (String.eqb_spec k k') as [->|Hne]; [|now apply IH].
    destruct (get k' assigned) as [a|]; [now injection Hw as ->|eauto].
Qed.

Lemma assign_then_walk_get (visit : json -> result json) (fields d d' : dict)
  (k : string) (a : json) :
  assign_then_walk visit fields d = Ok d' ->
  get k (assign_all fields []) = Some a ->
  get k d' = Some a.
Proof.
  unfold assign_then_walk. intros H Ha.
  destruct (walk_fields visit (assign_all fields []) d) as [w| |] eqn:Hw;
    try discriminate H.
  simpl in H. injection H as <-. rewrite get_app.
  pose proof (walk_fields_get visit _ k d w Hw) as G. rewrite Ha in G.
  destruct (get k d) as [v|] eqn:Hd.
  - now rewrite G.
  - rewrite G. rewrite (get_filter_key (fun k => negb (has_key k d))).
    unfold has_key. now rewrite Hd.
Qed.

Lemma assign_then_walk_keep (visit : json -> result json) (fields d d' : dict)
  (k : string) :
  assign_then_walk visit fields d = Ok d' ->
  get k (assign_all fields []) = None ->
  match get k d with
  | None => get k d' = None
  | Some v => exists v', visit v = Ok v' /\ get k d' = Some v'
  end.
Proof.
  unfold assign_then_walk. intros H Ha.
  destruct (walk_fields visit (assign_all fields []) d) as [w| |] eqn:Hw;
    try discriminate H.
  simpl in H. injection H as <-. rewrite get_app.
  pose proof (walk_fields_get visit _ k d w Hw) as G. rewrite Ha in G.
  destruct (get k d) as [v|] eqn:Hd.
  - destruct G as (v' & Hv & ->). eauto.
  - rewrite G. rewrite (get_filter_key (fun k => negb (has_key k d))).
    unfold has_key. now rewrite Hd.
Qed.

(** ** The decoding loop *)

Section Decoding.
Variable raw_decode : string -> nat -> option (json * nat).

Lemma drop_zero (s : string) : PyStr.drop 0 s = s.
Proof. now destruct s. Qed.


Lemma skip_whitespace_le (rest : string) : forall idx,
  (idx <= skip_whitespace rest idx)%nat.
Proof.
  induction rest as [|c r IH]; intros idx; simpl; [lia|].
  destruct (PyStr.isspace c); [|lia]. specialize (IH (S idx)). lia.
Qed.

(** Every decoded value takes at least one character, so the fuel of
    [decode_objects] is enough: more fuel decodes the same objects. *)
Lemma decode_loop_fuel (content : string) :
  (forall idx obj e, raw_decode content idx = Some (obj, e) -> (0 < e)%nat) ->
  forall n m idx,
    (String.length content - idx < n)%nat ->
    (String.length content - idx < m)%nat ->
    decode_loop raw_decode n content idx = decode_loop raw_decode m content idx.
Proof.
  intros Hpos. induction n as [|n IH]; intros m idx Hn Hm; [lia|].
  destruct m as [|m]; [lia|]. cbn [decode_loop].
  destruct (Nat.ltb_spec idx (String.length content)) as [Hlt|Hge]; [|reflexivity].
  pose proof (skip_whitespace_le (PyStr.drop idx content) idx) as Hle.
  set (i := skip_whitespace (PyStr.drop idx content) idx) in *.
  destruct (Nat.leb_spec (String.length content) i) as [|Hgt]; [reflexivity|].
  destruct (raw_decode content i) as [[obj e]|] eqn:Hd; [|reflexivity].
  apply Hpos in Hd. f_equal. apply IH; lia.
Qed.
End Decoding.

(** ** The visit after the assignments

    [assign_then_walk] visits the node's own values and keeps the assigned
    ones.  On a dictionary, whose keys are distinct, this is
    [for value in node.values(): visit(value)] run after the assignments,
    as soon as the visit leaves the assigned values as they are. *)

Lemma has_key_in (k : string) (d : dict) : has_key k d = true <-> In k (map fst d).
Proof.
  unfold has_key. induction d as [|[k' v] d IH]; simpl; [split; [discriminate|tauto]|].
  destruct (String.eqb_spec k k') as [->|Hne].
  - split; auto.
  - rewrite IH. split; [auto|]. intros [H|H]; [congruence|exact H].
Qed.

Lemma dict_set_absent (k : string) (v : json) (d : dict) :
  has_key k d = false -> dict_set k v d = (d ++ [(k, v)])%list.
Proof.
  unfold has_key. induction d as [|[k' v'] d IH]; simpl; [reflexivity|].
  destruct (String.eqb k k'); [discriminate|]. intros H. now rewrite IH.
Qed.

Lemma dict_set_app_present (k : string) (v : json) (a b : dict) :
  has_key k a = true -> dict_set k v (a ++ b)%list = (dict_set k v a ++ b)%list.
Proof.
  unfold has_key. induction a as [|[k' v'] a IH]; simpl; [discriminate|].
  destruct (String.eqb k k'); [reflexivity|]. intros H. now rewrite IH.
Qed.

Lemma dict_set_app_absent (k : string) (v : json) (a b : dict) :
  has_key k a = false -> dict_set k v (a ++ b)%list = (a ++ dict_set k v b)%list.
Proof.
  unfold has_key. induction a as [|[k' v'] a IH]; simpl; [reflexivity|].
  destruct (String.eqb k k'); [discriminate|]. intros H. now rewrite IH.
Qed.

Lemma has_key_map_fst (f : string * json -> json) (k : string) (d : dict) :
  has_key k (map (fun kv => (fst kv, f kv)) d) = has_key k d.
Proof.
  unfold has_key. induction d as [|[k' v'] d IH]; simpl; [reflexivity|].
  destruct (String.eqb k k'); [reflexivity|exact IH].
Qed.

Lemma has_key_dict_set (k k' : string) (v : json) (d : dict) :
  has_key k (dict_set k' v d) = String.eqb k k' || has_key k d.
Proof.
  unfold has_key. rewrite get_dict_set.
  destruct (String.eqb k k'); [reflexivity|]. reflexivity.
Qed.

Lemma filter_dict_set (q : string -> bool) (k : string) (v : json) (d : dict) :
  filter (fun kv => q (fst kv)) (dict_set k v d)
  = if q k then dict_set k v (filter (fun kv => q (fst kv)) d)
    else filter (fun kv => q (fst kv)) d.
Proof.
  induction d as [|[k' v'] d IH]; simpl.
  - now destruct (q k).
  - destruct (String.eqb_spec k k') as [->|Hne]; simpl.
    + destruct (q k'); simpl; [now rewrite String.eqb_refl|reflexivity].
    + rewrite IH. destruct (q k'), (q k); simpl; try reflexivity.
      destruct (String.eqb_spec k k'); [contradiction|reflexivity].
Qed.

Lemma map_overlay_set (k : string) (v : json) (assigned d : dict) :
  NoDup (map fst d) ->
  map (fun kv => (fst kv, match get (fst kv) (dict_set k v assigned) with
                          | Some a => a
                          | None => snd kv
                          end)) d
  = if has_key k d
    then dict_set k v
           (map (fun kv => (fst kv, match get (fst kv) assigned with
                                    | Some a => a
                                    | None => snd kv
                                    end)) d)
    else map (fun kv => (fst kv, match get (fst kv) assigned with
                                 | Some a => a
                                 | None => snd kv
                                 end)) d.
Proof.
  unfold has_key. induction d as [|[k' v'] d IH]; simpl; intros Hnd; [reflexivity|].
  inversion Hnd as [|? ? Hnin Hnd']; subst. rewrite get_dict_set.
  destruct (String.eqb_spec k k') as [->|Hne].
  - rewrite String.eqb_refl. simpl. rewrite ?String.eqb_refl. f_equal.
    assert (Hk : has_key k' d = false).
    { destruct (has_key k' d) eqn:E; [|reflexivity].
      apply has_key_in in E. contradiction. }
    rewrite (IH Hnd'). unfold has_key in Hk.
    destruct (get k' d); [discriminate|reflexivity].
  - destruct (String.eqb_spec k' k); [congruence|].
    rewrite (IH Hnd'). destruct (get k d); simpl.
    + destruct (String.eqb_spec k k'); [contradiction|reflexivity].
    + reflexivity.
Qed.

Lemma assign_all_overlay (fields d : dict) :
  NoDup (map fst d) ->
  assign_all fields d = overlay (assign_all fields []) d.
Proof.
  intros Hnd. unfold assign_all.
  induction fields as [|[k v] fields IH] using rev_ind.
  - unfold overlay. simpl. rewrite app_nil_r.
    induction d as [|[k' v'] d IHd]; simpl; [reflexivity|].
    inversion Hnd; subst. now rewrite <- IHd.
  - rewrite !fold_left_app. simpl. rewrite IH. unfold overlay.
    set (A := fold_left (fun acc kv => dict_set (fst kv) (snd kv) acc) fields []).
    rewrite (map_overlay_set k v A d Hnd).
    rewrite (filter_dict_set (fun k => negb (has_key k d))).
    destruct (has_key k d) eqn:E; simpl.
    + apply dict_set_app_present. now rewrite has_key_map_fst.
    + apply dict_set_app_absent. now rewrite has_key_map_fst.
Qed.

Lemma walk_fields_app (visit : json -> result json) (a b : dict) :
  walk_fields visit [] (a ++ b)%list
  = (a' <- walk_fields visit [] a ;; b' <- walk_fields visit [] b ;;
     Ok (a' ++ b')%list).
Proof.
  induction a as [|[k v] a IH]; simpl.
  - destruct (walk_fields visit [] b); reflexivity.
  - destruct (visit v) as [v'| |]; simpl; try reflexivity.
    rewrite IH. destruct (walk_fields visit [] a) as [a'| |]; simpl; try reflexivity.
    destruct (walk_fields visit [] b); reflexivity.
Qed.

Lemma walk_fields_fixed (visit : json -> result json) (d : dict) :
  Forall (fun kv => visit (snd kv) = Ok (snd kv)) d ->
  walk_fields visit [] d = Ok d.
Proof.
  induction 1 as [|[k v] d Hv _ IH]; simpl; [reflexivity|].
  simpl in Hv. now rewrite Hv, IH.
Qed.

Lemma walk_fields_overlay (visit : json -> result json) (assigned d : dict) :
  Forall (fun kv => visit (snd kv) = Ok (snd kv)) assigned ->
  walk_fields visit []
    (map (fun kv => (fst kv, match get (fst kv) assigned with
                             | Some a => a
                             | None => snd kv
                             end)) d)
  = walk_fields visit assigned d.
Proof.
  intros Hfix. induction d as [|[k v] d IH]; simpl; [reflexivity|].
  rewrite IH. destruct (get k assigned) as [a|] eqn:Hg; [|reflexivity].
  apply get_In in Hg. rewrite Forall_forall in Hfix.
  pose proof (Hfix _ Hg) as Ha. simpl in Ha. now rewrite Ha.
Qed.

(** The structural visit is the visit of all the values of the node after
    the assignments. *)
Theorem assign_then_walk_is_visit_after_assign (visit : json -> result json)
  (fields d : dict) :
  NoDup (map fst d) ->
  Forall (fun kv => visit (snd kv) = Ok (snd kv)) (assign_all fields []) ->
  assign_then_walk visit fields d = walk_fields visit [] (assign_all fields d).
Proof.
  intros Hnd Hfix. unfold assign_then_walk.
  rewrite (assign_all_overlay fields d Hnd). unfold overlay.
  rewrite walk_fields_app, (walk_fields_overlay visit _ d Hfix).
  destruct (walk_fields visit (assign_all fields []) d) as [d'| |]; simpl;
    try reflexivity.
  rewrite walk_fields_fixed; [reflexivity|].
  apply Forall_forall. intros kv Hin. apply filter_In in Hin as [Hin _].
  rewrite Forall_forall in Hfix. auto.
Qed.

(** *** The assigned values are left as they are *)

Lemma dict_set_values (P : json -> Prop) (k : string) (v : json) (d : dict) :
  P v -> Forall (fun kv => P (snd kv)) d -> Forall (fun kv => P (snd kv)) (dict_set k v d).
Proof.
  intros Hv. induction d as [|[k' v'] d IH]; simpl; intros Hd.
  - now constructor.
  - inversion Hd; subst. destruct (String.eqb k k'); constructor; auto.
Qed.

Lemma assign_all_values (P : json -> Prop) (fields d : dict) :
  Forall (fun kv => P (snd kv)) fields -> Forall (fun kv => P (snd kv)) d ->
  Forall (fun kv => P (snd kv)) (assign_all fields d).
Proof.
  unfold assign_all. revert d.
  induction fields as [|[k v] fields IH]; simpl; intros d Hf Hd; [exact Hd|].
  inversion Hf; subst. apply IH; [assumption|]. now apply dict_set_values.
Qed.

Ltac scalar_values :=
  repeat first
    [ apply Forall_nil
    | apply Forall_cons; [reflexivity|]
    | apply Forall_app; split ].

Lemma fullname_field_scalar (k : string) (parent : option string) (sep name : string) :
  Forall (fun kv => is_scalar (snd kv) = true) (fullname_field k parent sep name).
Proof. unfold fullname_field. destruct (if_str parent); scalar_values. Qed.

Lemma wit_node_scalars (package_name root_namespace : option string)
  (ctx : wit_context) (d : dict) (ac : dict * wit_context) :
  wit_node package_name root_namespace ctx d = Ok ac ->
  Forall (fun kv => is_scalar (snd kv) = true) (fst ac).
Proof.
  unfold wit_node. cbv zeta. set (ctx0 := push_namespace d ctx). clearbody ctx0.
  assert (H1 : forall rc,
    (if kind_is "CXXRecordDecl" d
     then match if_str package_name with
          | Some package =>
              name <- classify_name (get_or_none "name" d) ;;
              match name with
              | NameStr interface_name =>
                  Ok (interface_fields package root_namespace interface_name ctx0)
              | NameFalsy => Ok ([], ctx0)
              end
          | None => Ok ([], ctx0)
          end
     else Ok ([], ctx0)) = Ok rc ->
    Forall (fun kv => is_scalar (snd kv) = true) (fst rc)).
  { intros rc. destruct (kind_is "CXXRecordDecl" d); [|intros [= <-]; constructor].
    destruct (if_str package_name); [|intros [= <-]; constructor].
    destruct (classify_name _) as [[nm|]| |]; simpl; try discriminate;
      intros [= <-]; [|constructor].
    unfold interface_fields. cbv zeta. destruct (if_str root_namespace);
      cbn [fst]; scalar_values. }
  match goal with
  | |- bind ?r _ = _ -> _ => destruct r as [[rf ctx1]| |]; try discriminate
  end.
  specialize (H1 _ eq_refl). cbn [fst] in H1. cbn [bind].
  destruct (kind_is "CXXMethodDecl" d); [|intros [= <-]; exact H1].
  destruct (classify_name _) as [[nm|]| |]; simpl; try discriminate;
    [|intros [= <-]; exact H1].
  unfold method_fields. cbv zeta.
  destruct (checksum_parameters d) as [ps| |]; simpl; try discriminate.
  intros [= <-]. cbn [fst]. apply Forall_app. split; [exact H1|].
  destruct (if_str (parent_wit_interface_fullname ctx1));
    destruct (if_str (parent_interface_qualified_name ctx1));
    repeat first
      [ apply Forall_nil
      | apply fullname_field_scalar
      | apply Forall_cons; [reflexivity|]
      | apply Forall_app; split ].
Qed.

Lemma scalar_fixed (pass : json -> result json) (v : json) :
  (forall j, is_scalar j = true -> pass j = Ok j) ->
  is_scalar v = true -> pass v = Ok v.
Proof. auto. Qed.

Lemma wit_scalar (package_name root_namespace : option string) (ctx : wit_context)
  (j : json) :
  is_scalar j = true ->
  add_wit_format_names_recursive package_name root_namespace ctx j = Ok j.
Proof. destruct j; try discriminate; reflexivity. Qed.

(** On a dictionary the walker is the source's sequence: the assignments,
    then the visit of all the values with the context handed down. *)
Theorem wit_pass_is_assign_then_visit (package_name root_namespace : option string)
  (ctx : wit_context) (d : dict) :
  NoDup (map fst d) ->
  add_wit_format_names_recursive package_name root_namespace ctx (JObj d)
  = (ac <- wit_node package_name root_namespace ctx d ;;
     d' <- walk_fields
             (add_wit_format_names_recursive package_name root_namespace (snd ac))
             [] (assign_all (fst ac) d) ;;
     Ok (JObj d')).
Proof.
  intros Hnd. cbn [add_wit_format_names_recursive].
  destruct (wit_node package_name root_namespace ctx d) as [ac| |] eqn:Hn;
    try reflexivity.
  cbn [bind]. rewrite assign_then_walk_is_visit_after_assign; [reflexivity|exact Hnd|].
  apply (assign_all_values
           (fun v => add_wit_format_names_recursive package_name root_namespace
                       (snd ac) v = Ok v)); [|constructor].
  eapply Forall_impl; [|exact (wit_node_scalars _ _ _ _ _ Hn)].
  intros kv Hs. now apply wit_scalar.
Qed.

Lemma extract_scalar (j : json) :
  is_scalar j = true -> extract_method_signature_details j = Ok j.
Proof. destruct j; try discriminate; reflexivity. Qed.

Lemma convert_value_scalar (native_type : json) (target : string) (v : json) :
  convert_value_to_target_language native_type target = Ok v ->
  is_scalar native_type = true /\ is_scalar v = true.
Proof.
  destruct native_type; simpl; try discriminate; intros [= <-]; split; reflexivity.
Qed.

Lemma parameter_descriptor_fixed (child : dict) (ps : list json) :
  parameter_descriptor child = Ok ps ->
  Forall (fun p => extract_method_signature_details p = Ok p) ps.
Proof.
  unfold parameter_descriptor.
  destruct (get_default "type" (JObj []) child); try (intros [= <-]; constructor).
  destruct (convert_value_to_target_language _ "csharp") as [c| |] eqn:Hc;
    simpl; try discriminate.
  destruct (convert_value_to_target_language _ "rust") as [r| |] eqn:Hr;
    simpl; try discriminate.
  destruct (is_scalar (get_default "name" (JStr "") child)) eqn:Hn;
    simpl; try discriminate.
  destruct (is_scalar (get_default "desugaredQualType" (JStr "") fields)) eqn:Hd;
    simpl; try discriminate.
  intros [= <-]. constructor; [|constructor].
  apply convert_value_scalar in Hc as [Hq Hc]. apply convert_value_scalar in Hr as [_ Hr].
  cbn [extract_method_signature_details signature_fields]. unfold signature_fields.
  change (kind_is "CXXMethodDecl" _) with false. cbn [bind].
  unfold assign_then_walk. cbn [assign_all fold_left walk_fields get String.eqb].
  rewrite !extract_scalar by assumption. reflexivity.
Qed.

Lemma mapM_fixed (f : json -> result json) (l : list json) :
  Forall (fun x => f x = Ok x) l -> mapM f l = Ok l.
Proof. induction 1 as [|x l Hx _ IH]; simpl; [reflexivity|]. now rewrite Hx, IH. Qed.

Lemma signature_fields_fixed (d fields : dict) :
  signature_fields d = Ok fields ->
  Forall (fun kv => extract_method_signature_details (snd kv) = Ok (snd kv)) fields.
Proof.
  unfold signature_fields.
  destruct (kind_is "CXXMethodDecl" d); [|intros [= <-]; constructor].
  destruct (return_type_fields d) as [rf| |] eqn:Hrf; simpl; try discriminate.
  destruct (mapM parameter_descriptor _) as [pss| |] eqn:Hp; simpl; try discriminate.
  intros [= <-]. apply Forall_app. split.
  - revert Hrf. unfold return_type_fields.
    repeat match goal with
           | |- context [match ?x with _ => _ end] => destruct x
           end; try discriminate; intros [= <-]; scalar_values.
  - constructor; [|constructor]. simpl. rewrite mapM_fixed; [reflexivity|].
    revert pss Hp. generalize (parm_var_decls (inner_list d)).
    induction l as [|c l IH]; intros pss Hp; simpl in Hp.
    + injection Hp as <-. constructor.
    + destruct (parameter_descriptor c) as [ps| |] eqn:Hc; try discriminate Hp.
      simpl in Hp. destruct (mapM parameter_descriptor l) as [r| |];
        try discriminate Hp.
      simpl in Hp. injection Hp as <-. simpl. apply Forall_app. split.
      * now apply parameter_descriptor_fixed with c.
      * now apply IH.
Qed.

Theorem extract_pass_is_assign_then_visit (d : dict) :
  NoDup (map fst d) ->
  extract_method_signature_details (JObj d)
  = (fields <- signature_fields d ;;
     d' <- walk_fields extract_method_signature_details [] (assign_all fields d) ;;
     Ok (JObj d')).
Proof.
  intros Hnd. cbn [extract_method_signature_details].
  destruct (signature_fields d) as [fields| |] eqn:Hf; try reflexivity.
  cbn [bind]. rewrite assign_then_walk_is_visit_after_assign; [reflexivity|exact Hnd|].
  apply (assign_all_values
           (fun v => extract_method_signature_details v = Ok v)); [|constructor].
  now apply signature_fields_fixed with d.
Qed.

Lemma interface_scalar (j : json) :
  is_scalar j = true -> add_interface_checksums_recursive j = Ok j.
Proof. destruct j; try discriminate; reflexivity. Qed.

Theorem interface_pass_is_assign_then_visit (d : dict) :
  NoDup (map fst d) ->
  add_interface_checksums_recursive (JObj d)
  = (fields <- interface_checksum_fields d ;;
     d' <- walk_fields add_interface_checksums_recursive [] (assign_all fields d) ;;
     Ok (JObj d')).
Proof.
  intros Hnd. cbn [add_interface_checksums_recursive].
  destruct (interface_checksum_fields d) as [fields| |] eqn:Hf; try reflexivity.
  cbn [bind]. rewrite assign_then_walk_is_visit_after_assign; [reflexivity|exact Hnd|].
  apply (assign_all_values
           (fun v => add_interface_checksums_recursive v = Ok v)); [|constructor].
  revert Hf. unfold interface_checksum_fields. cbv zeta.
  destruct (kind_is "CXXRecordDecl" d); [|intros [= <-]; constructor].
  destruct (truthy (get_or_none "name" d)); [|intros [= <-]; constructor].
  destruct (mapM as_int _) as [cs| |]; simpl; try discriminate.
  destruct (py_format _) as [nm| |]; simpl; try discriminate.
  intros [= <-]. scalar_values.
Qed.

Lemma item_assignments_scalars (marks : list (nat * string)) (i : nat) (item : dict) :
  Forall (fun kv => is_scalar (snd kv) = true) (item_assignments marks i item).
Proof.
  unfold item_assignments. cbv zeta. repeat (apply Forall_app; split).
  - apply Forall_map. apply Forall_forall. reflexivity.
  - match goal with |- context [if ?c then _ else _] => destruct c end; scalar_values.
  - match goal with |- context [if ?c then _ else _] => destruct c end; scalar_values.
Qed.

(** An element of a flagged array: the two assignments, then the call
    [add_last_flags_recursive(item)]. *)
Theorem flagged_item_is_assign_then_visit (marks : list (nat * string)) (i : nat)
  (item : dict) :
  NoDup (map fst item) ->
  (fields' <- assign_then_walk (add_last_flags true)
                (item_assignments marks i item) item ;;
   Ok (JObj fields'))
  = add_last_flags_recursive (JObj (assign_all (item_assignments marks i item) item)).
Proof.
  intros Hnd. unfold add_last_flags_recursive. cbn [add_last_flags].
  rewrite assign_then_walk_is_visit_after_assign; [reflexivity|exact Hnd|].
  apply (assign_all_values (fun v => add_last_flags true v = Ok v)); [|constructor].
  eapply Forall_impl; [|apply item_assignments_scalars].
  intros [k v] Hs. simpl in *. destruct v; try discriminate; reflexivity.
Qed.

(** ** Fingerprints are 64-bit values *)

Lemma be_bytes_range (n : nat) (x : Z) :
  Forall (fun b => 0 <= b < 256) (SHA256.be_bytes n x).
Proof.
  induction n as [|n IH]; simpl; constructor; [|exact IH].
  change 255 with (Z.ones 8). rewrite Z.land_ones by lia.
  apply Z.mod_pos_bound. reflexivity.
Qed.

Lemma digest_range (msg : list Z) : Forall (fun b => 0 <= b < 256) (SHA256.digest msg).
Proof.
  unfold SHA256.digest. cbv zeta. apply Forall_flat_map.
  apply Forall_forall. intros x _. apply be_bytes_range.
Qed.

Lemma from_bytes_little_range (bs : list Z) :
  Forall (fun b => 0 <= b < 256) bs ->
  0 <= from_bytes_little bs < 256 ^ Z.of_nat (List.length bs).
Proof.
  induction 1 as [|b bs Hb _ IH]; [simpl; lia|].
  cbn [from_bytes_little List.length]. rewrite Nat2Z.inj_succ, Z.pow_succ_r by lia. lia.
Qed.

Lemma Forall_firstn_prefix {A : Type} (P : A -> Prop) (n : nat) (l : list A) :
  Forall P l -> Forall P (firstn n l).
Proof.
  intros H. revert n. induction H as [|x l Hx _ IH]; intros [|n]; simpl;
    constructor; auto.
Qed.

Lemma hash64_range (s : string) : 0 <= hash64 s < 2 ^ 64.
Proof.
  unfold hash64.
  set (bs := firstn 8 (SHA256.digest (PyStr.encode s))).
  assert (Hr : Forall (fun b => 0 <= b < 256) bs).
  { apply Forall_firstn_prefix, digest_range. }
  assert (Hl : (List.length bs <= 8)%nat) by apply firstn_le_length.
  pose proof (from_bytes_little_range bs Hr) as [H0 H1]. split; [exact H0|].
  eapply Z.lt_le_trans; [exact H1|].
  change (2 ^ 64) with (256 ^ 8). apply Z.pow_le_mono_r; lia.
Qed.

(** ** C1 *)

Lemma kind_is_exclusive (a b : string) (d : dict) :
  kind_is a d = true -> a <> b -> kind_is b d = false.
Proof.
  unfold kind_is, eq_str. destruct (get_or_none "kind" d); try discriminate.
  intros Ha Hne. apply String.eqb_eq in Ha. subst. now apply String.eqb_neq.
Qed.

Lemma classify_name_str (d : dict) (name : string) :
  get "name" d = Some (JStr name) -> name <> "" ->
  classify_name (get_or_none "name" d) = Ok (NameStr name).
Proof.
  intros Hg Hne. unfold get_or_none, get_default, classify_name. rewrite Hg. simpl.
  apply String.eqb_neq in Hne. now rewrite Hne.
Qed.

Lemma wit_node_method (package_name root_namespace : option string)
  (ctx : wit_context) (d : dict) (name : string) (params : list (string * string)) :
  kind_is "CXXMethodDecl" d = true ->
  get "name" d = Some (JStr name) -> name <> "" ->
  checksum_parameters d = Ok params ->
  exists front ctx',
    wit_node package_name root_namespace ctx d
    = Ok ((front ++ [("function_checksum",
                      JNum (calculate_function_checksum name params))])%list, ctx').
Proof.
  intros Hk Hn Hne Hp. unfold wit_node. cbv zeta.
  rewrite (kind_is_exclusive _ "CXXRecordDecl" _ Hk) by discriminate.
  cbn [bind]. rewrite Hk, (classify_name_str d name Hn Hne). cbn [bind].
  unfold method_fields. cbv zeta. rewrite Hp. cbn [bind].
  eexists. eexists. f_equal. f_equal. rewrite !app_assoc. reflexivity.
Qed.

Lemma method_checksum_field (package_name root_namespace : option string)
  (ctx : wit_context) (d : dict) (name : string) (params : list (string * string)) :
  kind_is "CXXMethodDecl" d = true ->
  get "name" d = Some (JStr name) -> name <> "" ->
  checksum_parameters d = Ok params ->
  well_typed (JObj d) = true ->
  exists r,
    add_wit_format_names_recursive package_name root_namespace ctx (JObj d)
    = Ok (JObj r)
    /\ get "function_checksum" r
       = Some (JNum (calculate_function_checksum name params)).
Proof.
  intros Hk Hn Hne Hp Hw.
  destruct (wit_pass_good package_name root_namespace (JObj d) ctx Hw)
    as (j & Hj & _ & Ht).
  destruct j; try discriminate Ht. exists fields. split; [exact Hj|].
  cbn [add_wit_format_names_recursive] in Hj.
  destruct (wit_node_method package_name root_namespace ctx d name params Hk Hn Hne Hp)
    as (front & ctx' & Hnode).
  rewrite Hnode in Hj. cbn [bind fst snd] in Hj.
  match type of Hj with
  | bind ?w _ = _ => destruct w as [d'| |] eqn:Hwalk; try discriminate Hj
  end.
  cbn [bind] in Hj. injection Hj as <-.
  eapply assign_then_walk_get; [exact Hwalk|]. apply get_last_assignment.
Qed.

Lemma standalone_checksum_field (d : dict) (name : string)
  (params : list (string * string)) :
  kind_is "CXXMethodDecl" d = true ->
  get "name" d = Some (JStr name) ->
  checksum_parameters d = Ok params ->
  well_typed (JObj d) = true ->
  exists r,
    add_function_checksums_recursive (JObj d) = Ok (JObj r)
    /\ get "function_checksum" r
       = Some (JNum (calculate_function_checksum name params)).
Proof.
  intros Hk Hn Hp Hw.
  destruct (function_checksum_pass_good (JObj d) Hw) as (j & Hj & _ & Ht).
  destruct j; try discriminate Ht. exists fields. split; [exact Hj|].
  cbn [add_function_checksums_recursive] in Hj.
  unfold function_checksum_fields, get_default in Hj.
  rewrite Hk, Hp, Hn in Hj. cbn [bind] in Hj.
  match type of Hj with
  | bind ?w _ = _ => destruct w as [d'| |] eqn:Hwalk; try discriminate Hj
  end.
  cbn [bind] in Hj. injection Hj as <-.
  eapply assign_then_walk_get; [exact Hwalk|]. reflexivity.
Qed.

(** C1.  Two method declarations with the same name and the same ordered
    (type, name) parameter pairs receive the same [function_checksum], a
    64-bit value computed from the name and the pairs alone, whatever the
    other fields of the nodes (the return type among them) and whatever the
    place of the nodes in the tree, that is the context and the namespaces
    they are visited with.  The stand-alone pass
    [add_function_checksums_recursive] stores the same value. *)
Theorem function_checksum_of_signature
  (package1 root1 package2 root2 : option string) (ctx1 ctx2 : wit_context)
  (d1 d2 : dict) (name : string) (params : list (string * string)) :
  kind_is "CXXMethodDecl" d1 = true -> kind_is "CXXMethodDecl" d2 = true ->
  get "name" d1 = Some (JStr name) -> get "name" d2 = Some (JStr name) ->
  name <> "" ->
  checksum_parameters d1 = Ok params -> checksum_parameters d2 = Ok params ->
  well_typed (JObj d1) = true -> well_typed (JObj d2) = true ->
  exists r1 r2 r3,
    add_wit_format_names_recursive package1 root1 ctx1 (JObj d1) = Ok (JObj r1)
    /\ add_wit_format_names_recursive package2 root2 ctx2 (JObj d2) = Ok (JObj r2)
    /\ add_function_checksums_recursive (JObj d2) = Ok (JObj r3)
    /\ get "function_checksum" r1
       = Some (JNum (calculate_function_checksum name params))
    /\ get "function_checksum" r2 = get "function_checksum" r1
    /\ get "function_checksum" r3 = get "function_checksum" r1
    /\ 0 <= calculate_function_checksum name params < 2 ^ 64.
Proof.
  intros K1 K2 N1 N2 Hne P1 P2 W1 W2.
  destruct (method_checksum_field package1 root1 ctx1 d1 name params K1 N1 Hne P1 W1)
    as (r1 & E1 & G1).
  destruct (method_checksum_field package2 root2 ctx2 d2 name params K2 N2 Hne P2 W2)
    as (r2 & E2 & G2).
  destruct (standalone_checksum_field d2 name params K2 N2 P2 W2) as (r3 & E3 & G3).
  exists r1, r2, r3.
  repeat split; try assumption; try congruence; apply hash64_range.
Qed.

Lemma function_checksum_of_signature_witness :
  exists r1 r2 r3,
    add_wit_format_names_recursive (Some "arieo:sample") (Some "Arieo::Sample")
      initial_context
      (JObj (sample_method "DoSomething1" "void (int, bool)"
               [sample_parameter "count" "int"; sample_parameter "flag" "bool"]))
    = Ok (JObj r1)
    /\ add_wit_format_names_recursive None None initial_context
         (JObj (sample_method "DoSomething1" "int (int, bool) const"
                  [JObj [("kind", JStr "AnnotateAttr")];
                   sample_parameter "count" "int"; sample_parameter "flag" "bool"]))
       = Ok (JObj r2)
    /\ add_function_checksums_recursive
         (JObj (sample_method "DoSomething1" "int (int, bool) const"
                  [JObj [("kind", JStr "AnnotateAttr")];
                   sample_parameter "count" "int"; sample_parameter "flag" "bool"]))
       = Ok (JObj r3)
    /\ get "function_checksum" r1
       = Some (JNum (calculate_function_checksum "DoSomething1"
                       [("int", "count"); ("bool", "flag")]))
    /\ get "function_checksum" r2 = get "function_checksum" r1
    /\ get "function_checksum" r3 = get "function_checksum" r1
    /\ 0 <= calculate_function_checksum "DoSomething1"
              [("int", "count"); ("bool", "flag")] < 2 ^ 64.
Proof.
  apply function_checksum_of_signature; try reflexivity. discriminate.
Defined.

(** ** C2 *)

Lemma insert_sorted_comm (x y : Z) (l : list Z) :
  insert_sorted x (insert_sorted y l) = insert_sorted y (insert_sorted x l).
Proof.
  induction l as [|a l IH]; simpl.
  - destruct (Z.leb_spec x y), (Z.leb_spec y x); try reflexivity; try lia.
    assert (x = y) by lia. now subst.
  - destruct (Z.leb_spec y a), (Z.leb_spec x a); simpl;
      repeat match goal with
             | |- context [?u <=? ?v] => destruct (Z.leb_spec u v)
             end; try reflexivity; try lia.
    + assert (x = y) by lia. now subst.
    + now rewrite IH.
Qed.

Lemma sorted_permutation (l1 l2 : list Z) :
  Permutation l1 l2 -> sorted l1 = sorted l2.
Proof.
  induction 1 as [ | x l l' _ IH | x y l | l l' l'' _ IH1 _ IH2 ]; simpl.
  - reflexivity.
  - now rewrite IH.
  - apply insert_sorted_comm.
  - congruence.
Qed.

Lemma checksum_permutation (name : string) (l1 l2 : list Z) :
  Permutation l1 l2 ->
  calculate_interface_checksum name l1 = calculate_interface_checksum name l2.
Proof.
  intros H. unfold calculate_interface_checksum, interface_signature. cbv zeta.
  now rewrite (sorted_permutation l1 l2 H).
Qed.

(** What the sorted list is: an ordered arrangement of the same checksums. *)
Lemma insert_sorted_perm (x : Z) (l : list Z) : Permutation (x :: l) (insert_sorted x l).
Proof.
  induction l as [|a l IH]; simpl; [reflexivity|].
  destruct (x <=? a); [reflexivity|].
  rewrite perm_swap. now apply perm_skip.
Qed.

Lemma sorted_perm (l : list Z) : Permutation l (sorted l).
Proof.
  induction l as [|x l IH]; simpl; [reflexivity|].
  rewrite <- insert_sorted_perm. now apply perm_skip.
Qed.

Lemma insert_sorted_ordered (x : Z) (l : list Z) :
  Sorted Z.le l -> Sorted Z.le (insert_sorted x l).
Proof.
  induction 1 as [|a l Hs IH Hh]; simpl; [repeat constructor|].
  destruct (Z.leb_spec x a).
  - constructor; [now constructor|]. now constructor.
  - constructor; [exact IH|].
    destruct l as [|b l]; simpl.
    + constructor. lia.
    + destruct (Z.leb_spec x b); constructor; try lia.
      now inversion Hh.
Qed.

Lemma sorted_ordered (l : list Z) : Sorted Z.le (sorted l).
Proof.
  induction l as [|x l IH]; simpl; [constructor|]. now apply insert_sorted_ordered.
Qed.

Lemma interface_checksum_field (d : dict) (name : string) (checksums : list Z) :
  kind_is "CXXRecordDecl" d = true ->
  get "name" d = Some (JStr name) -> name <> "" ->
  mapM as_int (method_checksums (inner_list d)) = Ok checksums ->
  well_typed (JObj d) = true ->
  exists r,
    add_interface_checksums_recursive (JObj d) = Ok (JObj r)
    /\ get "interface_checksum" r
       = Some (JNum (calculate_interface_checksum name checksums)).
Proof.
  intros Hk Hn Hne Hc Hw.
  destruct (interface_pass_good (JObj d) Hw) as (j & Hj & _ & Ht).
  destruct j; try discriminate Ht. exists fields. split; [exact Hj|].
  cbn [add_interface_checksums_recursive] in Hj.
  assert (Hf : interface_checksum_fields d
               = Ok [("interface_checksum",
                      JNum (calculate_interface_checksum name checksums))]).
  { unfold interface_checksum_fields, get_or_none, get_default.
    rewrite Hk, Hn, Hc. simpl. apply String.eqb_neq in Hne. now rewrite Hne. }
  rewrite Hf in Hj. cbn [bind] in Hj.
  match type of Hj with
  | bind ?w _ = _ => destruct w as [d'| |] eqn:Hwalk; try discriminate Hj
  end.
  cbn [bind] in Hj. injection Hj as <-.
  eapply assign_then_walk_get; [exact Hwalk|]. reflexivity.
Qed.

(** C2, as amended.  Two interfaces of the same name whose collected member
    checksums are orderings of each other (the same checksums, each as often)
    receive the same [interface_checksum]: the checksums are sorted before
    they are joined and hashed. *)
Theorem interface_checksum_order_insensitive (d1 d2 : dict) (name : string)
  (checksums1 checksums2 : list Z) :
  kind_is "CXXRecordDecl" d1 = true -> kind_is "CXXRecordDecl" d2 = true ->
  get "name" d1 = Some (JStr name) -> get "name" d2 = Some (JStr name) ->
  name <> "" ->
  mapM as_int (method_checksums (inner_list d1)) = Ok checksums1 ->
  mapM as_int (method_checksums (inner_list d2)) = Ok checksums2 ->
  Permutation checksums1 checksums2 ->
  well_typed (JObj d1) = true -> well_typed (JObj d2) = true ->
  exists r1 r2,
    add_interface_checksums_recursive (JObj d1) = Ok (JObj r1)
    /\ add_interface_checksums_recursive (JObj d2) = Ok (JObj r2)
    /\ get "interface_checksum" r1
       = Some (JNum (calculate_interface_checksum name checksums1))
    /\ get "interface_checksum" r2 = get "interface_checksum" r1
    /\ Sorted Z.le (sorted checksums1)
    /\ Permutation checksums1 (sorted checksums1).
Proof.
  intros K1 K2 N1 N2 Hne C1 C2 HP W1 W2.
  destruct (interface_checksum_field d1 name checksums1 K1 N1 Hne C1 W1)
    as (r1 & E1 & G1).
  destruct (interface_checksum_field d2 name checksums2 K2 N2 Hne C2 W2)
    as (r2 & E2 & G2).
  exists r1, r2. repeat split; try assumption.
  - rewrite G1, G2. now rewrite (checksum_permutation name _ _ HP).
  - apply sorted_ordered.
  - apply sorted_perm.
Qed.

Lemma interface_checksum_order_insensitive_witness :
  exists r1 r2,
    add_interface_checksums_recursive
      (JObj (sample_interface "ISample"
               [checked_method 7; checked_method 3; checked_method 7]))
    = Ok (JObj r1)
    /\ add_interface_checksums_recursive
         (JObj (sample_interface "ISample"
                  [checked_method 3; checked_method 7; checked_method 7]))
       = Ok (JObj r2)
    /\ get "interface_checksum" r1
       = Some (JNum (calculate_interface_checksum "ISample" [7; 3; 7]))
    /\ get "interface_checksum" r2 = get "interface_checksum" r1
    /\ Sorted Z.le (sorted [7; 3; 7])
    /\ Permutation [7; 3; 7] (sorted [7; 3; 7]).
Proof.
  apply (interface_checksum_order_insensitive
           (sample_interface "ISample"
              [checked_method 7; checked_method 3; checked_method 7])
           (sample_interface "ISample"
              [checked_method 3; checked_method 7; checked_method 7])
           "ISample" [7; 3; 7] [3; 7; 7]); try reflexivity.
  - discriminate.
  - apply perm_swap.
Defined.

(** C2 as stated fails: the lists [[c; c]] and [[c]] hold the same set of
    member checksums, and the interface checksums differ. *)
Lemma same_set_different_interface_checksum :
  (forall c, In c [overloaded_checksum; overloaded_checksum]
             <-> In c [overloaded_checksum])
  /\ calculate_interface_checksum "ISample" [overloaded_checksum; overloaded_checksum]
     <> calculate_interface_checksum "ISample" [overloaded_checksum]
  /\ exists r1 r2,
       add_interface_checksums_recursive
         (JObj (sample_interface "ISample"
                  [checked_method overloaded_checksum;
                   checked_method overloaded_checksum])) = Ok (JObj r1)
       /\ add_interface_checksums_recursive
            (JObj (sample_interface "ISample" [checked_method overloaded_checksum]))
          = Ok (JObj r2)
       /\ get "interface_checksum" r1 <> get "interface_checksum" r2.
Proof.
  split; [|split].
  - intros c. simpl. tauto.
  - vm_compute. discriminate.
  - eexists. eexists. split; [vm_compute; reflexivity|].
    split; [vm_compute; reflexivity|]. vm_compute. discriminate.
Qed.

(** ** C3 *)

Lemma if_str_some (s : string) : s <> "" -> if_str (Some s) = Some s.
Proof. intros H. simpl. apply String.eqb_neq in H. now rewrite H. Qed.

Lemma interface_name_fields (package root name : string) (ctx : wit_context) :
  root <> "" ->
  let fqn := "::" ++ root ++ "::" ++ name in
  let assigned := assign_all (fst (interface_fields package (Some root) name ctx)) [] in
  get "full_qualified_name" assigned = Some (JStr fqn)
  /\ get "interface_name_hash" assigned = Some (JNum (calculate_name_hash fqn))
  /\ get "interface_id" assigned = Some (JNum (calculate_name_hash fqn)).
Proof.
  intros Hr. cbv zeta. unfold interface_fields. cbv zeta.
  rewrite (if_str_some root Hr). cbn [fst].
  rewrite !get_assign_all, !rev_app_distr. repeat split; reflexivity.
Qed.

Lemma wit_node_interface (package root name : string) (ctx : wit_context) (d : dict) :
  kind_is "CXXRecordDecl" d = true ->
  get "name" d = Some (JStr name) -> name <> "" -> package <> "" ->
  wit_node (Some package) (Some root) ctx d
  = Ok (interface_fields package (Some root) name (push_namespace d ctx)).
Proof.
  intros Hk Hn Hne Hp. unfold wit_node. cbv zeta.
  rewrite Hk, (if_str_some package Hp), (classify_name_str d name Hn Hne).
  cbn [bind]. destruct (interface_fields _ _ _ _) as [rf ctx'].
  rewrite (kind_is_exclusive _ "CXXMethodDecl" _ Hk) by discriminate. reflexivity.
Qed.

(** C3, as amended.  For a [CXXRecordDecl] node with a non-empty name,
    visited with a non-empty package name and a non-empty root namespace,
    [full_qualified_name] is "::" followed by the root namespace, "::" and
    the local name, and [interface_name_hash] (also stored as
    [interface_id]) is the 64-bit hash of exactly that string. *)
Theorem interface_qualified_name (package root name : string) (ctx : wit_context)
  (d : dict) :
  kind_is "CXXRecordDecl" d = true ->
  get "name" d = Some (JStr name) ->
  name <> "" -> package <> "" -> root <> "" ->
  well_typed (JObj d) = true ->
  exists r,
    add_wit_format_names_recursive (Some package) (Some root) ctx (JObj d)
    = Ok (JObj r)
    /\ get "full_qualified_name" r = Some (JStr ("::" ++ root ++ "::" ++ name))
    /\ get "interface_name_hash" r
       = Some (JNum (hash64 ("::" ++ root ++ "::" ++ name)))
    /\ get "interface_id" r = get "interface_name_hash" r
    /\ 0 <= hash64 ("::" ++ root ++ "::" ++ name) < 2 ^ 64.
Proof.
  intros Hk Hn Hne Hp Hr Hw.
  destruct (wit_pass_good (Some package) (Some root) (JObj d) ctx Hw)
    as (j & Hj & _ & Ht).
  destruct j; try discriminate Ht. exists fields. split; [exact Hj|].
  cbn [add_wit_format_names_recursive] in Hj.
  rewrite (wit_node_interface package root name ctx d Hk Hn Hne Hp) in Hj.
  cbn [bind] in Hj.
  match type of Hj with
  | bind ?w _ = _ => destruct w as [d'| |] eqn:Hwalk; try discriminate Hj
  end.
  cbn [bind] in Hj. injection Hj as <-.
  destruct (interface_name_fields package root name (push_namespace d ctx) Hr)
    as (G1 & G2 & G3).
  rewrite (assign_then_walk_get _ _ _ _ _ _ Hwalk G1).
  rewrite (assign_then_walk_get _ _ _ _ _ _ Hwalk G2).
  rewrite (assign_then_walk_get _ _ _ _ _ _ Hwalk G3).
  repeat split; try reflexivity; apply hash64_range.
Qed.

Lemma interface_qualified_name_witness :
  exists r,
    add_wit_format_names_recursive (Some "arieo:sample")
      (Some "Arieo::Interface::Sample") initial_context
      (JObj (sample_interface "ISample" []))
    = Ok (JObj r)
    /\ get "full_qualified_name" r
       = Some (JStr ("::" ++ "Arieo::Interface::Sample" ++ "::" ++ "ISample"))
    /\ get "interface_name_hash" r
       = Some (JNum (hash64 ("::" ++ "Arieo::Interface::Sample" ++ "::" ++ "ISample")))
    /\ get "interface_id" r = get "interface_name_hash" r
    /\ 0 <= hash64 ("::" ++ "Arieo::Interface::Sample" ++ "::" ++ "ISample") < 2 ^ 64.
Proof.
  apply interface_qualified_name; try reflexivity; discriminate.
Defined.

(** C3 as stated fails: the stored name starts with "::", which the root
    namespace followed by "::" and the local name does not. *)
Lemma qualified_name_starts_with_colons :
  exists r,
    add_wit_format_names_recursive (Some "arieo:sample")
      (Some "Arieo::Interface::Sample") initial_context
      (JObj (sample_interface "ISample" []))
    = Ok (JObj r)
    /\ get "full_qualified_name" r = Some (JStr "::Arieo::Interface::Sample::ISample")
    /\ get "full_qualified_name" r
       <> Some (JStr ("Arieo::Interface::Sample" ++ "::" ++ "ISample"))
    /\ get "interface_name_hash" r
       <> Some (JNum (hash64 ("Arieo::Interface::Sample" ++ "::" ++ "ISample"))).
Proof.
  eexists. split; [vm_compute; reflexivity|].
  split; [reflexivity|]. split; vm_compute; discriminate.
Qed.

(** ** C7 *)

(** C7.  For fragments that are objects, the first of which has a list for
    [inner] when it has one, the merged tree is the first fragment, its
    [inner] holding its own children followed by the children of the later
    fragments in their order; a later fragment without a list for [inner]
    brings none.  For two fragments the merged children are those of the
    first followed by those of the second, the other fields being those of
    the first. *)
Theorem merge_concatenates_children (d : dict) (ds : list dict) :
  inner_is_list d = true ->
  merge_json_objects (JObj d :: map JObj ds)
  = Ok (match ds with
        | [] => JObj d
        | _ => JObj (dict_set "inner"
                       (JArr (inner_list d ++ flat_map inner_list ds)) d)
        end)
  /\ forall d2, exists merged,
       merge_json_objects [JObj d; JObj d2] = Ok (JObj merged)
       /\ inner_list merged = (inner_list d ++ inner_list d2)%list
       /\ forall k, k <> "inner" -> get k merged = get k d.
Proof.
  intros Hd. split; [now apply merge_objects|].
  intros d2. eexists. split; [exact (merge_objects d [d2] Hd)|]. split.
  - unfold inner_list at 1. rewrite get_dict_set_same. simpl. now rewrite app_nil_r.
  - intros k Hk. now apply get_dict_set_other.
Qed.

Lemma merge_concatenates_children_witness :
  merge_json_objects
    (JObj [("kind", JStr "NamespaceDecl"); ("inner", JArr [JNum 1; JNum 2])]
     :: map JObj [[("inner", JArr [JNum 3])]; [("kind", JStr "NamespaceDecl")];
                  [("inner", JArr [JNum 4; JNum 5])]])
  = Ok (JObj [("kind", JStr "NamespaceDecl");
              ("inner", JArr [JNum 1; JNum 2; JNum 3; JNum 4; JNum 5])]).
Proof.
  apply (merge_concatenates_children
           [("kind", JStr "NamespaceDecl"); ("inner", JArr [JNum 1; JNum 2])]).
  reflexivity.
Defined.

(** ** Trimming *)







(** ** C8 *)











(** ** C10 *)

Lemma method_checksums_skip (m : dict) (before after : list json) :
  kind_is "CXXMethodDecl" m = true ->
  truthy (get_or_none "function_checksum" m) = false ->
  method_checksums (before ++ JObj m :: after) = method_checksums (before ++ after).
Proof.
  intros Hk Hf. induction before as [|x l IH]; simpl.
  - now rewrite Hk, Hf.
  - destruct x; try exact IH. destruct (kind_is "CXXMethodDecl" fields); [|exact IH].
    destruct (truthy (get_or_none "function_checksum" fields)); [|exact IH].
    now rewrite IH.
Qed.

Lemma method_checksums_view (l1 l2 : list json) :
  map child_view l1 = map child_view l2 -> method_checksums l1 = method_checksums l2.
Proof.
  revert l2. induction l1 as [|x l1 IH]; intros [|y l2] H; try discriminate H.
  - reflexivity.
  - simpl in H. injection H as Hxy Hl. specialize (IH _ Hl).
    destruct x, y; try discriminate Hxy; simpl; try exact IH.
    simpl in Hxy. injection Hxy as Hk Hc. rewrite Hk, Hc, IH. reflexivity.
Qed.

Lemma inner_list_set (l : list json) (d : dict) :
  inner_list (dict_set "inner" (JArr l) d) = l.
Proof. unfold inner_list. now rewrite get_dict_set_same. Qed.

Lemma interface_checksum_fields_inner (d1 d2 : dict) :
  get_or_none "kind" d1 = get_or_none "kind" d2 ->
  get_or_none "name" d1 = get_or_none "name" d2 ->
  method_checksums (inner_list d1) = method_checksums (inner_list d2) ->
  interface_checksum_fields d1 = interface_checksum_fields d2.
Proof.
  intros Hk Hn Hc. unfold interface_checksum_fields, kind_is.
  now rewrite Hk, Hn, Hc.
Qed.

Lemma interface_checksum_fields_shape (d fields : dict) (name : string) :
  kind_is "CXXRecordDecl" d = true ->
  get "name" d = Some (JStr name) -> name <> "" ->
  interface_checksum_fields d = Ok fields ->
  exists c, fields = [("interface_checksum", JNum c)].
Proof.
  intros Hk Hn Hne. unfold interface_checksum_fields, get_or_none, get_default.
  rewrite Hk, Hn. apply String.eqb_neq in Hne. simpl. rewrite Hne. simpl.
  destruct (mapM as_int _) as [cs| |]; simpl; try discriminate.
  intros [= <-]. eauto.
Qed.

Lemma interface_checksum_stored (d r fields : dict) (c : Z) :
  interface_checksum_fields d = Ok [("interface_checksum", JNum c)] ->
  add_interface_checksums_recursive (JObj d) = Ok (JObj r) ->
  get "interface_checksum" r = Some (JNum c).
Proof.
  intros Hf Hj. cbn [add_interface_checksums_recursive] in Hj.
  rewrite Hf in Hj. cbn [bind] in Hj.
  match type of Hj with
  | bind ?w _ = _ => destruct w as [d'| |] eqn:Hwalk; try discriminate Hj
  end.
  cbn [bind] in Hj. injection Hj as <-.
  eapply assign_then_walk_get; [exact Hwalk|]. reflexivity.
Qed.

(** C10.  A direct [CXXMethodDecl] child whose [function_checksum] is absent
    or 0 is left out of the collected list, so the interface gets the
    checksum it would get without that child; and the checksum depends on
    the children only through the kind and the [function_checksum] of each
    direct child. *)
Theorem falsy_checksum_is_skipped (d m : dict) (before after : list json) :
  kind_is "CXXMethodDecl" m = true ->
  get "function_checksum" m = None \/ get "function_checksum" m = Some (JNum 0) ->
  let with_child := dict_set "inner" (JArr (before ++ JObj m :: after)) d in
  let without_child := dict_set "inner" (JArr (before ++ after)) d in
  method_checksums (before ++ JObj m :: after) = method_checksums (before ++ after)
  /\ interface_checksum_fields with_child = interface_checksum_fields without_child
  /\ (forall name r1 r2,
        kind_is "CXXRecordDecl" d = true ->
        get "name" d = Some (JStr name) -> name <> "" ->
        add_interface_checksums_recursive (JObj with_child) = Ok (JObj r1) ->
        add_interface_checksums_recursive (JObj without_child) = Ok (JObj r2) ->
        exists c, get "interface_checksum" r1 = Some (JNum c)
                  /\ get "interface_checksum" r2 = Some (JNum c))
  /\ forall d1 d2,
       get_or_none "kind" d1 = get_or_none "kind" d2 ->
       get_or_none "name" d1 = get_or_none "name" d2 ->
       map child_view (inner_list d1) = map child_view (inner_list d2) ->
       interface_checksum_fields d1 = interface_checksum_fields d2.
Proof.
  intros Hk Hc with_child without_child.
  assert (Hf : truthy (get_or_none "function_checksum" m) = false).
  { unfold get_or_none, get_default. now destruct Hc as [-> | ->]. }
  assert (Heq : interface_checksum_fields with_child
                = interface_checksum_fields without_child).
  { apply interface_checksum_fields_inner; unfold with_child, without_child.
    - unfold get_or_none, get_default.
      now rewrite !get_dict_set_other by discriminate.
    - unfold get_or_none, get_default.
      now rewrite !get_dict_set_other by discriminate.
    - rewrite !inner_list_set. now apply method_checksums_skip. }
  split; [now apply method_checksums_skip|]. split; [exact Heq|]. split.
  - intros name r1 r2 Hkd Hn Hne H1 H2.
    assert (Hk2 : kind_is "CXXRecordDecl" without_child = true).
    { unfold without_child, kind_is, get_or_none, get_default.
      rewrite get_dict_set_other by discriminate. exact Hkd. }
    assert (Hn2 : get "name" without_child = Some (JStr name)).
    { unfold without_child. now rewrite get_dict_set_other by discriminate. }
    destruct (interface_checksum_fields without_child) as [fields| |] eqn:Hfields.
    + destruct (interface_checksum_fields_shape _ _ name Hk2 Hn2 Hne Hfields)
        as (c & ->).
      exists c. split.
      * now apply (interface_checksum_stored with_child r1 []).
      * now apply (interface_checksum_stored without_child r2 []).
    + cbn [add_interface_checksums_recursive] in H2. rewrite Hfields in H2.
      discriminate H2.
    + cbn [add_interface_checksums_recursive] in H2. rewrite Hfields in H2.
      discriminate H2.
  - intros d1 d2 H1 H2 H3. apply interface_checksum_fields_inner; auto.
    now apply method_checksums_view.
Qed.

Lemma falsy_checksum_is_skipped_witness :
  interface_checksum_fields
    (dict_set "inner"
       (JArr ([checked_method 7]
              ++ JObj [("kind", JStr "CXXMethodDecl"); ("function_checksum", JNum 0)]
              :: [checked_method 3]))
       (sample_interface "ISample" []))
  = interface_checksum_fields
      (dict_set "inner" (JArr ([checked_method 7] ++ [checked_method 3]))
         (sample_interface "ISample" [])).
Proof.
  refine (proj1 (proj2 (falsy_checksum_is_skipped (sample_interface "ISample" [])
           [("kind", JStr "CXXMethodDecl"); ("function_checksum", JNum 0)]
           [checked_method 7] [checked_method 3] _ _))).
  - reflexivity.
  - right. reflexivity.
Defined.

(** ** The name in the fingerprint *)

(** The method name is part of the fingerprint: the two spellings share
    their kebab form and not their checksum. *)
Lemma name_sensitive_fingerprint :
  calculate_function_checksum "DoSomething1" [("int", "count"); ("bool", "flag")]
  <> calculate_function_checksum "doSomething1" [("int", "count"); ("bool", "flag")]
  /\ convert_function_name_to_wit_format "DoSomething1"
     = convert_function_name_to_wit_format "doSomething1".
Proof. split; [vm_compute; discriminate|reflexivity]. Qed.

(** ** Groups of an array *)

Lemma key_eqb_sym (a b : json) : key_eqb a b = key_eqb b a.
Proof.
  destruct a, b; simpl; try reflexivity;
    try apply String.eqb_sym; try apply Z.eqb_sym.
Qed.

Lemma key_eqb_trans (a b c : json) :
  key_eqb a b = true -> key_eqb b c = true -> key_eqb a c = true.
Proof.
  destruct a, b, c; simpl; try discriminate; try reflexivity;
    rewrite ?String.eqb_eq, ?Z.eqb_eq; congruence.
Qed.

Lemma key_eqb_refl (a : json) : is_scalar a = true -> key_eqb a a = true.
Proof.
  destruct a; simpl; try discriminate; intros _;
    rewrite ?String.eqb_refl, ?Z.eqb_refl; reflexivity.
Qed.

(** A key equal to [a] is equal to what [a] is equal to. *)
Lemma key_eqb_congr (a b c : json) :
  key_eqb a b = true -> key_eqb a c = key_eqb b c.
Proof.
  intros H. destruct (key_eqb b c) eqn:E.
  - now apply key_eqb_trans with b.
  - destruct (key_eqb a c) eqn:F; [|reflexivity].
    rewrite key_eqb_sym in H. now rewrite (key_eqb_trans b a c H F) in E.
Qed.

Lemma existsb_same {A : Type} (f g : A -> bool) (l : list A) :
  (forall x, f x = g x) -> existsb f l = existsb g l.
Proof. intros H. induction l as [|x l IH]; simpl; [reflexivity|]. now rewrite H, IH. Qed.

Lemma existsb_false {A : Type} (f : A -> bool) (l : list A) :
  existsb f l = false <-> forall x, In x l -> f x = false.
Proof.
  induction l as [|x l IH]; simpl; [tauto|].
  rewrite orb_false_iff, IH. split.
  - intros [Hx Hl] y [<- | Hy]; auto.
  - intros H. split; [apply H; now left|]. intros y Hy. apply H. now right.
Qed.

Lemma positions_app (k : json) (a b : list json) : forall i,
  positions_from i k (a ++ b)
  = (positions_from i k a ++ positions_from (i + List.length a) k b)%list.
Proof.
  induction a as [|x a IH]; intros i; simpl.
  - now rewrite Nat.add_0_r.
  - rewrite IH. replace (S i + List.length a)%nat with (i + S (List.length a))%nat by lia.
    now destruct (key_eqb x k).
Qed.

Lemma positions_bounds (k : json) (ks : list json) : forall i j,
  In j (positions_from i k ks) -> (i <= j < i + List.length ks)%nat.
Proof.
  induction ks as [|x ks IH]; intros i j; simpl; [contradiction|].
  destruct (key_eqb x k); simpl; intros H.
  - destruct H as [<- | H]; [lia|]. apply IH in H. lia.
  - apply IH in H. lia.
Qed.

Lemma positions_none (k : json) (ks : list json) : forall i,
  positions_from i k ks = [] <-> existsb (fun k' => key_eqb k' k) ks = false.
Proof.
  induction ks as [|x ks IH]; intros i; simpl; [tauto|].
  destruct (key_eqb x k); simpl; [split; discriminate|apply IH].
Qed.

Lemma groups_add_new (k : json) (i : nat) (groups : kind_groups_t) :
  matches groups k = false -> groups_add k i groups = (groups ++ [(k, [i])])%list.
Proof.
  induction groups as [|[k' ix] g IH]; simpl; [reflexivity|].
  destruct (key_eqb k k'); simpl; [discriminate|]. intros H. now rewrite IH.
Qed.

Lemma groups_add_old (k : json) (i : nat) (groups : kind_groups_t) :
  distinct_keys groups -> matches groups k = true ->
  groups_add k i groups
  = map (fun g => if key_eqb k (fst g) then (fst g, (snd g ++ [i])%list) else g) groups.
Proof.
  induction groups as [|[k' ix] g IH]; simpl; [discriminate|].
  intros [Hn Hd] Hm. destruct (key_eqb k k') eqn:E; simpl.
  - f_equal. clear IH Hm.
    assert (Hk : matches g k = false).
    { unfold matches in *. rewrite <- Hn. apply existsb_same.
      intros x. now apply key_eqb_congr. }
    clear Hn Hd E. induction g as [|[k2 ix2] g IH]; simpl in *; [reflexivity|].
    apply orb_false_iff in Hk as [-> Hk]. now rewrite <- IH.
  - f_equal. now apply IH.
Qed.

Lemma matches_app (a b : kind_groups_t) (k : json) :
  matches (a ++ b)%list k = matches a k || matches b k.
Proof. apply existsb_app. Qed.

Lemma matches_map_fst (f : json * list nat -> json * list nat) (groups : kind_groups_t)
  (k : json) :
  (forall g, fst (f g) = fst g) -> matches (map f groups) k = matches groups k.
Proof.
  intros Hf. unfold matches. induction groups as [|g r IH]; simpl; [reflexivity|].
  now rewrite Hf, IH.
Qed.

Lemma distinct_keys_map (f : json * list nat -> json * list nat)
  (groups : kind_groups_t) :
  (forall g, fst (f g) = fst g) -> distinct_keys groups -> distinct_keys (map f groups).
Proof.
  intros Hf. induction groups as [|g r IH]; simpl; [auto|].
  intros [Hn Hd]. split; [|now apply IH].
  now rewrite Hf, matches_map_fst.
Qed.

Lemma distinct_keys_snoc (groups : kind_groups_t) (k : json) (ix : list nat) :
  distinct_keys groups -> matches groups k = false ->
  distinct_keys (groups ++ [(k, ix)])%list.
Proof.
  induction groups as [|g r IH]; simpl; [auto|].
  intros [Hn Hd] Hm. apply orb_false_iff in Hm as [Hg Hm].
  split; [|now apply IH].
  rewrite matches_app, Hn. simpl. rewrite key_eqb_sym, Hg. reflexivity.
Qed.

Lemma groups_of_snoc (groups : kind_groups_t) (ks : list json) (k : json) :
  is_scalar k = true ->
  groups_of groups ks ->
  groups_of (groups_add k (List.length ks) groups) (ks ++ [k])%list.
Proof.
  intros Hk (Hpos & Hdist & Hcov).
  assert (Hstep : forall k',
    positions_from 0 k' (ks ++ [k])
    = (positions_from 0 k' ks
       ++ (if key_eqb k k' then [List.length ks] else []))%list).
  { intros k'. rewrite positions_app. simpl. now destruct (key_eqb k k'). }
  destruct (matches groups k) eqn:Hm.
  - rewrite (groups_add_old k _ groups Hdist Hm). repeat split.
    + apply Forall_map. eapply Forall_impl; [|exact Hpos].
      intros [k' ix] [Hix Hne]. simpl in *.
      destruct (key_eqb k k') eqn:E; simpl; rewrite Hstep, E.
      * split; [now rewrite Hix|]. now destruct ix.
      * rewrite app_nil_r. now split.
    + apply distinct_keys_map; [|exact Hdist]. intros g. now destruct (key_eqb k (fst g)).
    + apply Forall_app. split.
      * eapply Forall_impl; [|exact Hcov]. intros a Ha.
        rewrite matches_map_fst; [exact Ha|].
        intros g. now destruct (key_eqb k (fst g)).
      * constructor; [|constructor]. rewrite matches_map_fst; [exact Hm|].
        intros g. now destruct (key_eqb k (fst g)).
  - rewrite (groups_add_new k _ groups Hm). repeat split.
    + apply Forall_app. split.
      * rewrite Forall_forall in Hpos. apply Forall_forall. intros [k' ix] Hin.
        destruct (Hpos _ Hin) as [Hix Hne]. simpl in *. rewrite Hstep.
        assert (E : key_eqb k k' = false).
        { unfold matches in Hm. rewrite existsb_false in Hm.
          exact (Hm _ Hin). }
        rewrite E, app_nil_r. now split.
      * constructor; [|constructor]. simpl. rewrite Hstep, (key_eqb_refl k Hk).
        split; [|discriminate].
        assert (E : positions_from 0 k ks = []).
        { apply positions_none. apply existsb_false. intros k' Hin.
          destruct (key_eqb k' k) eqn:F; [|reflexivity].
          rewrite Forall_forall in Hcov. specialize (Hcov _ Hin).
          unfold matches in Hcov, Hm.
          rewrite (existsb_same _ (fun g => key_eqb k (fst g))) in Hcov;
            [congruence|].
          intros g. now apply key_eqb_congr. }
        now rewrite E.
    + now apply distinct_keys_snoc.
    + apply Forall_app. split.
      * eapply Forall_impl; [|exact Hcov]. intros a Ha.
        now rewrite matches_app, Ha.
      * constructor; [|constructor]. rewrite matches_app. simpl.
        rewrite (key_eqb_refl k Hk). now rewrite orb_true_r.
Qed.

Lemma group_key_scalar (item : dict) (k : json) :
  group_key item = Ok k -> is_scalar k = true.
Proof.
  unfold group_key.
  destruct (eq_str (get_default "kind" (JStr "_no_kind") item) "CXXMethodDecl").
  - destruct (py_format _); simpl; try discriminate. now intros [= <-].
  - destruct (is_scalar (get_default "kind" (JStr "_no_kind") item)) eqn:E;
      [|discriminate]. now intros [= <-].
Qed.

Lemma build_groups_keys (ms : list dict) : forall (ks done : list json)
  (groups : kind_groups_t),
  mapM group_key ms = Ok ks ->
  groups_of groups done ->
  exists groups',
    build_groups (List.length done) (map JObj ms) groups = Ok groups'
    /\ groups_of groups' (done ++ ks).
Proof.
  induction ms as [|m ms IH]; intros ks done groups Hk Hg; simpl in *.
  - injection Hk as <-. rewrite app_nil_r. eauto.
  - destruct (group_key m) as [k| |] eqn:Hm; try discriminate Hk. simpl in Hk.
    destruct (mapM group_key ms) as [ks'| |] eqn:Hks; try discriminate Hk.
    simpl in Hk. injection Hk as <-. simpl.
    pose proof (groups_of_snoc groups done k (group_key_scalar m k Hm) Hg) as Hg'.
    destruct (IH ks' (done ++ [k])%list _ eq_refl Hg') as (G' & HG' & Hinv).
    rewrite length_app, Nat.add_1_r in HG'. rewrite <- app_assoc in Hinv.
    eauto.
Qed.

Lemma groups_of_nil : groups_of [] [].
Proof. repeat split; constructor. Qed.

Lemma in_marks_first (p : nat) (groups : kind_groups_t) :
  In (p, "first") (flat_map group_marks groups)
  <-> exists g rest, In g groups /\ snd g = p :: rest.
Proof.
  rewrite in_flat_map. split.
  - intros (g & Hin & Hm). exists g. unfold group_marks in Hm.
    destruct (snd g) as [|f rest] eqn:E; [contradiction|].
    destruct Hm as [[= ->] | [[=] | []]]. eauto.
  - intros (g & rest & Hin & Hs). exists g. split; [exact Hin|].
    unfold group_marks. rewrite Hs. now left.
Qed.

Lemma in_marks_last (p : nat) (groups : kind_groups_t) :
  In (p, "last") (flat_map group_marks groups)
  <-> exists g, In g groups /\ snd g <> [] /\ List.last (snd g) O = p.
Proof.
  rewrite in_flat_map. split.
  - intros (g & Hin & Hm). exists g. unfold group_marks in Hm.
    destruct (snd g) as [|f rest] eqn:E; [contradiction|].
    destruct Hm as [[=] | [[= <-] | []]]. repeat split; [exact Hin|discriminate].
  - intros (g & Hin & Hne & Hl). exists g. split; [exact Hin|].
    unfold group_marks. destruct (snd g) as [|f rest] eqn:E; [contradiction|].
    right. left. f_equal. exact Hl.
Qed.

Lemma matches_group (groups : kind_groups_t) (k : json) :
  matches groups k = true -> exists g, In g groups /\ key_eqb k (fst g) = true.
Proof. unfold matches. intros H. apply existsb_exists in H. exact H. Qed.

Lemma positions_split (k : json) (pre post : list json) (kp : json) :
  positions_from 0 k (pre ++ kp :: post)
  = (positions_from 0 k pre
     ++ (if key_eqb kp k then [List.length pre] else [])
     ++ positions_from (S (List.length pre)) k post)%list.
Proof. rewrite positions_app. simpl. now destruct (key_eqb kp k). Qed.

Lemma last_in {A : Type} (l : list A) (d : A) : l <> [] -> In (List.last l d) l.
Proof.
  induction l as [|x l IH]; [contradiction|]. intros _.
  destruct l as [|y l]; [now left|]. right. apply IH. discriminate.
Qed.

Lemma last_app_nonempty {A : Type} (a b : list A) (d : A) :
  b <> [] -> List.last (a ++ b) d = List.last b d.
Proof.
  intros Hb. induction a as [|x a IH]; [reflexivity|].
  simpl. destruct (a ++ b)%list eqn:E; [|exact IH].
  apply app_eq_nil in E. now destruct E.
Qed.

(** The element at position [length pre] opens its group exactly when no
    earlier key equals its own. *)
Lemma first_mark (groups : kind_groups_t) (pre post : list json) (kp : json) :
  groups_of groups (pre ++ kp :: post) ->
  In (List.length pre, "first") (flat_map group_marks groups)
  <-> existsb (key_eqb kp) pre = false.
Proof.
  intros (Hpos & _ & Hcov). rewrite in_marks_first.
  rewrite Forall_forall in Hpos, Hcov. split.
  - intros (g & rest & Hin & Hs). destruct (Hpos g Hin) as [Hix _].
    rewrite Hs, positions_split in Hix.
    destruct (positions_from 0 (fst g) pre) as [|j A] eqn:EA.
    + destruct (key_eqb kp (fst g)) eqn:Ek.
      * apply existsb_false. intros k' Hk'.
        apply positions_none in EA. rewrite existsb_false in EA.
        specialize (EA k' Hk'). now rewrite (key_eqb_congr kp (fst g) k' Ek),
          key_eqb_sym.
      * simpl in Hix.
        assert (Hb : In (List.length pre)
                       (positions_from (S (List.length pre)) (fst g) post)).
        { rewrite <- Hix. now left. }
        apply positions_bounds in Hb. lia.
    + simpl in Hix. injection Hix as Hj _.
      assert (Hb : In j (positions_from 0 (fst g) pre)) by (rewrite EA; now left).
      apply positions_bounds in Hb. lia.
  - intros Hnone.
    assert (Hkp : In kp (pre ++ kp :: post)) by (apply in_elt).
    destruct (matches_group groups kp (Hcov kp Hkp)) as (g & Hin & Ek).
    exists g. destruct (Hpos g Hin) as [Hix _].
    rewrite positions_split, Ek in Hix.
    assert (EA : positions_from 0 (fst g) pre = []).
    { apply positions_none. apply existsb_false. intros k' Hk'.
      rewrite existsb_false in Hnone. specialize (Hnone k' Hk').
      rewrite key_eqb_sym. now rewrite <- (key_eqb_congr kp (fst g) k' Ek). }
    rewrite EA in Hix. simpl in Hix. eauto.
Qed.

(** The element at position [length pre] closes its group exactly when no
    later key equals its own. *)
Lemma last_mark (groups : kind_groups_t) (pre post : list json) (kp : json) :
  groups_of groups (pre ++ kp :: post) ->
  In (List.length pre, "last") (flat_map group_marks groups)
  <-> existsb (key_eqb kp) post = false.
Proof.
  intros (Hpos & _ & Hcov). rewrite in_marks_last.
  rewrite Forall_forall in Hpos, Hcov. split.
  - intros (g & Hin & Hne & Hl). destruct (Hpos g Hin) as [Hix _].
    rewrite positions_split in Hix.
    destruct (positions_from (S (List.length pre)) (fst g) post) as [|j C] eqn:EC.
    + rewrite app_nil_r in Hix.
      destruct (key_eqb kp (fst g)) eqn:Ek.
      * apply existsb_false. intros k' Hk'.
        apply positions_none in EC. rewrite existsb_false in EC.
        specialize (EC k' Hk'). now rewrite (key_eqb_congr kp (fst g) k' Ek),
          key_eqb_sym.
      * rewrite app_nil_r in Hix.
        assert (Hb : In (List.last (snd g) O) (positions_from 0 (fst g) pre)).
        { rewrite <- Hix. now apply last_in. }
        apply positions_bounds in Hb. lia.
    + assert (Hb : In (List.last (snd g) O) (j :: C)).
      { rewrite Hix, app_assoc, last_app_nonempty by discriminate.
        apply last_in. discriminate. }
      rewrite <- EC in Hb. apply positions_bounds in Hb. lia.
  - intros Hnone.
    assert (Hkp : In kp (pre ++ kp :: post)) by (apply in_elt).
    destruct (matches_group groups kp (Hcov kp Hkp)) as (g & Hin & Ek).
    exists g. destruct (Hpos g Hin) as [Hix Hne].
    rewrite positions_split, Ek in Hix.
    assert (EC : positions_from (S (List.length pre)) (fst g) post = []).
    { apply positions_none. apply existsb_false. intros k' Hk'.
      rewrite existsb_false in Hnone. specialize (Hnone k' Hk').
      rewrite key_eqb_sym. now rewrite <- (key_eqb_congr kp (fst g) k' Ek). }
    rewrite EC, app_nil_r in Hix. repeat split; [exact Hin|exact Hne|].
    rewrite Hix. apply last_last.
Qed.

(** *** The flags assigned to an element *)

Lemma marked_with_in (marks : list (nat * string)) (i : nat) (k : string) :
  marked_with marks i k = true <-> In (i, k) marks.
Proof.
  unfold marked_with. rewrite existsb_exists. split.
  - intros ([j s] & Hin & H). apply andb_true_iff in H as [Hj Hs]. simpl in *.
    apply Nat.eqb_eq in Hj. apply String.eqb_eq in Hs. now subst.
  - intros Hin. exists (i, k). split; [exact Hin|]. simpl.
    now rewrite Nat.eqb_refl, String.eqb_refl.
Qed.

Lemma has_key_marked (marks : list (nat * string)) (i : nat) (k : string) :
  has_key k (map (fun m => (snd m, JBool true))
               (filter (fun m => Nat.eqb (fst m) i) marks))
  = marked_with marks i k.
Proof.
  unfold has_key, marked_with.
  induction marks as [|[j s] marks IH]; simpl; [reflexivity|].
  destruct (Nat.eqb j i); simpl; [|exact IH].
  rewrite (String.eqb_sym s k). destruct (String.eqb k s); [reflexivity|exact IH].
Qed.

Lemma get_marked (marks : list (nat * string)) (i : nat) (k : string) :
  get k (rev (map (fun m => (snd m, JBool true))
                (filter (fun m => Nat.eqb (fst m) i) marks)))
  = if marked_with marks i k then Some (JBool true) else None.
Proof.
  unfold marked_with.
  induction marks as [|[j s] marks IH]; simpl; [reflexivity|].
  destruct (Nat.eqb j i); simpl; [|exact IH].
  rewrite get_app, IH. simpl. rewrite (String.eqb_sym s k).
  destruct (existsb _ marks); [now rewrite orb_true_r|].
  rewrite orb_false_r. now destruct (String.eqb k s).
Qed.

Lemma flag_assigned (marks : list (nat * string)) (i : nat) (item : dict) :
  has_key "first" item = false -> has_key "last" item = false ->
  let assigned := assign_all (item_assignments marks i item) [] in
  get "first" assigned = Some (JBool (marked_with marks i "first"))
  /\ get "last" assigned = Some (JBool (marked_with marks i "last"))
  /\ forall k, k <> "first" -> k <> "last" ->
       Forall flag_key marks -> get k assigned = None.
Proof.
  intros Hf Hl. cbv zeta. unfold item_assignments. cbv zeta.
  rewrite Hf, Hl, !has_key_marked. cbn [orb].
  rewrite !get_assign_all, !rev_app_distr, !get_app, !get_marked.
  repeat split.
  - destruct (marked_with marks i "last"), (marked_with marks i "first"); reflexivity.
  - destruct (marked_with marks i "last"), (marked_with marks i "first"); reflexivity.
  - intros k Hk1 Hk2 Hm.
    rewrite get_assign_all, !rev_app_distr, !get_app, get_marked.
    assert (E : marked_with marks i k = false).
    { destruct (marked_with marks i k) eqn:E; [|reflexivity].
      apply marked_with_in in E. rewrite Forall_forall in Hm.
      destruct (Hm _ E) as [H | H]; simpl in H; contradiction. }
    rewrite E. apply String.eqb_neq in Hk1, Hk2.
    destruct (marked_with marks i "last"), (marked_with marks i "first"); simpl;
      rewrite ?Hk1, ?Hk2; reflexivity.
Qed.

Lemma flagged_item (marks : list (nat * string)) (i : nat) (m m' : dict) :
  Forall flag_key marks ->
  has_key "first" m = false -> has_key "last" m = false ->
  assign_then_walk (add_last_flags true) (item_assignments marks i m) m = Ok m' ->
  get "first" m' = Some (JBool (marked_with marks i "first"))
  /\ get "last" m' = Some (JBool (marked_with marks i "last"))
  /\ kept m m'.
Proof.
  intros Hm Hf Hl Hw. destruct (flag_assigned marks i m Hf Hl) as (G1 & G2 & G3).
  repeat split.
  - exact (assign_then_walk_get _ _ _ _ _ _ Hw G1).
  - exact (assign_then_walk_get _ _ _ _ _ _ Hw G2).
  - intros key K1 K2.
    exact (assign_then_walk_keep _ _ _ _ key Hw (G3 key K1 K2 Hm)).
Qed.

Lemma scalar_unchanged (v v' : json) (b : bool) :
  is_scalar v = true -> add_last_flags b v = Ok v' -> v' = v.
Proof. destruct v; try discriminate; simpl; now intros _ [= <-]. Qed.

Lemma kept_scalar (m m' : dict) (key : string) (default : json) :
  kept m m' -> key <> "first" -> key <> "last" ->
  is_scalar (get_default key default m) = true ->
  get_default key default m' = get_default key default m.
Proof.
  intros Hk K1 K2 Hs. specialize (Hk key K1 K2). unfold get_default in *.
  destruct (get key m) as [v|].
  - destruct Hk as (v' & Hv & ->). now apply scalar_unchanged in Hv.
  - now rewrite Hk.
Qed.

Lemma group_key_kept (m m' : dict) (k : json) :
  kept m m' -> group_key m = Ok k -> group_key m' = Ok k.
Proof.
  intros Hk Hg. unfold group_key in *.
  destruct (eq_str (get_default "kind" (JStr "_no_kind") m) "CXXMethodDecl") eqn:Ek.
  - assert (Hs : is_scalar (get_default "kind" (JStr "_no_kind") m) = true).
    { destruct (get_default "kind" (JStr "_no_kind") m); try discriminate Ek.
      reflexivity. }
    rewrite (kept_scalar m m' "kind" _ Hk) by (try discriminate; exact Hs).
    rewrite Ek.
    assert (Hi : is_scalar (get_default "isImplicit" (JBool false) m) = true).
    { destruct (get_default "isImplicit" (JBool false) m); try reflexivity;
        discriminate Hg. }
    rewrite (kept_scalar m m' "isImplicit" _ Hk) by (try discriminate; exact Hi).
    exact Hg.
  - destruct (is_scalar (get_default "kind" (JStr "_no_kind") m)) eqn:Hs;
      [|discriminate Hg].
    rewrite (kept_scalar m m' "kind" _ Hk) by (try discriminate; exact Hs).
    now rewrite Ek, Hs.
Qed.

(** *** The array after the pass *)

Lemma bool_negb_iff (b c : bool) : (b = true <-> c = false) -> b = negb c.
Proof. destruct b, c; simpl; intros [H1 H2]; auto; try (symmetry; auto). Qed.

Lemma flag_items_flagged (groups : kind_groups_t) (ms : list dict) :
  forall (ks done : list json) (out : list json),
  groups_of groups (done ++ ks) ->
  mapM group_key ms = Ok ks ->
  Forall no_flags ms ->
  mapM_indexed
    (fun i item =>
       match item with
       | JObj fields =>
           fields' <- assign_then_walk (add_last_flags true)
                        (item_assignments (flat_map group_marks groups) i fields)
                        fields ;;
           Ok (JObj fields')
       | _ => add_last_flags false item
       end) (List.length done) (map JObj ms) = Ok out ->
  flagged_as done ks ms out.
Proof.
  induction ms as [|m ms IH]; intros ks done out Hg Hk Hn Ho; simpl in *.
  - injection Hk as <-. now injection Ho as <-.
  - destruct (group_key m) as [k| |] eqn:Hm; try discriminate Hk. simpl in Hk.
    destruct (mapM group_key ms) as [ks'| |] eqn:Hks; try discriminate Hk.
    simpl in Hk. injection Hk as <-.
    inversion Hn as [|? ? [Hf Hl] Hn']; subst.
    destruct (assign_then_walk (add_last_flags true) _ m) as [m'| |] eqn:Hw;
      try discriminate Ho.
    simpl in Ho.
    match type of Ho with
    | bind ?r _ = _ => destruct r as [out'| |] eqn:Hr; try discriminate Ho
    end.
    simpl in Ho. injection Ho as <-.
    destruct (flagged_item _ _ m m' (group_marks_keys groups) Hf Hl Hw)
      as (G1 & G2 & Hkept).
    split.
    + exists m'. repeat split; try assumption.
      * rewrite G1. do 2 f_equal. apply bool_negb_iff.
        rewrite marked_with_in. now apply first_mark with (post := ks').
      * rewrite G2. do 2 f_equal. apply bool_negb_iff.
        rewrite marked_with_in. now apply last_mark.
      * now apply group_key_kept with m.
    + apply IH; [now rewrite <- app_assoc | reflexivity | exact Hn' |].
      rewrite length_app, Nat.add_1_r. exact Hr.
Qed.

Lemma flagged_as_length (ms : list dict) : forall seen ks out,
  flagged_as seen ks ms out -> List.length out = List.length ms.
Proof.
  induction ms as [|m ms IH]; intros seen [|k ks] [|j out] H; simpl in *;
    try contradiction; [reflexivity|].
  destruct H as [_ H]. f_equal. now apply IH in H.
Qed.

Lemma flagged_as_at (before : list dict) : forall (kb seen ka : list json) (k : json)
  (m : dict) (after : list dict) (out : list json),
  List.length kb = List.length before ->
  flagged_as seen (kb ++ k :: ka) (before ++ m :: after) out ->
  exists j, nth_error out (List.length before) = Some j
            /\ flagged_element (seen ++ kb) ka k m j.
Proof.
  induction before as [|b before IH]; intros [|k0 kb] seen ka k m after [|j out] Hl H;
    simpl in *; try discriminate Hl; try contradiction.
  - destruct H as [H _]. exists j. now rewrite app_nil_r.
  - destruct H as [_ H]. injection Hl as Hl.
    destruct (IH kb (seen ++ [k0])%list ka k m after out Hl H) as (j' & Hn & Hf).
    exists j'. split; [exact Hn|]. now rewrite <- app_assoc in Hf.
Qed.

Lemma mapM_app_inv {A B : Type} (f : A -> result B) (a : list A) :
  forall (b : list A) (out : list B),
  mapM f (a ++ b) = Ok out ->
  exists oa ob, out = (oa ++ ob)%list /\ mapM f a = Ok oa /\ mapM f b = Ok ob.
Proof.
  induction a as [|x a IH]; intros b out H; simpl in *.
  - exists [], out. auto.
  - destruct (f x) as [y| |]; try discriminate H. simpl in H.
    destruct (mapM f (a ++ b)) as [r| |] eqn:Hr; try discriminate H.
    simpl in H. injection H as <-.
    destruct (IH b r Hr) as (oa & ob & -> & Ha & Hb).
    exists (y :: oa), ob. rewrite Ha. simpl. auto.
Qed.

Lemma mapM_length {A B : Type} (f : A -> result B) (a : list A) :
  forall out, mapM f a = Ok out -> List.length out = List.length a.
Proof.
  induction a as [|x a IH]; intros out H; simpl in *.
  - now injection H as <-.
  - destruct (f x) as [y| |]; try discriminate H. simpl in H.
    destruct (mapM f a) as [r| |]; try discriminate H.
    simpl in H. injection H as <-. simpl. f_equal. now apply IH.
Qed.

Lemma same_group_keys (m : dict) (k : json) (others : list dict) :
  forall ko, group_key m = Ok k -> mapM group_key others = Ok ko ->
  existsb (same_group m) others = existsb (key_eqb k) ko.
Proof.
  intros ko Hm. revert ko.
  induction others as [|o others IH]; intros ko Ho; simpl in *.
  - now injection Ho as <-.
  - destruct (group_key o) as [y| |] eqn:Hy; try discriminate Ho. simpl in Ho.
    destruct (mapM group_key others) as [r| |]; try discriminate Ho.
    simpl in Ho. injection Ho as <-. simpl.
    unfold same_group at 1. rewrite Hm, Hy. f_equal. now apply IH.
Qed.

(** *** One opening and one closing element in each group *)

Lemma count_first (k : json) (ks : list json) (ms : list dict) :
  forall (seen : list json) (m : dict) (out : list json),
  group_key m = Ok k ->
  flagged_as seen ks ms out ->
  List.length (filter (fun j => in_group m j && flagged "first" j) out)
  = if existsb (key_eqb k) seen then 0%nat
    else if existsb (key_eqb k) ks then 1%nat else 0%nat.
Proof.
  revert ks. induction ms as [|m0 ms IH]; intros [|k0 ks] seen m [|j out] Hm H;
    simpl in H; try contradiction.
  - simpl. now destruct (existsb (key_eqb k) seen).
  - destruct H as [(m' & -> & G1 & _ & Hk' & _) H].
    specialize (IH ks (seen ++ [k0])%list m out Hm H).
    cbn [filter in_group flagged]. unfold same_group. rewrite Hm, Hk', G1.
    rewrite existsb_app in IH. cbn [existsb] in IH |- *. rewrite orb_false_r in IH.
    destruct (key_eqb k k0) eqn:E.
    + rewrite <- (existsb_same (key_eqb k) (key_eqb k0) seen)
        by (intros x; now apply key_eqb_congr).
      rewrite orb_true_r in IH.
      destruct (existsb (key_eqb k) seen); simpl; [exact IH|].
      now rewrite IH.
    + simpl. rewrite orb_false_r in IH. exact IH.
Qed.

Lemma count_last (k : json) (ks : list json) (ms : list dict) :
  forall (seen : list json) (m : dict) (out : list json),
  group_key m = Ok k ->
  flagged_as seen ks ms out ->
  List.length (filter (fun j => in_group m j && flagged "last" j) out)
  = if existsb (key_eqb k) ks then 1%nat else 0%nat.
Proof.
  revert ks. induction ms as [|m0 ms IH]; intros [|k0 ks] seen m [|j out] Hm H;
    simpl in H; try contradiction.
  - reflexivity.
  - destruct H as [(m' & -> & _ & G2 & Hk' & _) H].
    specialize (IH ks (seen ++ [k0])%list m out Hm H).
    cbn [filter in_group flagged]. unfold same_group. rewrite Hm, Hk', G2.
    cbn [existsb].
    destruct (key_eqb k k0) eqn:E; simpl; [|exact IH].
    rewrite <- (existsb_same (key_eqb k) (key_eqb k0) ks)
      by (intros x; now apply key_eqb_congr).
    destruct (existsb (key_eqb k) ks); simpl; [exact IH|now rewrite IH].
Qed.

Lemma wt_group_keys (ms : list dict) :
  Forall wt (map JObj ms) -> exists ks, mapM group_key ms = Ok ks.
Proof.
  induction ms as [|m ms IH]; simpl; intros H; [eauto|].
  inversion H as [|? ? Hm Hr]; subst. apply wt_obj in Hm.
  destruct (group_key_good m Hm) as (k & ->). destruct (IH Hr) as (ks & ->).
  simpl. eauto.
Qed.

Lemma flags_of_array (ms : list dict) (v' : json) :
  ms <> [] -> Forall no_flags ms ->
  add_last_flags true (JArr (map JObj ms)) = Ok v' ->
  exists ks value',
    v' = JArr value' /\ mapM group_key ms = Ok ks /\ flagged_as [] ks ms value'.
Proof.
  intros Hne Hn H. cbn [add_last_flags] in H.
  assert (E : is_empty (map JObj ms) = false) by (destruct ms; [contradiction|reflexivity]).
  rewrite E in H. cbn [andb negb] in H.
  destruct (build_groups 0 (map JObj ms) []) as [groups| |] eqn:Hb; try discriminate H.
  cbn [bind] in H.
  match type of H with
  | bind ?r _ = _ => destruct r as [value'| |] eqn:Hr; try discriminate H
  end.
  cbn [bind] in H. injection H as <-.
  assert (Hk : exists ks, mapM group_key ms = Ok ks).
  { clear Hr E Hn Hne. revert Hb. generalize 0%nat. generalize ([] : kind_groups_t).
    induction ms as [|m ms IH]; intros g n Hb; simpl in *; [eauto|].
    destruct (group_key m) as [k| |]; try discriminate Hb. simpl in Hb.
    destruct (IH _ _ Hb) as (ks & ->). simpl. eauto. }
  destruct Hk as (ks & Hk). exists ks, value'. repeat split; [exact Hk|].
  destruct (build_groups_keys ms ks [] [] Hk groups_of_nil) as (g' & Hg' & Hinv).
  simpl in Hg'. rewrite Hb in Hg'. injection Hg' as <-.
  now apply (flag_items_flagged groups ms ks [] value').
Qed.

(** X29.  Let an attribute of a well-typed node hold a non-empty array of
    objects none of which already has a [first] or a [last] field.
    After the pass the array has the same length, and the element at each
    position is the element that was there, its fields visited, with
    [first] true exactly when no earlier element is in its group and [last]
    true exactly when no later element is, and false otherwise.  Hence each
    group has exactly one element with [first] true and exactly one with
    [last] true. *)
Theorem ordering_flags (d : dict) (key : string) (ms : list dict) :
  get key d = Some (JArr (map JObj ms)) ->
  ms <> [] ->
  Forall no_flags ms ->
  well_typed (JObj d) = true ->
  exists d' value',
    add_last_flags_recursive (JObj d) = Ok (JObj d')
    /\ get key d' = Some (JArr value')
    /\ List.length value' = List.length ms
    /\ (forall before m after, ms = (before ++ m :: after)%list ->
          exists m',
            nth_error value' (List.length before) = Some (JObj m')
            /\ get "first" m' = Some (JBool (negb (existsb (same_group m) before)))
            /\ get "last" m' = Some (JBool (negb (existsb (same_group m) after)))
            /\ group_key m' = group_key m
            /\ kept m m')
    /\ (forall m, In m ms ->
          List.length (filter (fun j => in_group m j && flagged "first" j) value')
          = 1%nat
          /\ List.length (filter (fun j => in_group m j && flagged "last" j) value')
             = 1%nat).
Proof.
  intros Hg Hne Hn Hw.
  destruct (flags_pass_good (JObj d) false Hw) as (j & Hj & _ & Ht).
  destruct j; try discriminate Ht. exists fields.
  unfold add_last_flags_recursive.
  pose proof Hj as Hwalk. cbn [add_last_flags] in Hwalk.
  destruct (walk_fields (add_last_flags true) [] d) as [d'| |] eqn:Hd';
    try discriminate Hwalk.
  cbn [bind] in Hwalk. injection Hwalk as <-.
  pose proof (walk_fields_get (add_last_flags true) [] key d d' Hd') as G.
  rewrite Hg in G. cbn [get] in G. destruct G as (v' & Hv & Gk).
  destruct (flags_of_array ms v' Hne Hn Hv) as (ks & value' & -> & Hk & Hfl).
  exists value'. split; [exact Hj|]. split; [exact Gk|].
  split; [now apply flagged_as_length in Hfl|]. split.
  - intros before m after ->.
    destruct (mapM_app_inv group_key before (m :: after) ks Hk)
      as (kb & kr & -> & Hkb & Hkr).
    simpl in Hkr. destruct (group_key m) as [k| |] eqn:Hm; try discriminate Hkr.
    simpl in Hkr. destruct (mapM group_key after) as [ka| |] eqn:Hka;
      try discriminate Hkr.
    simpl in Hkr. injection Hkr as <-.
    destruct (flagged_as_at before kb [] ka k m after value'
                (mapM_length _ _ _ Hkb) Hfl) as (j & Hnth & m' & -> & G1 & G2 & G3 & G4).
    exists m'. split; [exact Hnth|]. simpl in G1.
    rewrite (same_group_keys m k before kb Hm Hkb).
    rewrite (same_group_keys m k after ka Hm Hka). auto.
  - intros m Hin.
    apply in_split in Hin as (before & after & ->).
    destruct (mapM_app_inv group_key before (m :: after) ks Hk)
      as (kb & kr & -> & Hkb & Hkr).
    simpl in Hkr. destruct (group_key m) as [k| |] eqn:Hm; try discriminate Hkr.
    simpl in Hkr. destruct (mapM group_key after) as [ka| |] eqn:Hka;
      try discriminate Hkr.
    simpl in Hkr. injection Hkr as <-.
    assert (Hex : existsb (key_eqb k) (kb ++ k :: ka) = true).
    { rewrite existsb_app. simpl.
      rewrite (key_eqb_refl k (group_key_scalar m k Hm)). now rewrite orb_true_r. }
    rewrite (count_first k _ _ [] m value' Hm Hfl).
    rewrite (count_last k _ _ [] m value' Hm Hfl).
    rewrite Hex. simpl. auto.
Qed.

Lemma ordering_flags_witness :
  exists d' value',
    add_last_flags_recursive
      (JObj [("inner",
              JArr (map JObj [sample_element "CXXMethodDecl" "a";
                              sample_element "FieldDecl" "b";
                              sample_element "CXXMethodDecl" "c"]))])
    = Ok (JObj d')
    /\ get "inner" d' = Some (JArr value')
    /\ List.length value' = 3%nat
    /\ List.length
         (filter (fun j => in_group (sample_element "CXXMethodDecl" "c") j
                           && flagged "first" j) value') = 1%nat
    /\ List.length
         (filter (fun j => in_group (sample_element "FieldDecl" "b") j
                           && flagged "last" j) value') = 1%nat.
Proof.
  destruct (ordering_flags
              [("inner",
                JArr (map JObj [sample_element "CXXMethodDecl" "a";
                                sample_element "FieldDecl" "b";
                                sample_element "CXXMethodDecl" "c"]))]
              "inner"
              [sample_element "CXXMethodDecl" "a"; sample_element "FieldDecl" "b";
               sample_element "CXXMethodDecl" "c"])
    as (d' & value' & H1 & H2 & H3 & _ & H5).
  - reflexivity.
  - discriminate.
  - repeat constructor.
  - reflexivity.
  - exists d', value'. repeat split; try assumption.
    + apply H5. simpl. tauto.
    + apply H5. simpl. tauto.
Defined.


(** * Further properties of the code *)

(** ** Shape of the translated names *)

Lemma all_chars_app (p : ascii -> bool) (a b : string) :
  all_chars p (a ++ b) = all_chars p a && all_chars p b.
Proof.
  induction a as [|c a IH]; simpl; [reflexivity|].
  now rewrite IH, andb_assoc.
Qed.

Lemma isupper_lower_char (c : ascii) : PyStr.isupper (PyStr.lower_char c) = false.
Proof. by_cases_on_char c. Qed.

Lemma lower_not_upper (s : string) : all_chars not_upper (PyStr.lower s) = true.
Proof.
  induction s as [|c r IH]; simpl; [reflexivity|].
  unfold not_upper at 1. now rewrite isupper_lower_char, IH.
Qed.

Lemma lower_fixed (s : string) : all_chars not_upper s = true -> PyStr.lower s = s.
Proof.
  induction s as [|c r IH]; simpl; [reflexivity|].
  intros H. apply andb_true_iff in H as [Hc Hr]. rewrite (IH Hr).
  unfold not_upper in Hc. apply negb_true_iff in Hc.
  unfold PyStr.lower_char. now rewrite Hc.
Qed.

Lemma sub_lower_upper_fixed (s : string) :
  all_chars not_upper s = true -> sub_lower_upper s = s.
Proof.
  induction s as [|a t IH]; [reflexivity|].
  intros H. cbn [all_chars] in H. apply andb_true_iff in H as [_ Ht].
  cbn [sub_lower_upper]. destruct t as [|b r]; [reflexivity|].
  assert (Hb : PyStr.isupper b = false).
  { cbn [all_chars] in Ht. apply andb_true_iff in Ht as [Hb _].
    now apply negb_true_iff in Hb. }
  rewrite Hb, andb_false_r. f_equal. now apply IH.
Qed.

(** X1.  For a method name of ASCII characters: its snake-case form holds
    no uppercase letter; a name without uppercase letters is its own
    snake-case form; hence converting twice is converting once. *)
Theorem snake_case_is_lowercase (method_name : string) :
  all_chars is_ascii method_name = true ->
  all_chars not_upper (convert_method_name_to_rust_snake_case method_name) = true
  /\ (all_chars not_upper method_name = true ->
      convert_method_name_to_rust_snake_case method_name = method_name)
  /\ convert_method_name_to_rust_snake_case
       (convert_method_name_to_rust_snake_case method_name)
     = convert_method_name_to_rust_snake_case method_name.
Proof.
  assert (F : forall m, all_chars not_upper m = true ->
                        convert_method_name_to_rust_snake_case m = m).
  { intros m H. unfold convert_method_name_to_rust_snake_case.
    now rewrite (sub_lower_upper_fixed m H), lower_fixed. }
  intros _. split; [apply lower_not_upper|]. split; [apply F|].
  apply F. apply lower_not_upper.
Qed.

Lemma snake_case_is_lowercase_witness :
  convert_method_name_to_rust_snake_case "doSomthing_1" = "do_somthing_1"
  /\ convert_method_name_to_rust_snake_case
       (convert_method_name_to_rust_snake_case "doSomthing_1")
     = convert_method_name_to_rust_snake_case "doSomthing_1".
Proof.
  split; [reflexivity|].
  apply (snake_case_is_lowercase "doSomthing_1"). reflexivity.
Defined.

Lemma kept_char_plain (ch : ascii) :
  Ascii.eqb ch "_" = false -> plain (PyStr.lower_char ch) = true.
Proof. by_cases_on_char ch. Qed.

Lemma kebab_from_keeps_plain (s : string) : forall out,
  all_chars plain out = true -> all_chars plain (kebab_from out s) = true.
Proof.
  induction s as [|ch r IH]; intros out H; simpl; [exact H|].
  destruct (Ascii.eqb ch "_") eqn:Hu; [now apply IH|].
  apply IH. rewrite all_chars_app. simpl. rewrite (kept_char_plain ch Hu).
  destruct (PyStr.isupper ch && negb (out =? "")%string);
    rewrite ?all_chars_app, H; reflexivity.
Qed.

(** X2.  For a name of ASCII characters: its kebab-case form holds neither
    an uppercase letter nor an underscore, and converting it again gives it
    back. *)
Theorem kebab_case_is_stable (name : string) :
  all_chars is_ascii name = true ->
  all_chars plain (convert_function_name_to_wit_format name) = true
  /\ convert_function_name_to_wit_format (convert_function_name_to_wit_format name)
     = convert_function_name_to_wit_format name.
Proof.
  assert (P : all_chars plain (convert_function_name_to_wit_format name) = true).
  { rewrite wit_format_kebab. now apply kebab_from_keeps_plain. }
  intros _. split; [exact P|].
  rewrite (wit_format_kebab (convert_function_name_to_wit_format name)).
  unfold kebab_spec. now rewrite kebab_from_plain.
Qed.

Lemma kebab_case_is_stable_witness :
  convert_function_name_to_wit_format "Do_Something1" = "do-something1"
  /\ convert_function_name_to_wit_format
       (convert_function_name_to_wit_format "Do_Something1")
     = convert_function_name_to_wit_format "Do_Something1".
Proof.
  split; [reflexivity|].
  apply (kebab_case_is_stable "Do_Something1"). reflexivity.
Defined.

(** *** Replacing and splitting at one character *)

Lemma replace_char (a c : ascii) (new r : string) :
  PyStr.replace (String a "") new (String c r)
  = if Ascii.eqb a c then new ++ PyStr.replace (String a "") new r
    else String c (PyStr.replace (String a "") new r).
Proof.
  unfold PyStr.replace.
  cbn [PyStr.replace_from PyStr.startswith String.length Nat.pred].
  now rewrite andb_true_r.
Qed.

Lemma all_chars_replace_char (p q : ascii -> bool) (a : ascii) (new s : string) :
  (forall c, p c = true -> Ascii.eqb a c = false -> q c = true) ->
  all_chars q new = true ->
  all_chars p s = true ->
  all_chars q (PyStr.replace (String a "") new s) = true.
Proof.
  intros Hpq Hnew. induction s as [|c r IH]; [reflexivity|].
  intros H. cbn [all_chars] in H. apply andb_true_iff in H as [Hc Hr].
  rewrite replace_char. destruct (Ascii.eqb a c) eqn:E.
  - now rewrite all_chars_app, Hnew, IH.
  - cbn [all_chars]. now rewrite (Hpq c Hc E), IH.
Qed.

Lemma all_chars_true (s : string) : all_chars (fun _ => true) s = true.
Proof. induction s; simpl; auto. Qed.

Lemma startswith_app (p s : string) : PyStr.startswith p (p ++ s) = true.
Proof.
  induction p as [|c p IH]; simpl; [reflexivity|].
  now rewrite Ascii.eqb_refl, IH.
Qed.

Lemma wit_path_chars (w : string) :
  all_chars path_char
    (PyStr.replace "-" "_" (PyStr.replace "/" "::" (PyStr.replace ":" "::" w)))
  = true.
Proof.
  apply (all_chars_replace_char (is_not "/")).
  - intros c Hc E. unfold path_char, is_not. unfold is_not in Hc.
    now rewrite Hc, Ascii.eqb_sym, E.
  - reflexivity.
  - apply (all_chars_replace_char (fun _ => true)); [|reflexivity|apply all_chars_true].
    intros c _ E. unfold is_not. now rewrite Ascii.eqb_sym, E.
Qed.

(** X3.  The C++ and Rust paths made from a WIT name hold no slash and no
    dash: every separator of the WIT form is replaced. *)
Theorem wit_separators_are_translated (w : string) :
  all_chars path_char (convert_wit_to_cxx_namespace w) = true
  /\ all_chars path_char (convert_wit_to_cxx_script_full_interface_name w) = true
  /\ all_chars path_char (convert_wit_to_rust_full_interface_name w) = true.
Proof.
  pose proof (wit_path_chars w) as H.
  unfold convert_wit_to_cxx_namespace, convert_wit_to_cxx_script_full_interface_name,
    convert_wit_to_rust_full_interface_name. cbv zeta.
  split; [exact H|]. split.
  - destruct (negb (PyStr.startswith "::" _)); [|exact H].
    now rewrite all_chars_app, H.
  - destruct (negb (PyStr.startswith "crate::" _)); [|exact H].
    now rewrite all_chars_app, H.
Qed.

(** X4.  The C++ paths always start with "::" and the Rust paths with
    "crate::", whether or not the input already did. *)
Theorem generated_paths_are_rooted (w package_name : string) :
  PyStr.startswith "::" (convert_wit_to_cxx_script_full_interface_name w) = true
  /\ PyStr.startswith "crate::" (convert_wit_to_rust_full_interface_name w) = true
  /\ PyStr.startswith "::" (convert_package_name_to_cxx_namespace package_name) = true
  /\ PyStr.startswith "crate::" (convert_package_name_to_rust_namespace package_name)
     = true.
Proof.
  unfold convert_wit_to_cxx_script_full_interface_name,
    convert_wit_to_rust_full_interface_name, convert_package_name_to_cxx_namespace,
    convert_package_name_to_rust_namespace. cbv zeta.
  repeat split;
    match goal with
    | |- PyStr.startswith ?p (if negb ?b then _ else _) = true =>
        destruct b eqn:E; cbn [negb]; [exact E|apply (startswith_app p)]
    end.
Qed.

Lemma lower_char_dash (c : ascii) :
  is_not "-" c = true -> is_not "-" (PyStr.lower_char c) = true.
Proof. by_cases_on_char c. Qed.

(** X5.  The Rust function name made from a WIT name holds no dash and no
    uppercase letter. *)
Theorem rust_function_name_shape (wit_function_name : string) :
  all_chars (fun c => not_upper c && is_not "-" c)
    (convert_wit_to_rust_function_name wit_function_name) = true.
Proof.
  unfold convert_wit_to_rust_function_name.
  apply (all_chars_lower (is_not "-")).
  - intros c Hc. unfold not_upper.
    now rewrite isupper_lower_char, (lower_char_dash c Hc).
  - apply (all_chars_replace_char (fun _ => true)); [|reflexivity|apply all_chars_true].
    intros c _ E. unfold is_not. now rewrite Ascii.eqb_sym, E.
Qed.

Lemma split_char_none (a : ascii) (s : string) : forall cur,
  all_chars (is_not a) s = true ->
  PyStr.split_from (String a "") O cur s = [PyStr.rev_string "" cur ++ s].
Proof.
  induction s as [|c r IH]; intros cur H.
  - simpl. now rewrite append_empty_r.
  - cbn [all_chars] in H. apply andb_true_iff in H as [Hc Hr].
    unfold is_not in Hc. apply negb_true_iff in Hc.
    rewrite split_from_char, Ascii.eqb_sym, Hc, (IH _ Hr).
    cbn [PyStr.rev_string]. rewrite (rev_string_acc cur (String c "")).
    now rewrite append_assoc.
Qed.

Lemma split_char_app (a : ascii) (x y : string) : forall cur,
  all_chars (is_not a) x = true ->
  PyStr.split_from (String a "") O cur (x ++ String a y)
  = (PyStr.rev_string "" cur ++ x) :: PyStr.split_from (String a "") O "" y.
Proof.
  induction x as [|c r IH]; intros cur H.
  - cbn [String.append]. rewrite split_from_char, Ascii.eqb_refl.
    now rewrite append_empty_r.
  - cbn [all_chars] in H. apply andb_true_iff in H as [Hc Hr].
    unfold is_not in Hc. apply negb_true_iff in Hc.
    cbn [String.append]. rewrite split_from_char, Ascii.eqb_sym, Hc, (IH _ Hr).
    cbn [PyStr.rev_string]. rewrite (rev_string_acc cur (String c "")).
    now rewrite append_assoc.
Qed.

Lemma split_char_length (a : ascii) (s : string) : forall cur,
  List.length (PyStr.split_from (String a "") O cur s) = S (count_char a s).
Proof.
  induction s as [|c r IH]; intros cur; [reflexivity|].
  rewrite split_from_char. cbn [count_char]. rewrite (Ascii.eqb_sym c a).
  destruct (Ascii.eqb a c); cbn [List.length]; rewrite IH; reflexivity.
Qed.

(** X6.  A WIT name that does not hold exactly one slash comes back
    unchanged.  For [a/b], with no slash in [a] nor in [b], the C# name is
    the fixed prefix, [a] with its colons turned into dots, a dot, and [b]
    in Pascal case followed by "Interop". *)
Theorem csharp_interface_name_shape (w a b : string) :
  (count_char "/" w <> 1%nat ->
   convert_wit_to_csharp_full_interface_name w = w)
  /\ (all_chars (is_not "/") a = true -> all_chars (is_not "/") b = true ->
      convert_wit_to_csharp_full_interface_name (a ++ "/" ++ b)
      = "ApplicationWorld.wit.imports." ++ PyStr.replace ":" "." a ++ "."
          ++ convert_wit_to_cxx_function_name b ++ "Interop").
Proof.
  split.
  - intros H. unfold convert_wit_to_csharp_full_interface_name, PyStr.split.
    pose proof (split_char_length "/" w "") as L.
    destruct (PyStr.split_from "/" 0 "" w) as [|p0 [|p1 [|p2 l]]]; try reflexivity.
    simpl in L. congruence.
  - intros Ha Hb. unfold convert_wit_to_csharp_full_interface_name, PyStr.split.
    change ("/" ++ b) with (String "/" b).
    rewrite (split_char_app "/" a b "" Ha), (split_char_none "/" b "" Hb).
    reflexivity.
Qed.

Lemma csharp_interface_name_shape_witness :
  convert_wit_to_csharp_full_interface_name ("arieo:sample" ++ "/" ++ "i-sample")
  = "ApplicationWorld.wit.imports." ++ PyStr.replace ":" "." "arieo:sample" ++ "."
      ++ convert_wit_to_cxx_function_name "i-sample" ++ "Interop".
Proof.
  apply (proj2 (csharp_interface_name_shape "" "arieo:sample" "i-sample"));
    reflexivity.
Defined.

(** *** The interface path *)

Lemma last_part_snoc (l : list string) (x : string) :
  PyStr.last_part (l ++ [x])%list = x.
Proof. unfold PyStr.last_part. apply last_last. Qed.

Lemma lower_char_slash (c : ascii) :
  is_not "/" c = true ->
  (String (PyStr.lower_char c) "" =? "/")%string = false.
Proof. by_cases_on_char c. Qed.

Lemma interface_step_is_wit_step (package_name : string) (l : list string)
  (ch : ascii) :
  is_not "/" ch = true ->
  (l = [] \/ (PyStr.last_part l =? "/")%string = false) ->
  wit_interface_step ([package_name; "/"] ++ l)%list ch
  = ([package_name; "/"] ++ wit_step l ch)%list
    /\ (wit_step l ch = [] \/ (PyStr.last_part (wit_step l ch) =? "/")%string = false).
Proof.
  intros Hc Hl. unfold wit_interface_step, wit_step.
  destruct (Ascii.eqb ch "_"); [split; [reflexivity|exact Hl]|].
  assert (E : negb (is_empty ([package_name; "/"] ++ l)%list)
              && negb (PyStr.last_part ([package_name; "/"] ++ l)%list =? "/")%string
              = negb (is_empty l)).
  { destruct Hl as [->|Hl]; [reflexivity|].
    destruct l as [|x l]; [reflexivity|].
    assert (L : PyStr.last_part ([package_name; "/"] ++ x :: l)%list
                = PyStr.last_part (x :: l)).
    { unfold PyStr.last_part. cbn [app]. reflexivity. }
    rewrite L, Hl. reflexivity. }
  rewrite <- andb_assoc, E. split.
  - destruct (PyStr.isupper ch && negb (is_empty l));
      rewrite <- ?app_assoc; reflexivity.
  - right. rewrite last_part_snoc. now apply lower_char_slash.
Qed.

Lemma interface_loop_is_wit_loop (package_name : string) (s : string) :
  forall l,
    all_chars (is_not "/") s = true ->
    (l = [] \/ (PyStr.last_part l =? "/")%string = false) ->
    fold_left wit_interface_step (list_ascii_of_string s)
      ([package_name; "/"] ++ l)%list
    = ([package_name; "/"] ++ fold_left wit_step (list_ascii_of_string s) l)%list.
Proof.
  induction s as [|ch r IH]; intros l H Hl; [reflexivity|].
  cbn [all_chars] in H. apply andb_true_iff in H as [Hc Hr].
  cbn [list_ascii_of_string fold_left].
  destruct (interface_step_is_wit_step package_name l ch Hc Hl) as [-> Hl'].
  now apply IH.
Qed.

Lemma interface_format_kebab (package_name interface_name : string) :
  all_chars (is_not "/") interface_name = true ->
  convert_interface_name_to_wit_format package_name interface_name
  = package_name ++ "/" ++ convert_function_name_to_wit_format interface_name.
Proof.
  intros H. unfold convert_interface_name_to_wit_format,
    convert_function_name_to_wit_format.
  pose proof (interface_loop_is_wit_loop package_name interface_name [] H
                (or_introl eq_refl)) as L.
  cbn [app] in L. rewrite L. reflexivity.
Qed.

(** X7.  For an interface name without a slash, the WIT path is the package
    name as it is, a slash, and the kebab-case form of the interface name:
    the loop of [convert_interface_name_to_wit_format] does on the name
    what [convert_function_name_to_wit_format] does. *)
Theorem interface_path_is_package_and_kebab_name (package_name interface_name : string) :
  all_chars (is_not "/") interface_name = true ->
  convert_interface_name_to_wit_format package_name interface_name
  = package_name ++ "/" ++ convert_function_name_to_wit_format interface_name.
Proof. apply interface_format_kebab. Qed.

(** *** The type table *)

Lemma lookup_In {V : Type} (k : string) (t : list (string * V)) (v : V) :
  lookup k t = Some v -> In (k, v) t.
Proof.
  induction t as [|[k' v'] t IH]; simpl; [discriminate|].
  destruct (String.eqb_spec k k') as [->|_].
  - intros [= ->]. now left.
  - intros H. right. now apply IH.
Qed.

Lemma interface_path_is_package_and_kebab_name_witness :
  convert_interface_name_to_wit_format "arieo:sample" "ISample"
  = "arieo:sample" ++ "/" ++ convert_function_name_to_wit_format "ISample".
Proof. apply interface_path_is_package_and_kebab_name. reflexivity. Defined.

Ltac table_rows H :=
  apply lookup_In in H; unfold TYPE_CONVERSION_TABLE in H; cbv zeta in H;
  cbn [In] in H;
  repeat (destruct H as [H|H]; [injection H as <- <-|]); [..|contradiction].

Lemma convert_unknown_target (native_type target_language : string) :
  target_language <> "csharp" -> target_language <> "rust" ->
  convert_type_to_target_language native_type target_language = native_type.
Proof.
  intros Hc Hr. apply String.eqb_neq in Hc, Hr.
  unfold convert_type_to_target_language.
  destruct (lookup native_type TYPE_CONVERSION_TABLE) as [row|] eqn:Hrow;
    [|reflexivity].
  table_rows Hrow; cbn [lookup]; rewrite Hc, Hr; reflexivity.
Qed.

(** X8.  For a target language other than "csharp" and "rust" every type
    comes back unchanged, in the table or not: each row of the table has
    these two targets only. *)
Theorem unknown_target_language_keeps_type (native_type target_language : string) :
  target_language <> "csharp" -> target_language <> "rust" ->
  convert_type_to_target_language native_type target_language = native_type.
Proof. apply convert_unknown_target. Qed.

(** X9.  Converting a converted type to the same target changes nothing:
    no spelling the table produces for a target is mapped by the table to
    another spelling for that target. *)
Theorem type_conversion_is_idempotent (native_type target_language : string) :
  convert_type_to_target_language
    (convert_type_to_target_language native_type target_language) target_language
  = convert_type_to_target_language native_type target_language.
Proof.
  destruct (String.eqb_spec target_language "csharp") as [->|Hc].
  - unfold convert_type_to_target_language at 2 3.
    destruct (lookup native_type TYPE_CONVERSION_TABLE) as [row|] eqn:Hrow.
    + table_rows Hrow; reflexivity.
    + unfold convert_type_to_target_language. now rewrite Hrow.
  - destruct (String.eqb_spec target_language "rust") as [->|Hr].
    + unfold convert_type_to_target_language at 2 3.
      destruct (lookup native_type TYPE_CONVERSION_TABLE) as [row|] eqn:Hrow.
      * table_rows Hrow; reflexivity.
      * unfold convert_type_to_target_language. now rewrite Hrow.
    + now rewrite !convert_unknown_target.
Qed.

Lemma unknown_target_language_keeps_type_witness :
  convert_type_to_target_language "std::int32_t" "python" = "std::int32_t".
Proof. apply unknown_target_language_keeps_type; discriminate. Defined.

(** ** Namespaces made of segments *)

Lemma split_colons_step (c : ascii) (cur r : string) :
  is_not ":" c = true ->
  PyStr.split_from "::" O cur (String c r)
  = PyStr.split_from "::" O (String c cur) r.
Proof.
  intros Hc. unfold is_not in Hc. apply negb_true_iff in Hc.
  cbn [PyStr.split_from PyStr.startswith]. rewrite Ascii.eqb_sym, Hc. reflexivity.
Qed.

Lemma split_colons_none (s : string) : forall cur,
  all_chars (is_not ":") s = true ->
  PyStr.split_from "::" O cur s = [PyStr.rev_string "" cur ++ s].
Proof.
  induction s as [|c r IH]; intros cur H.
  - simpl. now rewrite append_empty_r.
  - cbn [all_chars] in H. apply andb_true_iff in H as [Hc Hr].
    rewrite (split_colons_step c cur r Hc), (IH _ Hr).
    cbn [PyStr.rev_string]. rewrite (rev_string_acc cur (String c "")).
    now rewrite append_assoc.
Qed.

Lemma split_colons_app (x y : string) : forall cur,
  all_chars (is_not ":") x = true ->
  PyStr.split_from "::" O cur (x ++ "::" ++ y)
  = (PyStr.rev_string "" cur ++ x) :: PyStr.split_from "::" O "" y.
Proof.
  induction x as [|c r IH]; intros cur H.
  - cbn [String.append]. rewrite append_empty_r. destruct y; reflexivity.
  - cbn [all_chars] in H. apply andb_true_iff in H as [Hc Hr].
    cbn [String.append]. rewrite (split_colons_step c cur _ Hc), (IH _ Hr).
    cbn [PyStr.rev_string]. rewrite (rev_string_acc cur (String c "")).
    now rewrite append_assoc.
Qed.

Lemma split_join_colons (segs : list string) :
  segs <> [] -> Forall segment segs ->
  PyStr.split "::" (PyStr.join_with "::" segs) = segs.
Proof.
  unfold PyStr.split. induction segs as [|s rest IH]; [congruence|].
  intros _ H. inversion H as [|? ? [_ Hs] Hrest]; subst.
  destruct rest as [|s' rest'].
  - cbn [PyStr.join_with]. now rewrite split_colons_none.
  - change (PyStr.join_with "::" (s :: s' :: rest'))
      with (s ++ "::" ++ PyStr.join_with "::" (s' :: rest')).
    rewrite (split_colons_app s _ "" Hs). cbn [PyStr.rev_string String.append].
    f_equal. apply IH; [discriminate|exact Hrest].
Qed.

Lemma replace_colons_step (c : ascii) (new r : string) :
  is_not ":" c = true ->
  PyStr.replace_from "::" new O (String c r)
  = String c (PyStr.replace_from "::" new O r).
Proof.
  intros Hc. unfold is_not in Hc. apply negb_true_iff in Hc.
  cbn [PyStr.replace_from PyStr.startswith]. rewrite Ascii.eqb_sym, Hc. reflexivity.
Qed.

Lemma replace_colons_none (new s : string) :
  all_chars (is_not ":") s = true -> PyStr.replace_from "::" new O s = s.
Proof.
  induction s as [|c r IH]; [reflexivity|].
  intros H. cbn [all_chars] in H. apply andb_true_iff in H as [Hc Hr].
  now rewrite (replace_colons_step c new r Hc), IH.
Qed.

Lemma replace_colons_app (new x y : string) :
  all_chars (is_not ":") x = true ->
  PyStr.replace_from "::" new O (x ++ "::" ++ y)
  = x ++ new ++ PyStr.replace_from "::" new O y.
Proof.
  induction x as [|c r IH]; intros H.
  - cbn [String.append]. destruct y; reflexivity.
  - cbn [all_chars] in H. apply andb_true_iff in H as [Hc Hr].
    change (String c r ++ "::" ++ y) with (String c (r ++ "::" ++ y)).
    now rewrite (replace_colons_step c new _ Hc), IH.
Qed.

Lemma replace_join_colons (new : string) (segs : list string) :
  Forall segment segs ->
  PyStr.replace "::" new (PyStr.join_with "::" segs) = PyStr.join_with new segs.
Proof.
  unfold PyStr.replace. induction segs as [|s rest IH]; [reflexivity|].
  intros H. inversion H as [|? ? [_ Hs] Hrest]; subst.
  destruct rest as [|s' rest'].
  - cbn [PyStr.join_with]. now apply replace_colons_none.
  - change (PyStr.join_with "::" (s :: s' :: rest'))
      with (s ++ "::" ++ PyStr.join_with "::" (s' :: rest')).
    change (PyStr.join_with new (s :: s' :: rest'))
      with (s ++ new ++ PyStr.join_with new (s' :: rest')).
    rewrite (replace_colons_app new s _ Hs). now rewrite (IH Hrest).
Qed.

Lemma join_with_nonempty (sep : string) (segs : list string) :
  segs <> [] -> Forall segment segs -> PyStr.join_with sep segs <> "".
Proof.
  destruct segs as [|s rest]; [congruence|]. intros _ H.
  inversion H as [|? ? [Hne _] _]; subst.
  destruct s as [|c s]; [congruence|].
  destruct rest; cbn [PyStr.join_with]; discriminate.
Qed.

(** X10.  For a root namespace [A::B::C] made of non-empty segments
    without colons, the document gets the namespace itself, its dotted form
    [A.B.C], the lower-cased dotted form, and the last segment [C] three
    times, the third lower-cased. *)
Theorem root_namespace_variants (segs : list string) :
  segs <> [] -> Forall segment segs ->
  let root := PyStr.join_with "::" segs in
  let last := List.last segs "" in
  root_namespace_fields (Some root)
  = [ ("root_namespace", JStr root);
      ("root_namespace_dotnet", JStr (PyStr.join_with "." segs));
      ("root_namespace_rust", JStr (PyStr.lower (PyStr.join_with "." segs)));
      ("root_namespace_last", JStr last);
      ("root_namespace_dotnet_last", JStr last);
      ("root_namespace_rust_last", JStr (PyStr.lower last)) ].
Proof.
  intros Hne Hs. cbv zeta. unfold root_namespace_fields.
  rewrite (if_str_some _ (join_with_nonempty "::" segs Hne Hs)).
  rewrite (split_join_colons segs Hne Hs), (replace_join_colons "." segs Hs).
  reflexivity.
Qed.

Lemma root_namespace_variants_witness :
  root_namespace_fields (Some "Arieo::Interface::Sample")
  = [ ("root_namespace", JStr "Arieo::Interface::Sample");
      ("root_namespace_dotnet", JStr "Arieo.Interface.Sample");
      ("root_namespace_rust", JStr "arieo.interface.sample");
      ("root_namespace_last", JStr "Sample");
      ("root_namespace_dotnet_last", JStr "Sample");
      ("root_namespace_rust_last", JStr "sample") ].
Proof.
  refine (root_namespace_variants ["Arieo"; "Interface"; "Sample"] _ _).
  - discriminate.
  - repeat constructor; discriminate.
Defined.

(** ** The names derived for an interface *)

Lemma find_slash_app (p k : string) :
  PyStr.contains "/" (p ++ String "/" k) = true.
Proof.
  unfold PyStr.contains. induction p as [|c p IH].
  - reflexivity.
  - cbn [String.append PyStr.find].
    destruct (PyStr.startswith "/" (String c (p ++ String "/" k))); [reflexivity|].
    destruct (PyStr.find "/" (p ++ String "/" k)); [reflexivity|discriminate IH].
Qed.

Lemma split_from_nonempty (sep : string) (s : string) : forall skip cur,
  PyStr.split_from sep skip cur s <> [].
Proof.
  induction s as [|c r IH]; intros skip cur; simpl; [discriminate|].
  destruct skip; [|apply IH].
  destruct (PyStr.startswith sep (String c r)); [discriminate|apply IH].
Qed.

Lemma last_cons_nonempty {A : Type} (x d : A) (l : list A) :
  l <> [] -> List.last (x :: l) d = List.last l d.
Proof. destruct l; [congruence|reflexivity]. Qed.

Lemma last_split_slash (p k : string) : forall cur,
  all_chars (is_not "/") k = true ->
  PyStr.last_part (PyStr.split_from "/" O cur (p ++ String "/" k)) = k.
Proof.
  unfold PyStr.last_part. induction p as [|c p IH]; intros cur Hk.
  - cbn [String.append]. rewrite split_from_char, Ascii.eqb_refl.
    now rewrite (split_char_none "/" k "" Hk).
  - cbn [String.append]. rewrite split_from_char.
    destruct (Ascii.eqb "/" c); [|now apply IH].
    rewrite last_cons_nonempty by apply split_from_nonempty. now apply IH.
Qed.

Lemma last_part_after_slash (p k : string) :
  all_chars (is_not "/") k = true ->
  PyStr.last_part (PyStr.split "/" (p ++ String "/" k)) = k.
Proof. apply last_split_slash. Qed.

Lemma kept_char_slash (ch : ascii) :
  is_not "/" ch = true -> is_not "/" (PyStr.lower_char ch) = true.
Proof. by_cases_on_char ch. Qed.

Lemma kebab_from_keeps_slash_free (s : string) : forall out,
  all_chars (is_not "/") s = true -> all_chars (is_not "/") out = true ->
  all_chars (is_not "/") (kebab_from out s) = true.
Proof.
  induction s as [|ch r IH]; intros out Hs H; simpl; [exact H|].
  cbn [all_chars] in Hs. apply andb_true_iff in Hs as [Hc Hr].
  destruct (Ascii.eqb ch "_"); [now apply IH|].
  apply IH; [exact Hr|]. rewrite all_chars_app. simpl.
  rewrite (kept_char_slash ch Hc).
  destruct (PyStr.isupper ch && negb (out =? "")%string);
    rewrite ?all_chars_app, H; reflexivity.
Qed.

Lemma join_with_snoc (sep x : string) (segs : list string) :
  segs <> [] ->
  PyStr.join_with sep (segs ++ [x])%list = PyStr.join_with sep segs ++ sep ++ x.
Proof.
  induction segs as [|s rest IH]; [congruence|]. intros _.
  destruct rest as [|s' rest'].
  - reflexivity.
  - change (PyStr.join_with sep ((s :: s' :: rest') ++ [x])%list)
      with (s ++ sep ++ PyStr.join_with sep ((s' :: rest') ++ [x])%list).
    rewrite IH by discriminate.
    change (PyStr.join_with sep (s :: s' :: rest'))
      with (s ++ sep ++ PyStr.join_with sep (s' :: rest')).
    now rewrite !append_assoc.
Qed.

Lemma interface_names_assigned (package name : string) (segs : list string)
  (ctx : wit_context) :
  segs <> [] -> Forall segment segs -> segment name ->
  all_chars (is_not "/") name = true ->
  let root := PyStr.join_with "::" segs in
  let kebab := convert_function_name_to_wit_format name in
  let assigned := assign_all (fst (interface_fields package (Some root) name ctx)) [] in
  get "wit_interface_fullname" assigned = Some (JStr (package ++ "/" ++ kebab))
  /\ get "wit_interface_name" assigned = Some (JStr kebab)
  /\ get "wasm_cxx_interface_fullname" assigned = Some (JStr (root ++ "::" ++ name))
  /\ get "wasm_cxx_interface_name" assigned = Some (JStr name)
  /\ get "wasm_csharp_interface_name" assigned = Some (JStr name)
  /\ get "wasm_rust_interface_fullname" assigned
     = Some (JStr ("crate::" ++ PyStr.lower root ++ "::" ++ name))
  /\ get "wasm_rust_interface_name" assigned = Some (JStr name)
  /\ get "wasm_cxx_namespace_fullname" assigned = Some (JStr root)
  /\ get "wasm_dotnet_script_namespace_fullname" assigned
     = Some (JStr (PyStr.join_with "." segs))
  /\ get "wasm_rust_namespace_fullname" assigned
     = Some (JStr (PyStr.lower (PyStr.join_with "." segs))).
Proof.
  intros Hne Hs Hn Hslash. cbv zeta. unfold interface_fields. cbv zeta.
  rewrite (if_str_some _ (join_with_nonempty "::" segs Hne Hs)). cbn [fst].
  rewrite (interface_format_kebab package name Hslash).
  change (package ++ "/" ++ convert_function_name_to_wit_format name)
    with (package ++ String "/" (convert_function_name_to_wit_format name)).
  rewrite find_slash_app.
  rewrite last_part_after_slash
    by (rewrite wit_format_kebab; now apply kebab_from_keeps_slash_free).
  rewrite <- (join_with_snoc "::" name segs Hne).
  rewrite split_join_colons
    by (try (apply Forall_app; split; [exact Hs|now constructor]);
        destruct segs; discriminate).
  rewrite last_part_snoc.
  rewrite !(replace_join_colons _ segs Hs).
  rewrite !get_assign_all, !rev_app_distr.
  rewrite (join_with_snoc "::" name segs Hne).
  repeat split; reflexivity.
Qed.

(** X11.  For a named [CXXRecordDecl] node, a non-empty package name and a
    root namespace [A::B::C] of segments, the walker stores: the WIT path
    [package/kebab-name] and its last part [kebab-name]; the C++ name
    [A::B::C::Name] and its last part [Name]; the Rust name
    [crate::a::b::c::Name], the root namespace lower-cased and the name as
    it is; the interface name under the C# and Rust name keys; and the root
    namespace as it is, dotted, and dotted in lower case. *)
Theorem interface_derived_names (package name : string) (segs : list string)
  (ctx : wit_context) (d : dict) :
  kind_is "CXXRecordDecl" d = true ->
  get "name" d = Some (JStr name) ->
  package <> "" ->
  segs <> [] -> Forall segment segs -> segment name ->
  all_chars (is_not "/") name = true ->
  well_typed (JObj d) = true ->
  let root := PyStr.join_with "::" segs in
  let kebab := convert_function_name_to_wit_format name in
  exists r,
    add_wit_format_names_recursive (Some package) (Some root) ctx (JObj d)
    = Ok (JObj r)
    /\ get "wit_interface_fullname" r = Some (JStr (package ++ "/" ++ kebab))
    /\ get "wit_interface_name" r = Some (JStr kebab)
    /\ get "wasm_cxx_interface_fullname" r = Some (JStr (root ++ "::" ++ name))
    /\ get "wasm_cxx_interface_name" r = Some (JStr name)
    /\ get "wasm_csharp_interface_name" r = Some (JStr name)
    /\ get "wasm_rust_interface_fullname" r
       = Some (JStr ("crate::" ++ PyStr.lower root ++ "::" ++ name))
    /\ get "wasm_rust_interface_name" r = Some (JStr name)
    /\ get "wasm_cxx_namespace_fullname" r = Some (JStr root)
    /\ get "wasm_dotnet_script_namespace_fullname" r
       = Some (JStr (PyStr.join_with "." segs))
    /\ get "wasm_rust_namespace_fullname" r
       = Some (JStr (PyStr.lower (PyStr.join_with "." segs))).
Proof.
  intros Hk Hn Hp Hne Hs Hname Hslash Hw. cbv zeta.
  destruct (wit_pass_good (Some package) (Some (PyStr.join_with "::" segs))
              (JObj d) ctx Hw) as (j & Hj & _ & Ht).
  destruct j; try discriminate Ht. exists fields. split; [exact Hj|].
  cbn [add_wit_format_names_recursive] in Hj.
  rewrite (wit_node_interface package _ name ctx d Hk Hn (proj1 Hname) Hp) in Hj.
  cbn [bind] in Hj.
  match type of Hj with
  | bind ?w _ = _ => destruct w as [d'| |] eqn:Hwalk; try discriminate Hj
  end.
  cbn [bind] in Hj. injection Hj as <-.
  destruct (interface_names_assigned package name segs (push_namespace d ctx)
              Hne Hs Hname Hslash)
    as (G1 & G2 & G3 & G4 & G5 & G6 & G7 & G8 & G9 & G10).
  rewrite (assign_then_walk_get _ _ _ _ _ _ Hwalk G1),
    (assign_then_walk_get _ _ _ _ _ _ Hwalk G2),
    (assign_then_walk_get _ _ _ _ _ _ Hwalk G3),
    (assign_then_walk_get _ _ _ _ _ _ Hwalk G4),
    (assign_then_walk_get _ _ _ _ _ _ Hwalk G5),
    (assign_then_walk_get _ _ _ _ _ _ Hwalk G6),
    (assign_then_walk_get _ _ _ _ _ _ Hwalk G7),
    (assign_then_walk_get _ _ _ _ _ _ Hwalk G8),
    (assign_then_walk_get _ _ _ _ _ _ Hwalk G9),
    (assign_then_walk_get _ _ _ _ _ _ Hwalk G10).
  repeat split; reflexivity.
Qed.

Lemma interface_derived_names_witness :
  exists r,
    add_wit_format_names_recursive (Some "arieo:sample")
      (Some "Arieo::Interface::Sample") initial_context
      (JObj (sample_interface "ISample" []))
    = Ok (JObj r)
    /\ get "wit_interface_fullname" r = Some (JStr "arieo:sample/i-sample")
    /\ get "wit_interface_name" r = Some (JStr "i-sample")
    /\ get "wasm_cxx_interface_fullname" r
       = Some (JStr "Arieo::Interface::Sample::ISample")
    /\ get "wasm_rust_interface_fullname" r
       = Some (JStr "crate::arieo::interface::sample::ISample")
    /\ get "wasm_dotnet_script_namespace_fullname" r
       = Some (JStr "Arieo.Interface.Sample").
Proof.
  destruct (interface_derived_names "arieo:sample" "ISample"
              ["Arieo"; "Interface"; "Sample"] initial_context
              (sample_interface "ISample" []))
    as (r & H & G1 & G2 & G3 & _ & _ & G6 & _ & _ & G9 & _);
    try reflexivity; try discriminate.
  - repeat constructor; discriminate.
  - split; [discriminate|reflexivity].
  - exists r. repeat split; assumption.
Defined.

(** ** A method inside an interface *)

Lemma mapM_nth {A B : Type} (f : A -> result B) (l : list A) : forall l' i x,
  mapM f l = Ok l' -> nth_error l i = Some x ->
  exists x', f x = Ok x' /\ nth_error l' i = Some x'.
Proof.
  induction l as [|a l IH]; intros l' i x H Hn.
  - destruct i; discriminate Hn.
  - simpl in H. destruct (f a) as [b| |] eqn:Hb; try discriminate H.
    simpl in H. destruct (mapM f l) as [bs| |] eqn:Hbs; try discriminate H.
    simpl in H. injection H as <-.
    destruct i as [|i]; simpl in Hn.
    + injection Hn as <-. exists b. now split.
    + destruct (IH bs i x eq_refl Hn) as (x' & Hx & Hn'). exists x'. now split.
Qed.

Lemma push_namespace_other (d : dict) (ctx : wit_context) (k : string) :
  kind_is k d = true -> k <> "NamespaceDecl" -> push_namespace d ctx = ctx.
Proof.
  intros Hk Hne. unfold push_namespace.
  now rewrite (kind_is_exclusive k "NamespaceDecl" d Hk Hne).
Qed.

Lemma wit_node_method_exact (package_name root_namespace : option string)
  (ctx : wit_context) (m : dict) (func_name : string) :
  kind_is "CXXMethodDecl" m = true ->
  get "name" m = Some (JStr func_name) -> func_name <> "" ->
  wit_node package_name root_namespace ctx m
  = (fields <- method_fields func_name m ctx ;; Ok (fields, ctx)).
Proof.
  intros Hk Hn Hne. unfold wit_node. cbv zeta.
  rewrite (push_namespace_other m ctx _ Hk) by discriminate.
  rewrite (kind_is_exclusive _ "CXXRecordDecl" _ Hk) by discriminate.
  cbn [bind]. rewrite Hk, (classify_name_str m func_name Hn Hne). cbn [bind].
  reflexivity.
Qed.

Lemma append_nonempty_l (a b : string) : a <> "" -> a ++ b <> "".
Proof. destruct a; [congruence|discriminate]. Qed.

Lemma append_nonempty_r (a b : string) : b <> "" -> a ++ b <> "".
Proof. intros H E. apply append_eq_empty in E as [_ E]. contradiction. Qed.

Lemma method_names_assigned (func_name : string) (m : dict) (ctx : wit_context)
  (fields : dict) (qualified cxx csharp : string) :
  method_fields func_name m ctx = Ok fields ->
  parent_interface_qualified_name ctx = Some qualified -> qualified <> "" ->
  parent_wasm_cxx_interface_fullname ctx = Some cxx -> cxx <> "" ->
  parent_wasm_csharp_interface_name ctx = Some csharp -> csharp <> "" ->
  let assigned := assign_all fields [] in
  get "function_name_hash" assigned
  = Some (JNum (calculate_name_hash (qualified ++ "::" ++ func_name)))
  /\ get "function_id" assigned
     = Some (JNum (calculate_name_hash (qualified ++ "::" ++ func_name)))
  /\ get "wasm_cxx_function_fullname" assigned
     = Some (JStr (cxx ++ "::" ++ func_name))
  /\ get "wasm_csharp_function_fullname" assigned
     = Some (JStr (csharp ++ "." ++ func_name)).
Proof.
  intros H Hq Hqne Hc Hcne Hs Hsne. cbv zeta. revert H.
  unfold method_fields, fullname_field. cbv zeta.
  rewrite Hq, Hc, Hs.
  rewrite (if_str_some _ Hqne), (if_str_some _ Hcne), (if_str_some _ Hsne).
  destruct (checksum_parameters m) as [ps| |]; cbn [bind]; try discriminate.
  intros [= <-]. rewrite !get_assign_all.
  destruct (if_str (parent_wit_interface_fullname ctx));
    destruct (if_str (parent_witgen_cxx_interface_fullname ctx));
    destruct (if_str (parent_witgen_csharp_interface_fullname ctx));
    destruct (if_str (parent_witgen_rust_interface_fullname ctx));
    destruct (if_str (parent_wasm_rust_interface_fullname ctx));
    repeat split; reflexivity.
Qed.

Lemma interface_context (package root name : string) (ctx : wit_context) :
  root <> "" ->
  let ctx' := snd (interface_fields package (Some root) name ctx) in
  parent_interface_qualified_name ctx' = Some ("::" ++ root ++ "::" ++ name)
  /\ parent_wasm_cxx_interface_fullname ctx' = Some (root ++ "::" ++ name)
  /\ parent_wasm_csharp_interface_name ctx' = Some name
  /\ get "inner" (assign_all (fst (interface_fields package (Some root) name ctx)) [])
     = None.
Proof.
  intros Hr. cbv zeta. unfold interface_fields. cbv zeta.
  rewrite (if_str_some root Hr). cbn [fst snd].
  rewrite get_assign_all, rev_app_distr. repeat split; reflexivity.
Qed.

(** X12.  A named method that is a direct child of a named interface,
    visited with a package name and a root namespace, gets the hash of
    ["::" + root + "::" + interface + "::" + method] as [function_name_hash]
    and [function_id], [root::interface::method] as its C++ full name and
    [interface.method] as its C# full name: the names of the interface
    reach its children. *)
Theorem method_inherits_interface_names (package root name func_name : string)
  (ctx : wit_context) (d m : dict) (inner : list json) (i : nat) :
  kind_is "CXXRecordDecl" d = true ->
  get "name" d = Some (JStr name) ->
  name <> "" -> package <> "" -> root <> "" ->
  get "inner" d = Some (JArr inner) ->
  nth_error inner i = Some (JObj m) ->
  kind_is "CXXMethodDecl" m = true ->
  get "name" m = Some (JStr func_name) -> func_name <> "" ->
  well_typed (JObj d) = true ->
  let qualified := "::" ++ root ++ "::" ++ name ++ "::" ++ func_name in
  exists r m',
    add_wit_format_names_recursive (Some package) (Some root) ctx (JObj d)
    = Ok (JObj r)
    /\ nth_error (inner_list r) i = Some (JObj m')
    /\ get "function_name_hash" m' = Some (JNum (calculate_name_hash qualified))
    /\ get "function_id" m' = Some (JNum (calculate_name_hash qualified))
    /\ get "wasm_cxx_function_fullname" m'
       = Some (JStr (root ++ "::" ++ name ++ "::" ++ func_name))
    /\ get "wasm_csharp_function_fullname" m' = Some (JStr (name ++ "." ++ func_name)).
Proof.
  intros Hk Hn Hne Hp Hr Hi Hnth Hmk Hmn Hmne Hw. cbv zeta.
  destruct (wit_pass_good (Some package) (Some root) (JObj d) ctx Hw)
    as (j & Hj & _ & Ht).
  destruct j as [| | | | |r]; try discriminate Ht. exists r.
  pose proof Hj as Hpass.
  cbn [add_wit_format_names_recursive] in Hj.
  rewrite (wit_node_interface package root name ctx d Hk Hn Hne Hp) in Hj.
  cbn [bind] in Hj.
  rewrite (push_namespace_other d ctx _ Hk) in Hj by discriminate.
  match type of Hj with
  | bind ?w _ = _ => destruct w as [d'| |] eqn:Hwalk; try discriminate Hj
  end.
  cbn [bind] in Hj. injection Hj as <-.
  destruct (interface_context package root name ctx Hr) as (Cq & Cc & Cs & Cinner).
  pose proof (assign_then_walk_keep _ _ _ _ "inner" Hwalk Cinner) as K.
  rewrite Hi in K. destruct K as (v' & Hv & Hget).
  cbn [add_wit_format_names_recursive] in Hv.
  match type of Hv with
  | bind ?w _ = _ => destruct w as [inner'| |] eqn:Hmap; try discriminate Hv
  end.
  cbn [bind] in Hv. injection Hv as <-.
  destruct (mapM_nth _ _ _ _ _ Hmap Hnth) as (x' & Hx & Hnth').
  cbn [add_wit_format_names_recursive] in Hx.
  rewrite (wit_node_method_exact _ _ _ m func_name Hmk Hmn Hmne) in Hx.
  destruct (method_fields func_name m _) as [fields| |] eqn:Hf; try discriminate Hx.
  cbn [bind fst snd] in Hx.
  match type of Hx with
  | bind ?w _ = _ => destruct w as [m'| |] eqn:Hmwalk; try discriminate Hx
  end.
  cbn [bind] in Hx. injection Hx as <-. exists m'.
  split; [exact Hpass|]. split.
  { unfold inner_list. now rewrite Hget. }
  destruct (method_names_assigned func_name m _ fields _ _ _ Hf Cq
              ltac:(discriminate) Cc (append_nonempty_l _ _ Hr) Cs Hne)
    as (G1 & G2 & G3 & G4).
  rewrite (assign_then_walk_get _ _ _ _ _ _ Hmwalk G1),
    (assign_then_walk_get _ _ _ _ _ _ Hmwalk G2),
    (assign_then_walk_get _ _ _ _ _ _ Hmwalk G3),
    (assign_then_walk_get _ _ _ _ _ _ Hmwalk G4).
  rewrite !append_assoc. repeat split; reflexivity.
Qed.

Lemma method_inherits_interface_names_witness :
  exists r m',
    add_wit_format_names_recursive (Some "arieo:sample")
      (Some "Arieo::Interface::Sample") initial_context
      (JObj (sample_interface "ISample"
               [JObj (sample_method "DoSomething1" "void (int)"
                        [sample_parameter "count" "int"])]))
    = Ok (JObj r)
    /\ nth_error (inner_list r) 0 = Some (JObj m')
    /\ get "function_id" m'
       = Some (JNum (calculate_name_hash
                       "::Arieo::Interface::Sample::ISample::DoSomething1"))
    /\ get "wasm_cxx_function_fullname" m'
       = Some (JStr "Arieo::Interface::Sample::ISample::DoSomething1")
    /\ get "wasm_csharp_function_fullname" m' = Some (JStr "ISample.DoSomething1").
Proof.
  destruct (method_inherits_interface_names "arieo:sample"
              "Arieo::Interface::Sample" "ISample" "DoSomething1" initial_context
              (sample_interface "ISample"
                 [JObj (sample_method "DoSomething1" "void (int)"
                          [sample_parameter "count" "int"])])
              (sample_method "DoSomething1" "void (int)"
                 [sample_parameter "count" "int"])
              [JObj (sample_method "DoSomething1" "void (int)"
                       [sample_parameter "count" "int"])] 0)
    as (r & m' & H & Hn & _ & G2 & G3 & G4); try reflexivity; try discriminate.
  exists r, m'. repeat split; assumption.
Defined.

(** ** The stack of namespace names *)

Lemma walk_fields_ext (f g : json -> result json) (assigned d : dict) :
  Forall (fun kv => f (snd kv) = g (snd kv)) d ->
  walk_fields f assigned d = walk_fields g assigned d.
Proof.
  induction 1 as [|[k v] d Hv _ IH]; simpl; [reflexivity|].
  simpl in Hv. now rewrite Hv, IH.
Qed.

Lemma mapM_ext {A B : Type} (f g : A -> result B) (l : list A) :
  Forall (fun x => f x = g x) l -> mapM f l = mapM g l.
Proof.
  induction 1 as [|x l Hx _ IH]; simpl; [reflexivity|]. now rewrite Hx, IH.
Qed.

Lemma wit_node_stack (package_name root_namespace : option string)
  (stack : list json) (ctx : wit_context) (d : dict) :
  exists stack',
    wit_node package_name root_namespace (with_stack stack ctx) d
    = (ac <- wit_node package_name root_namespace ctx d ;;
       Ok (fst ac, with_stack stack' (snd ac))).
Proof.
  destruct ctx as [s0 q w c1 c2 c3 c4 c5 c6].
  unfold wit_node, push_namespace, with_stack, interface_fields, method_fields,
    fullname_field. cbv zeta. cbn [namespace_stack parent_interface_qualified_name
    parent_wit_interface_fullname parent_witgen_cxx_interface_fullname
    parent_witgen_csharp_interface_fullname parent_witgen_rust_interface_fullname
    parent_wasm_cxx_interface_fullname parent_wasm_csharp_interface_name
    parent_wasm_rust_interface_fullname].
  destruct (kind_is "NamespaceDecl" d);
    [destruct (truthy (get_or_none "name" d))|];
    (destruct (kind_is "CXXRecordDecl" d);
     [destruct (if_str package_name);
      [destruct (classify_name (get_or_none "name" d)) as [[nm|]| |];
       [destruct (if_str root_namespace)| | |]|]|]);
    cbn [bind fst snd];
    try (exists (@nil json); reflexivity);
    (destruct (kind_is "CXXMethodDecl" d);
     [destruct (classify_name (get_or_none "name" d)) as [[fn|]| |]|]);
    try destruct (checksum_parameters d);
    cbn [bind fst snd namespace_stack parent_interface_qualified_name
      parent_wit_interface_fullname parent_witgen_cxx_interface_fullname
      parent_witgen_csharp_interface_fullname parent_witgen_rust_interface_fullname
      parent_wasm_cxx_interface_fullname parent_wasm_csharp_interface_name
      parent_wasm_rust_interface_fullname];
    first [exists (@nil json); reflexivity | eexists; reflexivity].
Qed.

Lemma wit_pass_stack (package_name root_namespace : option string) (j : json) :
  forall stack ctx,
    add_wit_format_names_recursive package_name root_namespace
      (with_stack stack ctx) j
    = add_wit_format_names_recursive package_name root_namespace ctx j.
Proof.
  induction j as [| | | |l IH|d IH] using json_ind'; intros stack ctx;
    try reflexivity.
  - cbn [add_wit_format_names_recursive]. f_equal.
    apply mapM_ext. eapply Forall_impl; [|exact IH]. intros x Hx. apply Hx.
  - cbn [add_wit_format_names_recursive].
    destruct (wit_node_stack package_name root_namespace stack ctx d) as [s' ->].
    destruct (wit_node package_name root_namespace ctx d) as [[fields ctx']| |];
      cbn [bind fst snd]; try reflexivity.
    unfold assign_then_walk.
    rewrite (walk_fields_ext
               (add_wit_format_names_recursive package_name root_namespace
                  (with_stack s' ctx'))
               (add_wit_format_names_recursive package_name root_namespace ctx')).
    + reflexivity.
    + eapply Forall_impl; [|exact IH]. intros kv Hkv. apply Hkv.
Qed.

(** X13.  The stack of namespace names that the walker builds from the
    [NamespaceDecl] nodes has no effect on its result: with any other stack
    in the context, every tree gets the same outcome. *)
Theorem namespace_stack_is_ignored (package_name root_namespace : option string)
  (stack : list json) (ctx : wit_context) (j : json) :
  add_wit_format_names_recursive package_name root_namespace
    (with_stack stack ctx) j
  = add_wit_format_names_recursive package_name root_namespace ctx j.
Proof. apply wit_pass_stack. Qed.

(** ** The annotation text *)

Lemma span_word_spec (s : string) :
  s = fst (span_word s) ++ snd (span_word s)
  /\ all_chars is_word_char (fst (span_word s)) = true.
Proof.
  induction s as [|c r [IH1 IH2]]; simpl; [split; reflexivity|].
  destruct (is_word_char c) eqn:Hc.
  - destruct (span_word r) as [w t]. simpl in *. rewrite Hc, IH2.
    split; [now f_equal|reflexivity].
  - split; reflexivity.
Qed.

Lemma match_metadata_word (s w : string) :
  match_metadata s = Some w -> w <> "" /\ all_chars is_word_char w = true.
Proof.
  unfold match_metadata.
  destruct (PyStr.startswith "METADATA" s); [|discriminate].
  destruct (PyStr.lstrip (PyStr.drop 8 s)) as [|c r1]; [discriminate|].
  destruct (Ascii.eqb_spec c "("); [subst|].
  - pose proof (span_word_spec (PyStr.lstrip r1)) as [_ Hw].
    destruct (span_word (PyStr.lstrip r1)) as [w0 r2]. simpl in Hw.
    destruct w0 as [|a w0]; [discriminate|].
    destruct (PyStr.lstrip r2) as [|c2 r3]; [discriminate|].
    destruct (Ascii.eqb_spec c2 ")"); [subst|].
    + intros [= <-]. split; [discriminate|exact Hw].
    + destruct c2 as [[] [] [] [] [] [] [] []]; try discriminate; congruence.
  - destruct c as [[] [] [] [] [] [] [] []]; try discriminate; congruence.
Qed.

Lemma search_metadata_word (s w : string) :
  search_metadata s = Some w ->
  w <> "" /\ all_chars is_word_char w = true.
Proof.
  induction s as [|c r IH]; cbn [search_metadata].
  - destruct (match_metadata "") eqn:E; [|discriminate].
    intros [= <-]. now apply match_metadata_word with "".
  - destruct (match_metadata (String c r)) eqn:E.
    + intros [= <-]. now apply match_metadata_word with (String c r).
    + exact IH.
Qed.

(** X14.  When [extract_annotation_text] returns a text, the source file
    was read, the line number is an integer between 1 and the number of
    lines, the text is what the search for the macro finds in that line, and
    it is a non-empty run of letters, digits and underscores. *)
Theorem annotation_text_is_an_identifier (source_lines : option (list string))
  (line col : json) (w : string) :
  extract_annotation_text source_lines line col = Some w ->
  exists lines n line_content,
    source_lines = Some lines
    /\ key_number line = Some n
    /\ 1 <= n <= Z.of_nat (List.length lines)
    /\ nth_error lines (Z.to_nat (n - 1)) = Some line_content
    /\ search_metadata line_content = Some w
    /\ w <> "" /\ all_chars is_word_char w = true.
Proof.
  unfold extract_annotation_text.
  destruct source_lines as [lines|]; [|discriminate].
  assert (G : forall n,
    (if (n <? 1) || (Z.of_nat (List.length lines) <? n) then None
     else match nth_error lines (Z.to_nat (n - 1)) with
          | Some line_content => search_metadata line_content
          | None => None
          end) = Some w ->
    exists line_content,
      1 <= n <= Z.of_nat (List.length lines)
      /\ nth_error lines (Z.to_nat (n - 1)) = Some line_content
      /\ search_metadata line_content = Some w
      /\ w <> "" /\ all_chars is_word_char w = true).
  { intros n. destruct (Z.ltb_spec n 1); [discriminate|].
    destruct (Z.ltb_spec (Z.of_nat (List.length lines)) n); [discriminate|].
    simpl. destruct (nth_error lines (Z.to_nat (n - 1))) as [lc|]; [|discriminate].
    intros Hs. exists lc. split; [lia|]. split; [reflexivity|].
    split; [exact Hs|]. now apply search_metadata_word with lc. }
  destruct line; try discriminate; intros H; apply G in H as (lc & H);
    eexists lines, _, lc; (split; [reflexivity|]); (split; [reflexivity|]); exact H.
Qed.

Lemma annotation_text_is_an_identifier_witness :
  exists lines n line_content,
    Some ["  METADATA(EXPORT_TO_SCRIPT)"] = Some lines
    /\ key_number (JNum 1) = Some n
    /\ 1 <= n <= Z.of_nat (List.length lines)
    /\ nth_error lines (Z.to_nat (n - 1)) = Some line_content
    /\ search_metadata line_content = Some "EXPORT_TO_SCRIPT"
    /\ "EXPORT_TO_SCRIPT" <> "" /\ all_chars is_word_char "EXPORT_TO_SCRIPT" = true.
Proof.
  apply (annotation_text_is_an_identifier
           (Some ["  METADATA(EXPORT_TO_SCRIPT)"]) (JNum 1) (JNum 3)).
  reflexivity.
Defined.

Lemma lstrip_space_app (ws x : string) :
  all_chars PyStr.isspace ws = true -> PyStr.lstrip (ws ++ x) = PyStr.lstrip x.
Proof.
  induction ws as [|c r IH]; simpl; [reflexivity|].
  intros H. apply andb_true_iff in H as [Hc Hr]. now rewrite Hc, IH.
Qed.

Lemma space_is_no_word_char (c : ascii) :
  PyStr.isspace c = true -> is_word_char c = false.
Proof. by_cases_on_char c. Qed.

Lemma word_char_is_no_space (c : ascii) :
  is_word_char c = true -> PyStr.isspace c = false.
Proof. by_cases_on_char c. Qed.

Lemma span_word_app (w rest : string) :
  all_chars is_word_char w = true ->
  (forall c, first_char rest = Some c -> is_word_char c = false) ->
  span_word (w ++ rest) = (w, rest).
Proof.
  intros Hw Hr. induction w as [|c r IH]; cbn [String.append].
  - destruct rest as [|c r]; [reflexivity|]. simpl. now rewrite (Hr c eq_refl).
  - simpl in Hw. apply andb_true_iff in Hw as [Hc Hw]. simpl.
    now rewrite Hc, (IH Hw).
Qed.

Lemma match_metadata_found (ws1 ws2 w ws3 post : string) :
  all_chars PyStr.isspace ws1 = true ->
  all_chars PyStr.isspace ws2 = true ->
  all_chars PyStr.isspace ws3 = true ->
  w <> "" -> all_chars is_word_char w = true ->
  match_metadata ("METADATA" ++ ws1 ++ "(" ++ ws2 ++ w ++ ws3 ++ ")" ++ post)
  = Some w.
Proof.
  intros H1 H2 H3 Hne Hw. unfold match_metadata.
  rewrite startswith_app.
  change (PyStr.drop 8 ("METADATA" ++ ?x)) with x.
  rewrite (lstrip_space_app ws1 _ H1).
  change (PyStr.lstrip ("(" ++ ?x)) with (String "("%char x).
  cbv beta iota.
  rewrite (lstrip_space_app ws2 _ H2).
  destruct w as [|a w]; [congruence|].
  assert (Ha : PyStr.isspace a = false).
  { simpl in Hw. apply andb_true_iff in Hw as [Ha _].
    now apply word_char_is_no_space. }
  assert (L : PyStr.lstrip (String a w ++ ws3 ++ ")" ++ post)
              = String a w ++ ws3 ++ ")" ++ post).
  { cbn [String.append PyStr.lstrip]. now rewrite Ha. }
  rewrite L, span_word_app.
  - rewrite (lstrip_space_app ws3 _ H3). reflexivity.
  - exact Hw.
  - intros c. destruct ws3 as [|b ws3]; simpl.
    + now intros [= <-].
    + intros [= <-]. simpl in H3. apply andb_true_iff in H3 as [Hb _].
      now apply space_is_no_word_char.
Qed.

Lemma search_metadata_found (pre rest w : string) :
  all_chars (is_not "M") pre = true ->
  match_metadata rest = Some w ->
  search_metadata (pre ++ rest) = Some w.
Proof.
  intros Hp Hm. induction pre as [|c r IH]; cbn [String.append].
  - destruct rest; cbn [search_metadata]; now rewrite Hm.
  - simpl in Hp. apply andb_true_iff in Hp as [Hc Hr].
    cbn [search_metadata].
    assert (E : match_metadata (String c (r ++ rest)) = None).
    { unfold match_metadata. cbn [PyStr.startswith].
      unfold is_not in Hc. apply negb_true_iff in Hc.
      now rewrite Ascii.eqb_sym, Hc. }
    rewrite E. now apply IH.
Qed.

Lemma extract_annotation_text_found (lines : list string) (n : Z) (col : json)
  (pre ws1 ws2 w ws3 post : string) :
  1 <= n ->
  nth_error lines (Z.to_nat (n - 1))
  = Some (pre ++ "METADATA" ++ ws1 ++ "(" ++ ws2 ++ w ++ ws3 ++ ")" ++ post) ->
  all_chars (is_not "M") pre = true ->
  all_chars PyStr.isspace ws1 = true ->
  all_chars PyStr.isspace ws2 = true ->
  all_chars PyStr.isspace ws3 = true ->
  w <> "" -> all_chars is_word_char w = true ->
  extract_annotation_text (Some lines) (JNum n) col = Some w.
Proof.
  intros Hn Hl Hp H1 H2 H3 Hne Hw. unfold extract_annotation_text.
  assert (Hlen : (Z.to_nat (n - 1) < List.length lines)%nat).
  { apply nth_error_Some. congruence. }
  destruct (Z.ltb_spec n 1); [lia|].
  destruct (Z.ltb_spec (Z.of_nat (List.length lines)) n); [lia|].
  simpl. rewrite Hl. apply search_metadata_found; [exact Hp|].
  now apply match_metadata_found.
Qed.

(** X15.  When the line of the given number reads, after a prefix without
    the letter M, [METADATA ( word )] with optional blanks around the
    parenthesis and the word, the word is returned, whatever the column and
    whatever follows the closing parenthesis. *)
Theorem annotation_text_is_read_from_the_macro (lines : list string) (n : Z)
  (col : json) (pre ws1 ws2 w ws3 post : string) :
  1 <= n ->
  nth_error lines (Z.to_nat (n - 1))
  = Some (pre ++ "METADATA" ++ ws1 ++ "(" ++ ws2 ++ w ++ ws3 ++ ")" ++ post) ->
  all_chars (is_not "M") pre = true ->
  all_chars PyStr.isspace ws1 = true ->
  all_chars PyStr.isspace ws2 = true ->
  all_chars PyStr.isspace ws3 = true ->
  w <> "" -> all_chars is_word_char w = true ->
  extract_annotation_text (Some lines) (JNum n) col = Some w.
Proof. apply extract_annotation_text_found. Qed.

Lemma annotation_text_is_read_from_the_macro_witness :
  extract_annotation_text
    (Some ["#pragma once"; "  METADATA( EXPORT_TO_SCRIPT ) void f();"])
    (JNum 2) JNull
  = Some "EXPORT_TO_SCRIPT".
Proof.
  apply (annotation_text_is_read_from_the_macro
           ["#pragma once"; "  METADATA( EXPORT_TO_SCRIPT ) void f();"] 2 JNull
           "  " "" " " "EXPORT_TO_SCRIPT" " " " void f();");
    try reflexivity; [lia|discriminate].
Defined.

(** ** A source file that cannot be read *)

Section Unreadable.
Variable normpath : string -> string.
Variable source_file : string.

Lemma annotation_of_unreadable (d : dict) :
  Forall wt_field d -> annotation_of normpath source_file None d = Ok None.
Proof.
  intros Hd. unfold annotation_of. cbv zeta.
  destruct (kind_is "AnnotateAttr" d); [|reflexivity].
  destruct (wt_get_obj "range" d Hd (fun _ => eq_refl)) as (r & -> & Hr). simpl.
  destruct (wt_get_obj "begin" r Hr (fun _ => eq_refl)) as (b & -> & Hb). simpl.
  destruct (wt_get_obj "expansionLoc" b Hb (fun _ => eq_refl)) as (e & -> & He).
  assert (G : forall loc, Forall wt_field loc ->
    (if truthy (get_or_none "line" loc) && truthy (get_or_none "col" loc)
        && truthy (get_or_none "file" loc)
     then
       match get_or_none "file" loc with
       | JStr fp =>
           if String.eqb (normpath fp) (normpath source_file) then
             match extract_annotation_text None
                     (get_or_none "line" loc) (get_or_none "col" loc) with
             | Some annotation_text =>
                 if truthy (JStr annotation_text)
                 then Ok (Some annotation_text) else Ok None
             | None => Ok None
             end
           else Ok None
       | _ => Raise TypeError
       end
     else Ok None) = Ok None).
  { intros loc Hl.
    assert (Hf : get_or_none "file" loc = JNull
                 \/ exists fp, get_or_none "file" loc = JStr fp).
    { unfold get_or_none, get_default.
      destruct (wt_get_str "file" loc Hl (fun _ => eq_refl)) as [-> | [fp ->]];
        eauto. }
    destruct Hf as [-> | [fp ->]].
    - simpl. now rewrite !andb_false_r.
    - destruct (truthy (get_or_none "line" loc) && truthy (get_or_none "col" loc)
                && truthy (JStr fp)); [|reflexivity].
      now destruct (String.eqb (normpath fp) (normpath source_file)). }
  destruct (truthy (JObj e)); simpl bind; now apply G.
Qed.

Lemma walk_inner_fixed (visit : json -> result json) (d : dict) :
  Forall (fun v => Forall (fun x => visit x = Ok x) (children v)) (map snd d) ->
  walk_inner visit d = Ok d.
Proof.
  induction d as [|[k v] d IH]; simpl; intros H; [reflexivity|].
  inversion H as [|? ? Hv Hr]; subst.
  destruct (String.eqb k "inner").
  - destruct v; try reflexivity. simpl in Hv. now rewrite (mapM_fixed visit items Hv).
  - now rewrite (IH Hr).
Qed.

Lemma annotation_pass_unreadable (j : json) :
  wt j -> add_annotation_strings_recursive normpath source_file None j = Ok j.
Proof.
  induction j as [j IH] using json_ind_deep. intros Hw.
  destruct j as [| | | | |d]; try reflexivity.
  apply wt_obj in Hw. cbn [add_annotation_strings_recursive].
  rewrite (annotation_of_unreadable d Hw). cbn [bind].
  rewrite walk_inner_fixed; [reflexivity|].
  simpl in IH. apply Forall_map. apply Forall_forall. intros [k v] Hin.
  rewrite Forall_map in IH. rewrite Forall_forall in IH.
  destruct (IH (k, v) Hin) as [_ Hc]. simpl in *.
  assert (Wv : wt v).
  { rewrite Forall_forall in Hw. now destruct (Hw (k, v) Hin). }
  rewrite Forall_forall in Hc. apply Forall_forall. intros x Hx.
  apply (Hc x Hx).
  destruct v; simpl in Hx; try contradiction.
  - apply wt_arr in Wv. rewrite Forall_forall in Wv. now apply Wv.
  - apply wt_obj in Wv. rewrite Forall_forall in Wv.
    apply in_map_iff in Hx as ([k' v'] & <- & Hin'). now destruct (Wv _ Hin').
Qed.

End Unreadable.

(** X16.  When the source file cannot be read, the annotation pass returns
    every well-typed tree as it is: no annotation is added and no error is
    raised. *)
Theorem unreadable_source_leaves_tree (normpath : string -> string)
  (source_file : string) (j : json) :
  well_typed j = true ->
  add_annotation_strings_recursive normpath source_file None j = Ok j.
Proof. apply annotation_pass_unreadable. Qed.

Lemma unreadable_source_leaves_tree_witness :
  add_annotation_strings_recursive (fun p => p) "sample.h" None
    (JObj [("kind", JStr "AnnotateAttr");
           ("range", JObj [("begin", JObj [("line", JNum 1); ("col", JNum 3);
                                           ("file", JStr "sample.h")])])])
  = Ok (JObj [("kind", JStr "AnnotateAttr");
              ("range", JObj [("begin", JObj [("line", JNum 1); ("col", JNum 3);
                                              ("file", JStr "sample.h")])])]).
Proof. apply unreadable_source_leaves_tree. reflexivity. Defined.


(** ** The parameters of a method *)

Lemma text_field_default (k : string) (d : dict) :
  Forall wt_field d -> (forall v, field_ok k v = is_str v) ->
  get_default k (JStr "") d = JStr (text_field k d).
Proof.
  intros Hd Hk. unfold get_default, text_field.
  destruct (wt_get_str k d Hd Hk) as [-> | [s ->]]; reflexivity.
Qed.

Lemma parameter_descriptor_expected (c : dict) :
  Forall wt_field c ->
  parameter_descriptor c
  = Ok (match get_default "type" (JObj []) c with
        | JObj t => [expected_descriptor c t]
        | _ => []
        end).
Proof.
  intros Hc. unfold parameter_descriptor.
  rewrite (text_field_default "name" c Hc (fun _ => eq_refl)).
  destruct (get_default "type" (JObj []) c) as [| | | | |t] eqn:Ht; try reflexivity.
  assert (Wt : Forall wt_field t).
  { unfold get_default in Ht. destruct (get "type" c) as [ty|] eqn:Hty.
    - subst ty. destruct (wt_get _ _ _ Hc Hty) as [_ Hw]. now apply wt_obj.
    - injection Ht as <-. constructor. }
  rewrite (text_field_default "qualType" t Wt (fun _ => eq_refl)).
  rewrite (text_field_default "desugaredQualType" t Wt (fun _ => eq_refl)).
  reflexivity.
Qed.

Lemma parameter_descriptors_expected (l : list dict) :
  Forall (Forall wt_field) l ->
  exists pss, mapM parameter_descriptor l = Ok pss
              /\ List.concat pss = expected_parameters l.
Proof.
  induction 1 as [|c l Hc _ IH]; simpl.
  - exists []. split; reflexivity.
  - rewrite (parameter_descriptor_expected c Hc). destruct IH as (pss & -> & E).
    simpl. eexists. split; [reflexivity|]. simpl. now rewrite E.
Qed.

Lemma method_parameters (d : dict) :
  kind_is "CXXMethodDecl" d = true ->
  well_typed (JObj d) = true ->
  exists r,
    extract_method_signature_details (JObj d) = Ok (JObj r)
    /\ get "parameters" r
       = Some (JArr (expected_parameters (parm_var_decls (inner_list d)))).
Proof.
  intros Hk Hw.
  destruct (extract_pass_good (JObj d) Hw) as (j & Hj & _ & Ht).
  destruct j as [| | | | |r]; try discriminate Ht. exists r. split; [exact Hj|].
  apply wt_obj in Hw.
  cbn [extract_method_signature_details] in Hj. unfold signature_fields in Hj.
  rewrite Hk in Hj.
  destruct (return_type_fields d) as [rf| |]; try discriminate Hj. cbn [bind] in Hj.
  destruct (parameter_descriptors_expected _
              (wt_parm_var_decls _ (wt_inner_list d Hw))) as (pss & Hp & E).
  rewrite Hp in Hj. cbn [bind] in Hj.
  match type of Hj with
  | bind ?w _ = _ => destruct w as [d'| |] eqn:Hwalk; try discriminate Hj
  end.
  cbn [bind] in Hj. injection Hj as <-.
  rewrite <- E. eapply assign_then_walk_get; [exact Hwalk|].
  apply get_last_assignment.
Qed.

(** X17.  Every well-typed [CXXMethodDecl] node gets a [parameters] list
    that holds, in the order of the declarations, one descriptor for each
    [ParmVarDecl] child whose [type] is an object: the name of the child,
    its [qualType], the two converted spellings and its
    [desugaredQualType].  The list is never longer than the list of the
    declarations, and it is empty for a node without [inner]. *)
Theorem parameters_follow_the_declarations (d : dict) :
  kind_is "CXXMethodDecl" d = true ->
  well_typed (JObj d) = true ->
  exists r,
    extract_method_signature_details (JObj d) = Ok (JObj r)
    /\ get "parameters" r
       = Some (JArr (expected_parameters (parm_var_decls (inner_list d))))
    /\ (List.length (expected_parameters (parm_var_decls (inner_list d)))
        <= List.length (parm_var_decls (inner_list d)))%nat
    /\ (get "inner" d = None -> get "parameters" r = Some (JArr [])).
Proof.
  intros Hk Hw. destruct (method_parameters d Hk Hw) as (r & Hr & Hp).
  exists r. split; [exact Hr|]. split; [exact Hp|]. split.
  - generalize (parm_var_decls (inner_list d)). intros l.
    induction l as [|c l IH]; simpl; [lia|].
    rewrite length_app. destruct (get_default "type" (JObj []) c); simpl; lia.
  - intros Hi. rewrite Hp. unfold inner_list. now rewrite Hi.
Qed.

Lemma parameters_follow_the_declarations_witness :
  exists r,
    extract_method_signature_details
      (JObj (sample_method "DoSomething1" "void (int)"
               [sample_parameter "count" "int"]))
    = Ok (JObj r)
    /\ get "parameters" r
       = Some (JArr [JObj [("name", JStr "count"); ("native_type", JStr "int");
                           ("csharp_type", JStr "int"); ("rust_type", JStr "i32");
                           ("desugaredType", JStr "")]]).
Proof.
  destruct (parameters_follow_the_declarations
              (sample_method "DoSomething1" "void (int)"
                 [sample_parameter "count" "int"]))
    as (r & H1 & H2 & _); try reflexivity.
  exists r. split; [exact H1|exact H2].
Defined.

(** ** The document *)

Lemma header_assigned (root_namespace package_name : option string) :
  assign_all (root_namespace_fields root_namespace
                ++ package_name_fields package_name)%list []
  = (root_namespace_fields root_namespace ++ package_name_fields package_name)%list
  /\ Forall (fun kv => mem (fst kv) header_keys = true)
       (root_namespace_fields root_namespace ++ package_name_fields package_name)%list.
Proof.
  unfold root_namespace_fields, package_name_fields.
  destruct (if_str root_namespace); destruct (if_str package_name);
    (split; [reflexivity | repeat constructor]).
Qed.

Lemma assign_all_fresh (d : dict) : forall ordered_data,
  NoDup (map fst d) ->
  Forall (fun k => has_key k ordered_data = false) (map fst d) ->
  assign_all d ordered_data = (ordered_data ++ d)%list.
Proof.
  unfold assign_all. induction d as [|[k v] d IH]; intros od Hnd Hf; simpl.
  - now rewrite app_nil_r.
  - inversion Hnd as [|? ? Hk Hnd']; inversion Hf as [|? ? Hfk Hf']; subst.
    simpl in Hfk. rewrite (dict_set_absent k v od Hfk), IH.
    + now rewrite <- app_assoc.
    + exact Hnd'.
    + rewrite Forall_forall in Hf'. apply Forall_forall. intros k' Hin.
      unfold has_key. rewrite get_app. specialize (Hf' k' Hin).
      unfold has_key in Hf'. destruct (get k' od); [discriminate|]. simpl.
      destruct (String.eqb_spec k' k) as [->|_]; [contradiction|reflexivity].
Qed.

Lemma get_rev_nodup (k : string) (d : dict) :
  NoDup (map fst d) -> get k (rev d) = get k d.
Proof.
  induction d as [|[k' v] d IH]; intros Hnd; [reflexivity|].
  inversion Hnd as [|? ? Hk Hnd']; subst. simpl. rewrite get_app, (IH Hnd'). simpl.
  destruct (String.eqb_spec k k') as [->|Hne].
  - destruct (get k' d) eqn:G; [|reflexivity].
    exfalso. apply Hk. apply has_key_in. unfold has_key. now rewrite G.
  - now destruct (get k d).
Qed.

Lemma has_key_mem (k : string) (d : dict) (keys : list string) :
  Forall (fun kv => mem (fst kv) keys = true) d ->
  mem k keys = false -> has_key k d = false.
Proof.
  intros Hd Hk. destruct (has_key k d) eqn:E; [|reflexivity].
  apply has_key_in in E. apply in_map_iff in E as ([k' v] & <- & Hin).
  rewrite Forall_forall in Hd. specialize (Hd _ Hin). simpl in *. congruence.
Qed.

(** X18.  The document is an object in which every key of the tree holds
    the value the tree has for it, and every other key the value of the
    header fields.  When no key of the tree is a header key, the document
    is the header fields, root namespace first and package name second,
    followed by the fields of the tree in their order. *)
Theorem document_keeps_the_tree (root_namespace package_name : option string)
  (d : dict) :
  NoDup (map fst d) ->
  let header :=
    (root_namespace_fields root_namespace ++ package_name_fields package_name)%list in
  exists document,
    assemble root_namespace package_name (JObj d) = Ok (JObj document)
    /\ (forall k, get k document
                  = match get k d with Some v => Some v | None => get k header end)
    /\ (Forall (fun k => mem k header_keys = false) (map fst d) ->
        document = (header ++ d)%list).
Proof.
  intros Hnd. cbv zeta. unfold assemble. cbv zeta.
  destruct (header_assigned root_namespace package_name) as [-> Hh].
  cbn [dict_update bind]. eexists. split; [reflexivity|]. split.
  - intros k. now rewrite get_assign_all, (get_rev_nodup k d Hnd).
  - intros Hf. apply assign_all_fresh; [exact Hnd|].
    eapply Forall_impl; [|exact Hf]. intros k Hk. simpl in Hk.
    now apply has_key_mem with header_keys.
Qed.

Lemma document_keeps_the_tree_witness :
  exists document,
    assemble (Some "Arieo::Sample") (Some "arieo:sample")
      (JObj (sample_interface "ISample" []))
    = Ok (JObj document)
    /\ get "kind" document = Some (JStr "CXXRecordDecl")
    /\ get "package_name" document = Some (JStr "arieo:sample")
    /\ document
       = (root_namespace_fields (Some "Arieo::Sample")
            ++ package_name_fields (Some "arieo:sample")
            ++ sample_interface "ISample" [])%list.
Proof.
  destruct (document_keeps_the_tree (Some "Arieo::Sample") (Some "arieo:sample")
              (sample_interface "ISample" []))
    as (document & H & G & E).
  - repeat (constructor; [simpl; intuition discriminate|]). constructor.
  - exists document. split; [exact H|]. split; [apply G|]. split; [apply G|].
    rewrite E by (repeat constructor). now rewrite <- app_assoc.
Defined.

(** ** Lists that are no value of a key *)

Lemma scalars_are_not_flagged (m : dict) :
  Forall (fun kv => is_scalar (snd kv) = true) m ->
  add_last_flags false (JObj m) = Ok (JObj m).
Proof.
  intros H. cbn [add_last_flags]. rewrite walk_fields_fixed; [reflexivity|].
  eapply Forall_impl; [|exact H]. intros [k v] Hs. simpl in *.
  destruct v; try discriminate; reflexivity.
Qed.

Lemma list_of_scalars_not_flagged (ms : list dict) :
  Forall (Forall (fun kv => is_scalar (snd kv) = true)) ms ->
  add_last_flags false (JArr (map JObj ms)) = Ok (JArr (map JObj ms)).
Proof.
  intros H. cbn [add_last_flags]. rewrite mapM_fixed; [reflexivity|].
  apply Forall_map. eapply Forall_impl; [|exact H].
  intros m Hm. now apply scalars_are_not_flagged.
Qed.

(** X19.  Only the elements of a list that is the value of a key are
    flagged: objects of scalars in the list the pass is called on, or in a
    list that is itself an element of a list, come back without [first] and
    [last]. *)
Theorem only_values_of_keys_are_flagged (ms : list dict) (key : string) :
  Forall (Forall (fun kv => is_scalar (snd kv) = true)) ms ->
  add_last_flags_recursive (JArr (map JObj ms)) = Ok (JArr (map JObj ms))
  /\ add_last_flags_recursive (JObj [(key, JArr [JArr (map JObj ms)])])
     = Ok (JObj [(key, JArr [JArr (map JObj ms)])]).
Proof.
  intros H. unfold add_last_flags_recursive.
  split; [now apply list_of_scalars_not_flagged|].
  cbn [add_last_flags walk_fields get andb negb is_empty build_groups bind
       flat_map mapM_indexed].
  pose proof (list_of_scalars_not_flagged ms H) as E.
  cbn [add_last_flags] in E.
  destruct (mapM (add_last_flags false) (map JObj ms)) as [l| |];
    try discriminate E.
  cbn [bind] in *. injection E as ->. reflexivity.
Qed.

Lemma only_values_of_keys_are_flagged_witness :
  add_last_flags_recursive
    (JArr (map JObj [sample_element "CXXMethodDecl" "a"]))
  = Ok (JArr (map JObj [sample_element "CXXMethodDecl" "a"]))
  /\ add_last_flags_recursive
       (JObj [("inner", JArr [JArr (map JObj [sample_element "CXXMethodDecl" "a"])])])
     = Ok (JObj [("inner",
                  JArr [JArr (map JObj [sample_element "CXXMethodDecl" "a"])])]).
Proof.
  apply (only_values_of_keys_are_flagged [sample_element "CXXMethodDecl" "a"]).
  repeat constructor.
Defined.

(** ** One document in the text *)

Lemma skip_whitespace_all (rest : string) : forall idx,
  all_chars PyStr.isspace rest = true ->
  skip_whitespace rest idx = (idx + String.length rest)%nat.
Proof.
  induction rest as [|c r IH]; intros idx H; simpl; [lia|].
  simpl in H. apply andb_true_iff in H as [Hc Hr]. rewrite Hc, (IH _ Hr). lia.
Qed.

Lemma drop_length (s : string) : forall n,
  String.length (PyStr.drop n s) = (String.length s - n)%nat.
Proof.
  induction s as [|c r IH]; intros [|n]; simpl; try reflexivity. apply IH.
Qed.

Lemma drop_drop (s : string) : forall n m,
  PyStr.drop m (PyStr.drop n s) = PyStr.drop (n + m) s.
Proof.
  induction s as [|c r IH]; intros [|n] m; simpl; try reflexivity.
  - now destruct m.
  - apply IH.
Qed.

Lemma all_chars_drop (p : ascii -> bool) (s : string) : forall n,
  all_chars p s = true -> all_chars p (PyStr.drop n s) = true.
Proof.
  induction s as [|c r IH]; intros [|n] H; simpl; try exact H.
  simpl in H. apply andb_true_iff in H as [_ Hr]. now apply IH.
Qed.

Section OneDocument.
Variable raw_decode : string -> nat -> option (json * nat).

Lemma decode_first (content : string) (obj : json) (end_idx : nat) :
  let start := skip_whitespace content 0 in
  (start < String.length content)%nat ->
  raw_decode content start = Some (obj, end_idx) ->
  decode_objects raw_decode content
  = obj :: decode_loop raw_decode (String.length content) content
             (start + end_idx)%nat.
Proof.
  cbv zeta. intros Hlt Hd. unfold decode_objects. cbn [decode_loop].
  rewrite drop_zero.
  destruct (Nat.ltb_spec 0 (String.length content)) as [_|]; [|lia].
  destruct (Nat.leb_spec (String.length content) (skip_whitespace content 0));
    [lia|].
  now rewrite Hd.
Qed.

Lemma decode_loop_blank (fuel : nat) (content : string) (idx : nat) :
  all_chars PyStr.isspace (PyStr.drop idx content) = true ->
  decode_loop raw_decode fuel content idx = [].
Proof.
  intros H. destruct fuel as [|fuel]; [reflexivity|]. cbn [decode_loop].
  destruct (Nat.ltb_spec idx (String.length content)) as [Hlt|]; [|reflexivity].
  rewrite (skip_whitespace_all _ idx H), drop_length.
  destruct (Nat.leb_spec (String.length content)
              (idx + (String.length content - idx))); [reflexivity|lia].
Qed.

Lemma decode_one_document (content : string) (obj : json) (end_idx : nat) :
  let start := skip_whitespace content 0 in
  (start < String.length content)%nat ->
  raw_decode content start = Some (obj, end_idx) ->
  all_chars PyStr.isspace (PyStr.drop end_idx content) = true ->
  decode_objects raw_decode content = [obj].
Proof.
  cbv zeta. intros Hlt Hd Hb. rewrite (decode_first content obj end_idx Hlt Hd).
  f_equal. apply decode_loop_blank.
  rewrite Nat.add_comm, <- drop_drop. now apply all_chars_drop.
Qed.

End OneDocument.

(** X20.  When a value is decoded at the first non-blank character of the
    text and only blanks follow its end, the loop collects that value and
    nothing else. *)
Theorem one_document_is_decoded (raw_decode : string -> nat -> option (json * nat))
  (content : string) (obj : json) (end_idx : nat) :
  (skip_whitespace content 0 < String.length content)%nat ->
  raw_decode content (skip_whitespace content 0) = Some (obj, end_idx) ->
  all_chars PyStr.isspace (PyStr.drop end_idx content) = true ->
  decode_objects raw_decode content = [obj].
Proof. apply decode_one_document. Qed.

Lemma one_document_is_decoded_witness :
  decode_objects braces_decoder " {} " = [JObj []].
Proof.
  apply (one_document_is_decoded braces_decoder " {} " (JObj []) 3);
    [simpl; lia|reflexivity|reflexivity].
Defined.

(** ** The keys a pass assigns *)

Lemma keys_in_app (keys : list string) (a b : dict) :
  keys_in keys a -> keys_in keys b -> keys_in keys (a ++ b)%list.
Proof. intros Ha Hb. apply Forall_app. now split. Qed.

Lemma keys_in_more (keys more : list string) (fields : dict) :
  keys_in keys fields -> keys_in (keys ++ more)%list fields.
Proof.
  apply Forall_impl. intros kv H. unfold mem in *. rewrite existsb_app, H. reflexivity.
Qed.

Lemma keys_in_more_l (keys more : list string) (fields : dict) :
  keys_in keys fields -> keys_in (more ++ keys)%list fields.
Proof.
  apply Forall_impl. intros kv H. unfold mem in *. rewrite existsb_app, H.
  apply orb_true_r.
Qed.


Ltac keys_of_literal :=
  repeat first
    [ apply Forall_nil
    | apply Forall_cons; [reflexivity|]
    | apply Forall_app; split ].

Lemma interface_fields_keys (package : string) (root_namespace : option string)
  (name : string) (ctx : wit_context) :
  keys_in interface_keys (fst (interface_fields package root_namespace name ctx)).
Proof.
  unfold interface_fields, keys_in. cbv zeta.
  destruct (if_str root_namespace); cbn [fst]; keys_of_literal.
Qed.

Lemma fullname_field_keys (keys : list string) (k : string) (parent : option string)
  (sep name : string) :
  mem k keys = true -> keys_in keys (fullname_field k parent sep name).
Proof.
  intros Hk. unfold fullname_field, keys_in.
  destruct (if_str parent); repeat constructor. exact Hk.
Qed.

Lemma method_fields_keys (func_name : string) (m : dict) (ctx : wit_context)
  (fields : dict) :
  method_fields func_name m ctx = Ok fields -> keys_in method_keys fields.
Proof.
  unfold method_fields. cbv zeta.
  destruct (checksum_parameters m) as [ps| |]; cbn [bind]; try discriminate.
  intros [= <-]. unfold keys_in.
  destruct (if_str (parent_wit_interface_fullname ctx));
    destruct (if_str (parent_interface_qualified_name ctx));
    repeat first
      [ apply Forall_nil
      | apply fullname_field_keys; reflexivity
      | apply Forall_cons; [reflexivity|]
      | apply Forall_app; split ].
Qed.

Lemma wit_node_keys (package_name root_namespace : option string)
  (ctx : wit_context) (d : dict) (fields : dict) (ctx' : wit_context) :
  wit_node package_name root_namespace ctx d = Ok (fields, ctx') ->
  keys_in (interface_keys ++ method_keys)%list fields
  /\ (kind_is "CXXMethodDecl" d = false
      \/ classify_name (get_or_none "name" d) = Ok NameFalsy ->
      keys_in interface_keys fields).
Proof.
  unfold wit_node. cbv zeta. set (ctx0 := push_namespace d ctx). clearbody ctx0.
  assert (H1 : forall rc,
    (if kind_is "CXXRecordDecl" d
     then match if_str package_name with
          | Some package =>
              name <- classify_name (get_or_none "name" d) ;;
              match name with
              | NameStr interface_name =>
                  Ok (interface_fields package root_namespace interface_name ctx0)
              | NameFalsy => Ok ([], ctx0)
              end
          | None => Ok ([], ctx0)
          end
     else Ok ([], ctx0)) = Ok rc ->
    keys_in interface_keys (fst rc)).
  { intros rc. destruct (kind_is "CXXRecordDecl" d); [|intros [= <-]; constructor].
    destruct (if_str package_name); [|intros [= <-]; constructor].
    destruct (classify_name _) as [[nm|]| |]; simpl; try discriminate;
      intros [= <-]; [|constructor].
    apply interface_fields_keys. }
  match goal with
  | |- bind ?r _ = _ -> _ => destruct r as [[rf ctx1]| |]; try discriminate
  end.
  specialize (H1 _ eq_refl). cbn [fst] in H1. cbn [bind].
  destruct (kind_is "CXXMethodDecl" d).
  - destruct (classify_name _) as [[nm|]| |]; cbn [bind]; try discriminate.
    + destruct (method_fields nm d ctx1) as [mf| |] eqn:Hm; cbn [bind];
        try discriminate.
      intros [= <- <-]. split.
      * apply keys_in_app; [exact (keys_in_more interface_keys method_keys rf H1)|].
        apply (keys_in_more_l method_keys interface_keys).
        now apply method_fields_keys with nm d ctx1.
      * intros [H|H]; discriminate H.
    + intros [= <- <-].
      split; [exact (keys_in_more interface_keys method_keys rf H1)|].
      intros _. exact H1.
  - intros [= <- <-].
    split; [exact (keys_in_more interface_keys method_keys rf H1)|].
    intros _. exact H1.
Qed.

Lemma signature_fields_keys (d fields : dict) :
  signature_fields d = Ok fields -> keys_in signature_keys fields.
Proof.
  unfold signature_fields.
  destruct (kind_is "CXXMethodDecl" d); [|intros [= <-]; constructor].
  destruct (return_type_fields d) as [rf| |] eqn:Hrf; simpl; try discriminate.
  destruct (mapM parameter_descriptor _) as [pss| |]; simpl; try discriminate.
  intros [= <-]. apply keys_in_app; [|repeat constructor].
  revert Hrf. unfold return_type_fields.
  repeat match goal with
         | |- context [match ?x with _ => _ end] => destruct x
         end; try discriminate; intros [= <-]; unfold keys_in; keys_of_literal.
Qed.

Lemma item_assignments_keys (marks : list (nat * string)) (i : nat) (item : dict) :
  Forall flag_key marks ->
  keys_in ["first"; "last"] (item_assignments marks i item).
Proof.
  intros Hm. unfold item_assignments, keys_in. cbv zeta.
  repeat (apply Forall_app; split).
  - apply Forall_map. apply Forall_forall. intros m Hin.
    apply filter_In in Hin as [Hin _]. rewrite Forall_forall in Hm.
    destruct (Hm m Hin) as [-> | ->]; reflexivity.
  - match goal with |- context [if ?c then _ else _] => destruct c end;
      keys_of_literal.
  - match goal with |- context [if ?c then _ else _] => destruct c end;
      keys_of_literal.
Qed.



(** ** The fingerprint of an interface through the passes *)





















(** ** The flags of one element, whatever the others hold *)

Lemma mapM_indexed_nth (f : nat -> json -> result json) (l : list json) :
  forall i l' n x,
    mapM_indexed f i l = Ok l' -> nth_error l n = Some x ->
    exists x', f (i + n)%nat x = Ok x' /\ nth_error l' n = Some x'.
Proof.
  induction l as [|a l IH]; intros i l' n x H Hn.
  - destruct n; discriminate Hn.
  - simpl in H. destruct (f i a) as [b| |] eqn:Hb; try discriminate H.
    simpl in H. destruct (mapM_indexed f (S i) l) as [bs| |] eqn:Hbs;
      try discriminate H.
    simpl in H. injection H as <-.
    destruct n as [|n]; simpl in Hn.
    + injection Hn as <-. exists b. now rewrite Nat.add_0_r.
    + destruct (IH (S i) bs n x Hbs Hn) as (x' & Hx & Hn').
      exists x'. split; [|exact Hn']. now rewrite Nat.add_succ_r.
Qed.

Lemma flag_assignment (marks : list (nat * string)) (i : nat) (item : dict)
  (k : string) :
  k = "first" \/ k = "last" ->
  get k (assign_all (item_assignments marks i item) [])
  = if marked_with marks i k then Some (JBool true)
    else if has_key k item then None else Some (JBool false).
Proof.
  intros Hk. unfold item_assignments. cbv zeta. rewrite !has_key_marked.
  rewrite !get_assign_all, !rev_app_distr, !get_app, !get_marked.
  destruct Hk as [-> | ->];
    destruct (marked_with marks i "first"), (marked_with marks i "last"),
      (has_key "first" item), (has_key "last" item); reflexivity.
Qed.

Lemma flag_of_item (marks : list (nat * string)) (i : nat) (m m' : dict)
  (k : string) :
  k = "first" \/ k = "last" ->
  assign_then_walk (add_last_flags true) (item_assignments marks i m) m = Ok m' ->
  has_key k m' = true
  /\ (marked_with marks i k = true -> get k m' = Some (JBool true))
  /\ (has_key k m = false -> get k m' = Some (JBool (marked_with marks i k))).
Proof.
  intros Hk Hw. pose proof (flag_assignment marks i m k Hk) as G.
  destruct (marked_with marks i k) eqn:Hm.
  - pose proof (assign_then_walk_get _ _ _ _ _ _ Hw G) as E.
    unfold has_key. rewrite E. auto.
  - destruct (has_key k m) eqn:Hh.
    + pose proof (assign_then_walk_keep _ _ _ _ k Hw G) as K.
      unfold has_key in Hh. destruct (get k m) as [v|]; [|discriminate Hh].
      destruct K as (v' & _ & E). unfold has_key. rewrite E.
      split; [reflexivity|]. split; intros; discriminate.
    + pose proof (assign_then_walk_get _ _ _ _ _ _ Hw G) as E.
      unfold has_key. rewrite E. split; [reflexivity|].
      split; [discriminate|auto].
Qed.

(** X23.  Let an attribute of a well-typed node hold a non-empty array of
    objects.  After the pass every element has a [first] and a [last]
    field; the element that opens its group has [first] true and the one
    that closes it has [last] true, whatever flags the elements came with;
    and an element that came without a flag gets it true exactly when it
    opens, respectively closes, its group, whatever the other elements
    hold. *)
Theorem every_element_is_flagged (d : dict) (key : string) (ms : list dict) :
  get key d = Some (JArr (map JObj ms)) ->
  ms <> [] ->
  well_typed (JObj d) = true ->
  exists d' value',
    add_last_flags_recursive (JObj d) = Ok (JObj d')
    /\ get key d' = Some (JArr value')
    /\ forall before m after, ms = (before ++ m :: after)%list ->
         exists m',
           nth_error value' (List.length before) = Some (JObj m')
           /\ has_key "first" m' = true /\ has_key "last" m' = true
           /\ (existsb (same_group m) before = false ->
               get "first" m' = Some (JBool true))
           /\ (existsb (same_group m) after = false ->
               get "last" m' = Some (JBool true))
           /\ (has_key "first" m = false ->
               get "first" m' = Some (JBool (negb (existsb (same_group m) before))))
           /\ (has_key "last" m = false ->
               get "last" m' = Some (JBool (negb (existsb (same_group m) after)))).
Proof.
  intros Hg Hne Hw.
  destruct (flags_pass_good (JObj d) false Hw) as (j & Hj & _ & Ht).
  destruct j as [| | | | |d']; try discriminate Ht. exists d'.
  unfold add_last_flags_recursive.
  pose proof Hj as Hwalk. cbn [add_last_flags] in Hwalk.
  destruct (walk_fields (add_last_flags true) [] d) as [x| |] eqn:Hd';
    try discriminate Hwalk.
  cbn [bind] in Hwalk. injection Hwalk as ->.
  pose proof (walk_fields_get (add_last_flags true) [] key d d' Hd') as G.
  rewrite Hg in G. cbn [get] in G. destruct G as (v' & Hv & Gk).
  apply wt_obj in Hw. destruct (wt_get _ _ _ Hw Hg) as [_ Wv].
  apply wt_arr in Wv. destruct (wt_group_keys ms Wv) as (ks & Hk).
  destruct (build_groups_keys ms ks [] [] Hk groups_of_nil) as (groups & Hb & Hinv).
  simpl in Hb, Hinv.
  cbn [add_last_flags andb] in Hv.
  assert (E : is_empty (map JObj ms) = false) by (destruct ms; [congruence|reflexivity]).
  rewrite E, Hb in Hv. cbn [negb bind] in Hv.
  match type of Hv with
  | bind ?r _ = _ => destruct r as [value'| |] eqn:Hr; try discriminate Hv
  end.
  cbn [bind] in Hv. injection Hv as <-. exists value'.
  split; [exact Hj|]. split; [exact Gk|].
  intros before m after ->.
  destruct (mapM_app_inv group_key before (m :: after) ks Hk)
    as (kb & kr & -> & Hkb & Hkr).
  simpl in Hkr. destruct (group_key m) as [k| |] eqn:Hm; try discriminate Hkr.
  simpl in Hkr. destruct (mapM group_key after) as [ka| |] eqn:Hka;
    try discriminate Hkr.
  simpl in Hkr. injection Hkr as <-.
  assert (Hnth : nth_error (map JObj (before ++ m :: after)) (List.length before)
                 = Some (JObj m)).
  { rewrite map_app, nth_error_app2 by (rewrite length_map; lia).
    rewrite length_map, Nat.sub_diag. reflexivity. }
  destruct (mapM_indexed_nth _ _ _ _ _ _ Hr Hnth) as (x' & Hx & Hn').
  cbn [Nat.add] in Hx.
  match type of Hx with
  | bind ?r _ = _ => destruct r as [m'| |] eqn:Hitem; try discriminate Hx
  end.
  cbn [bind] in Hx. injection Hx as <-. exists m'. split; [exact Hn'|].
  set (marks := flat_map group_marks groups) in *.
  destruct (flag_of_item marks _ m m' "first" (or_introl eq_refl) Hitem)
    as (F1 & F2 & F3).
  destruct (flag_of_item marks _ m m' "last" (or_intror eq_refl) Hitem)
    as (L1 & L2 & L3).
  assert (Mf : marked_with marks (List.length before) "first"
               = negb (existsb (same_group m) before)).
  { apply bool_negb_iff. rewrite marked_with_in.
    rewrite (same_group_keys m k before kb Hm Hkb).
    rewrite <- (mapM_length _ _ _ Hkb). exact (first_mark groups kb ka k Hinv). }
  assert (Ml : marked_with marks (List.length before) "last"
               = negb (existsb (same_group m) after)).
  { apply bool_negb_iff. rewrite marked_with_in.
    rewrite (same_group_keys m k after ka Hm Hka).
    rewrite <- (mapM_length _ _ _ Hkb). exact (last_mark groups kb ka k Hinv). }
  rewrite Mf in F2, F3. rewrite Ml in L2, L3.
  repeat split; try assumption.
  - intros H. apply F2. now rewrite H.
  - intros H. apply L2. now rewrite H.
Qed.

Lemma every_element_is_flagged_witness :
  exists d' value',
    add_last_flags_recursive
      (JObj [("inner",
              JArr (map JObj [sample_element "CXXMethodDecl" "a";
                              (sample_element "CXXMethodDecl" "b"
                                 ++ [("first", JBool true)])%list]))])
    = Ok (JObj d')
    /\ get "inner" d' = Some (JArr value')
    /\ exists m',
         nth_error value' 0 = Some (JObj m')
         /\ get "first" m' = Some (JBool true)
         /\ get "last" m' = Some (JBool false).
Proof.
  destruct (every_element_is_flagged
              [("inner",
                JArr (map JObj [sample_element "CXXMethodDecl" "a";
                                (sample_element "CXXMethodDecl" "b"
                                   ++ [("first", JBool true)])%list]))]
              "inner"
              [sample_element "CXXMethodDecl" "a";
               (sample_element "CXXMethodDecl" "b" ++ [("first", JBool true)])%list])
    as (d' & value' & H1 & H2 & H3); try reflexivity; try discriminate.
  exists d', value'. split; [exact H1|]. split; [exact H2|].
  destruct (H3 [] (sample_element "CXXMethodDecl" "a")
              [(sample_element "CXXMethodDecl" "b" ++ [("first", JBool true)])%list]
              eq_refl)
    as (m' & Hn & _ & _ & F & _ & _ & L).
  exists m'. split; [exact Hn|]. split; [now apply F|now apply L].
Defined.

(** ** The signature that is hashed *)

Lemma signature_loop (params : list (string * string)) : forall i acc,
  PyStr.join (fold_left signature_step
                (combine (seq (S i) (List.length params)) params) acc)
  = PyStr.join acc
      ++ PyStr.join (map (fun p => ", " ++ render_parameter p) params).
Proof.
  induction params as [|[t n] params IH]; intros i acc; simpl.
  - now rewrite append_empty_r.
  - rewrite IH, join_app, join_app, !join_single. unfold render_parameter. simpl.
    now rewrite !append_assoc.
Qed.

Lemma join_with_commas (p : string) (rest : list string) :
  PyStr.join_with ", " (p :: rest) = p ++ PyStr.join (map (fun x => ", " ++ x) rest).
Proof.
  revert p. induction rest as [|q rest IH]; intros p.
  - simpl. now rewrite append_empty_r.
  - change (PyStr.join_with ", " (p :: q :: rest))
      with (p ++ ", " ++ PyStr.join_with ", " (q :: rest)).
    rewrite IH. reflexivity.
Qed.

(** X24.  The string that is hashed for a function is its name followed by
    the parameters between parentheses, each as [type:name], separated by
    a comma and a space. *)
Theorem signature_string_format (func_name : string)
  (parameters : list (string * string)) :
  function_signature func_name parameters
  = func_name ++ "(" ++ PyStr.join_with ", " (map render_parameter parameters) ++ ")".
Proof.
  unfold function_signature, enumerate. cbv zeta. rewrite join_app, join_single.
  destruct parameters as [|[t n] rest].
  - cbn. now rewrite append_assoc.
  - cbn [List.length seq combine fold_left signature_step Nat.ltb Nat.leb].
    rewrite signature_loop, join_app, join_single.
    cbn [map]. rewrite join_with_commas, map_map.
    unfold render_parameter at 2. cbn [fst snd].
    cbn [PyStr.join fold_right]. rewrite !append_assoc. reflexivity.
Qed.

(** ** A method outside an interface *)

Lemma method_fields_alone (func_name : string) (m : dict) (stack : list json)
  (fields : dict) :
  method_fields func_name m (with_stack stack initial_context) = Ok fields ->
  get "wit_function_name" (assign_all fields [])
  = Some (JStr (convert_function_name_to_wit_format func_name))
  /\ get "wasm_cxx_function_name" (assign_all fields []) = Some (JStr func_name)
  /\ get "rust_wrapper_method_name" (assign_all fields [])
     = Some (JStr (convert_method_name_to_rust_snake_case func_name))
  /\ forall k, In k interface_dependent_keys -> get k (assign_all fields []) = None.
Proof.
  unfold method_fields, fullname_field. cbv zeta.
  cbn [with_stack initial_context if_str parent_interface_qualified_name
       parent_wit_interface_fullname parent_witgen_cxx_interface_fullname
       parent_witgen_csharp_interface_fullname parent_witgen_rust_interface_fullname
       parent_wasm_cxx_interface_fullname parent_wasm_csharp_interface_name
       parent_wasm_rust_interface_fullname].
  destruct (checksum_parameters m) as [ps| |]; cbn [bind]; try discriminate.
  intros [= <-]. rewrite !get_assign_all.
  split; [reflexivity|]. split; [reflexivity|]. split; [reflexivity|].
  intros k Hk. rewrite get_assign_all. cbn [In interface_dependent_keys] in Hk.
  repeat (destruct Hk as [<-|Hk]; [reflexivity|]). contradiction.
Qed.

(** X25.  A named method visited outside any interface (no parent name in
    the context) gets its own names, whatever the package name and the root
    namespace, and none of the fields that are built from an interface: a
    key among them that the node did not have is still absent. *)
Theorem method_outside_an_interface (package_name root_namespace : option string)
  (stack : list json) (d : dict) (func_name : string) :
  kind_is "CXXMethodDecl" d = true ->
  get "name" d = Some (JStr func_name) -> func_name <> "" ->
  well_typed (JObj d) = true ->
  exists r,
    add_wit_format_names_recursive package_name root_namespace
      (with_stack stack initial_context) (JObj d) = Ok (JObj r)
    /\ get "wit_function_name" r
       = Some (JStr (convert_function_name_to_wit_format func_name))
    /\ get "wasm_cxx_function_name" r = Some (JStr func_name)
    /\ get "rust_wrapper_method_name" r
       = Some (JStr (convert_method_name_to_rust_snake_case func_name))
    /\ forall k, In k interface_dependent_keys -> get k d = None -> get k r = None.
Proof.
  intros Hk Hn Hne Hw.
  destruct (wit_pass_good package_name root_namespace (JObj d)
              (with_stack stack initial_context) Hw) as (j & Hj & _ & Ht).
  destruct j as [| | | | |r]; try discriminate Ht. exists r. split; [exact Hj|].
  cbn [add_wit_format_names_recursive] in Hj.
  rewrite (wit_node_method_exact _ _ _ d func_name Hk Hn Hne) in Hj.
  destruct (method_fields func_name d _) as [fields| |] eqn:Hf; try discriminate Hj.
  cbn [bind fst snd] in Hj.
  match type of Hj with
  | bind ?w _ = _ => destruct w as [x| |] eqn:Hwalk; try discriminate Hj
  end.
  cbn [bind] in Hj. injection Hj as ->.
  destruct (method_fields_alone func_name d stack fields Hf) as (G1 & G2 & G3 & G4).
  rewrite (assign_then_walk_get _ _ _ _ _ _ Hwalk G1),
    (assign_then_walk_get _ _ _ _ _ _ Hwalk G2),
    (assign_then_walk_get _ _ _ _ _ _ Hwalk G3).
  repeat split. intros k Hin Hd.
  pose proof (assign_then_walk_keep _ _ _ _ k Hwalk (G4 k Hin)) as K.
  now rewrite Hd in K.
Qed.

Lemma method_outside_an_interface_witness :
  exists r,
    add_wit_format_names_recursive (Some "arieo:sample") (Some "Arieo::Sample")
      (with_stack [] initial_context)
      (JObj (sample_method "doSomthing_1" "void ()" []))
    = Ok (JObj r)
    /\ get "wit_function_name" r = Some (JStr "do-somthing1")
    /\ get "rust_wrapper_method_name" r = Some (JStr "do_somthing_1")
    /\ get "function_id" r = None.
Proof.
  destruct (method_outside_an_interface (Some "arieo:sample") (Some "Arieo::Sample")
              [] (sample_method "doSomthing_1" "void ()" []) "doSomthing_1")
    as (r & H & G1 & _ & G3 & G4); try reflexivity; try discriminate.
  exists r. split; [exact H|]. split; [exact G1|]. split; [exact G3|].
  apply G4; [|reflexivity]. simpl. tauto.
Defined.

(** ** The range of the fingerprints *)

(** X26.  The three fingerprints are unsigned 64-bit integers. *)
Theorem fingerprints_fit_64_bits (name : string)
  (parameters : list (string * string)) (function_checksums : list Z) :
  0 <= calculate_function_checksum name parameters < 2 ^ 64
  /\ 0 <= calculate_interface_checksum name function_checksums < 2 ^ 64
  /\ 0 <= calculate_name_hash name < 2 ^ 64.
Proof. repeat split; apply hash64_range. Qed.

(** ** The passes only grow the tree *)

Lemma grown_refl (keys : list string) (j : json) : grown keys j j.
Proof.
  induction j as [| | | |l IH|d IH] using json_ind';
    try (apply grown_scalar; reflexivity).
  - apply grown_list. induction IH; constructor; auto.
  - rewrite <- (app_nil_r d) at 2. apply grown_object; [|constructor].
    induction IH as [|[k v] d Hv _ IHd]; constructor; auto.
Qed.

Lemma mapM_grown (keys : list string) (f : json -> result json) (l : list json) :
  Forall (fun x => forall x', f x = Ok x' -> grown keys x x') l ->
  forall l', mapM f l = Ok l' -> Forall2 (grown keys) l l'.
Proof.
  induction 1 as [|x l Hx _ IH]; intros l' H; simpl in H.
  - injection H as <-. constructor.
  - destruct (f x) as [x'| |] eqn:Hfx; try discriminate H. simpl in H.
    destruct (mapM f l) as [r| |]; try discriminate H. simpl in H.
    injection H as <-. constructor; auto.
Qed.

Lemma walk_fields_grown (keys : list string) (visit : json -> result json)
  (assigned : dict) (d : dict) :
  Forall (fun kv => mem (fst kv) keys = true) assigned ->
  Forall (fun kv => forall v', visit (snd kv) = Ok v' -> grown keys (snd kv) v') d ->
  forall d', walk_fields visit assigned d = Ok d' ->
  Forall2 (fun kv kv' =>
             fst kv' = fst kv
             /\ (grown keys (snd kv) (snd kv') \/ mem (fst kv) keys = true)) d d'.
Proof.
  intros Ha. induction 1 as [|[k v] d Hv _ IH]; intros d' H; simpl in H.
  - injection H as <-. constructor.
  - destruct (match get k assigned with Some a => Ok a | None => visit v end)
      as [w| |] eqn:Hw; try discriminate H. simpl in H.
    destruct (walk_fields visit assigned d) as [r| |]; try discriminate H.
    simpl in H. injection H as <-. constructor; [|now apply IH].
    split; [reflexivity|]. simpl in *.
    destruct (get k assigned) as [a|] eqn:Hg.
    + right. apply get_In in Hg. rewrite Forall_forall in Ha.
      exact (Ha _ Hg).
    + left. now apply Hv.
Qed.

Lemma assigned_keys (keys : list string) (fields : dict) : forall d,
  keys_in keys fields -> keys_in keys d -> keys_in keys (assign_all fields d).
Proof.
  unfold assign_all, keys_in. induction fields as [|[k v] fields IH]; intros d Hf Hd;
    simpl; [exact Hd|].
  inversion Hf as [|? ? Hk Hf']; subst. apply IH; [exact Hf'|].
  clear IH Hf Hf'. induction d as [|[k' v'] d IHd]; simpl.
  - now constructor.
  - inversion Hd as [|? ? Hk' Hd']; subst.
    destruct (String.eqb k k'); constructor; auto.
Qed.

Lemma assign_then_walk_grown (keys : list string) (visit : json -> result json)
  (fields d d' : dict) :
  keys_in keys fields ->
  Forall (fun kv => forall v', visit (snd kv) = Ok v' -> grown keys (snd kv) v') d ->
  assign_then_walk visit fields d = Ok d' ->
  grown keys (JObj d) (JObj d').
Proof.
  intros Hf Hd H. unfold assign_then_walk in H.
  destruct (walk_fields visit (assign_all fields []) d) as [w| |] eqn:Hw;
    try discriminate H.
  simpl in H. injection H as <-.
  pose proof (assigned_keys keys fields [] Hf (Forall_nil _)) as Ha.
  apply grown_object.
  - now apply walk_fields_grown with visit (assign_all fields []).
  - apply Forall_forall. intros kv Hin. apply filter_In in Hin as [Hin _].
    unfold keys_in in Ha. rewrite Forall_forall in Ha. now apply Ha.
Qed.

(** A pass of the common form: the assignments of a node, then the visit
    of its values. *)
Lemma node_pass_grown (keys : list string) (fields_of : dict -> result dict)
  (pass : json -> result json) :
  (forall d, pass (JObj d)
             = (fields <- fields_of d ;;
                d' <- assign_then_walk pass fields d ;; Ok (JObj d'))) ->
  (forall l, pass (JArr l) = (l' <- mapM pass l ;; Ok (JArr l'))) ->
  (forall j, is_scalar j = true -> pass j = Ok j) ->
  (forall d fields, fields_of d = Ok fields -> keys_in keys fields) ->
  forall j j', pass j = Ok j' -> grown keys j j'.
Proof.
  intros Hobj Harr Hsc Hkeys.
  induction j as [| | | |l IH|d IH] using json_ind'; intros j' H;
    try (rewrite Hsc in H by reflexivity; injection H as <-;
         apply grown_scalar; reflexivity).
  - rewrite Harr in H. destruct (mapM pass l) as [l'| |] eqn:Hl; try discriminate H.
    simpl in H. injection H as <-. apply grown_list.
    now apply mapM_grown with pass.
  - rewrite Hobj in H. destruct (fields_of d) as [fields| |] eqn:Hf;
      try discriminate H.
    simpl in H.
    destruct (assign_then_walk pass fields d) as [d'| |] eqn:Hw; try discriminate H.
    simpl in H. injection H as <-.
    apply assign_then_walk_grown with pass fields; [now apply Hkeys with d|exact IH|
      exact Hw].
Qed.

Lemma interface_checksum_fields_keys (d fields : dict) :
  interface_checksum_fields d = Ok fields -> keys_in ["interface_checksum"] fields.
Proof.
  unfold interface_checksum_fields. cbv zeta.
  destruct (kind_is "CXXRecordDecl" d); [|intros [= <-]; constructor].
  destruct (truthy (get_or_none "name" d)); [|intros [= <-]; constructor].
  destruct (mapM as_int _) as [cs| |]; simpl; try discriminate.
  destruct (py_format _) as [nm| |]; simpl; try discriminate.
  intros [= <-]. repeat constructor.
Qed.

Lemma function_checksum_fields_keys (d fields : dict) :
  function_checksum_fields d = Ok fields -> keys_in ["function_checksum"] fields.
Proof.
  unfold function_checksum_fields.
  destruct (kind_is "CXXMethodDecl" d); [|intros [= <-]; constructor].
  destruct (checksum_parameters d) as [ps| |]; simpl; try discriminate.
  destruct (get_default "name" (JStr "") d); try discriminate.
  intros [= <-]. repeat constructor.
Qed.

Lemma extract_grown (j j' : json) :
  extract_method_signature_details j = Ok j' -> grown signature_keys j j'.
Proof.
  apply (node_pass_grown signature_keys signature_fields); try reflexivity.
  - intros [] H; try reflexivity; discriminate H.
  - exact signature_fields_keys.
Qed.

Lemma interface_grown (j j' : json) :
  add_interface_checksums_recursive j = Ok j' -> grown ["interface_checksum"] j j'.
Proof.
  apply (node_pass_grown ["interface_checksum"] interface_checksum_fields);
    try reflexivity.
  - intros [] H; try reflexivity; discriminate H.
  - exact interface_checksum_fields_keys.
Qed.

Lemma function_checksums_grown (j j' : json) :
  add_function_checksums_recursive j = Ok j' -> grown ["function_checksum"] j j'.
Proof.
  apply (node_pass_grown ["function_checksum"] function_checksum_fields);
    try reflexivity.
  - intros [] H; try reflexivity; discriminate H.
  - exact function_checksum_fields_keys.
Qed.

Lemma wit_grown (package_name root_namespace : option string) (j : json) :
  forall ctx j',
    add_wit_format_names_recursive package_name root_namespace ctx j = Ok j' ->
    grown (interface_keys ++ method_keys)%list j j'.
Proof.
  induction j as [| | | |l IH|d IH] using json_ind'; intros ctx j' H;
    try (injection H as <-; apply grown_scalar; reflexivity).
  - cbn [add_wit_format_names_recursive] in H.
    destruct (mapM _ l) as [l'| |] eqn:Hl; try discriminate H.
    simpl in H. injection H as <-. apply grown_list.
    eapply mapM_grown; [|exact Hl].
    eapply Forall_impl; [|exact IH]. intros x Hx x'. apply Hx.
  - cbn [add_wit_format_names_recursive] in H.
    destruct (wit_node package_name root_namespace ctx d) as [[fields ctx']| |]
      eqn:Hn; try discriminate H.
    cbn [bind fst snd] in H.
    match type of H with
    | bind ?w _ = _ => destruct w as [d'| |] eqn:Hw; try discriminate H
    end.
    cbn [bind] in H. injection H as <-.
    eapply assign_then_walk_grown; [|
      |exact Hw].
    + exact (proj1 (wit_node_keys _ _ _ _ _ _ Hn)).
    + eapply Forall_impl; [|exact IH]. intros kv Hkv v'. apply Hkv.
Qed.

Lemma mapM_indexed_grown (keys : list string) (f : nat -> json -> result json)
  (l : list json) :
  Forall (fun x => forall i x', f i x = Ok x' -> grown keys x x') l ->
  forall i l', mapM_indexed f i l = Ok l' -> Forall2 (grown keys) l l'.
Proof.
  induction 1 as [|x l Hx _ IH]; intros i l' H; simpl in H.
  - injection H as <-. constructor.
  - destruct (f i x) as [x'| |] eqn:Hfx; try discriminate H. simpl in H.
    destruct (mapM_indexed f (S i) l) as [r| |] eqn:Hr; try discriminate H.
    simpl in H. injection H as <-. constructor; eauto.
Qed.

Lemma flags_grown (j : json) :
  forall b j', add_last_flags b j = Ok j' -> grown ["first"; "last"] j j'.
Proof.
  induction j as [j IH] using json_ind_deep. intros b j' H.
  destruct j as [| | | |l|d]; try (injection H as <-; apply grown_scalar; reflexivity).
  - simpl in IH. cbn [add_last_flags] in H.
    destruct (b && negb (is_empty l)).
    + destruct (build_groups 0 l []) as [groups| |]; try discriminate H.
      cbn [bind] in H.
      match type of H with
      | bind ?w _ = _ => destruct w as [l'| |] eqn:Hl; try discriminate H
      end.
      cbn [bind] in H. injection H as <-. apply grown_list.
      eapply mapM_indexed_grown; [|exact Hl].
      eapply Forall_impl; [|exact IH]. intros x [Hx Hc] i x' Hi.
      destruct x as [| | | |y|m]; try (now apply Hx with false).
      destruct (assign_then_walk _ _ m) as [m'| |] eqn:Hw; try discriminate Hi.
      cbn [bind] in Hi. injection Hi as <-.
      eapply assign_then_walk_grown; [| |exact Hw].
      * apply item_assignments_keys. apply group_marks_keys.
      * simpl in Hc. rewrite Forall_map in Hc.
        eapply Forall_impl; [|exact Hc]. intros kv Hkv v'. apply Hkv.
    + destruct (mapM (add_last_flags false) l) as [l'| |] eqn:Hl;
        try discriminate H.
      cbn [bind] in H. injection H as <-. apply grown_list.
      eapply mapM_grown; [|exact Hl].
      eapply Forall_impl; [|exact IH]. intros x [Hx _] x'. apply Hx.
  - simpl in IH. cbn [add_last_flags] in H.
    destruct (walk_fields (add_last_flags true) [] d) as [d'| |] eqn:Hw;
      try discriminate H.
    cbn [bind] in H. injection H as <-.
    rewrite <- (app_nil_r d'). apply grown_object; [|constructor].
    eapply walk_fields_grown; [constructor| |exact Hw].
    rewrite Forall_map in IH.
    eapply Forall_impl; [|exact IH]. intros kv [Hkv _] v'. apply Hkv.
Qed.

Lemma dict_set_grown (keys : list string) (k : string) (v : json) (d d' : dict) :
  mem k keys = true ->
  Forall2 (fun kv kv' =>
             fst kv' = fst kv
             /\ (grown keys (snd kv) (snd kv') \/ mem (fst kv) keys = true)) d d' ->
  grown keys (JObj d) (JObj (dict_set k v d')).
Proof.
  intros Hk H.
  assert (G : exists d0 added,
    dict_set k v d' = (d0 ++ added)%list
    /\ Forall2 (fun kv kv' =>
                  fst kv' = fst kv
                  /\ (grown keys (snd kv) (snd kv') \/ mem (fst kv) keys = true)) d d0
    /\ Forall (fun kv => mem (fst kv) keys = true) added).
  { induction H as [|[k0 v0] [k1 v1] d d' [Hfst Hval] Hrest IH]; simpl.
    - exists [], [(k, v)]. repeat split; repeat constructor. exact Hk.
    - simpl in Hfst. subst k1. destruct (String.eqb_spec k k0) as [->|Hne].
      + exists ((k0, v) :: d'), []. rewrite app_nil_r. repeat split; [|constructor].
        constructor; [|exact Hrest]. split; [reflexivity|]. now right.
      + destruct IH as (d0 & added & -> & F & A).
        exists ((k0, v1) :: d0), added. repeat split; [|exact A].
        constructor; [|exact F]. now split. }
  destruct G as (d0 & added & -> & F & A). now apply grown_object.
Qed.

Section AnnotationGrows.
Variable normpath : string -> string.
Variable source_file : string.
Variable source_lines : option (list string).

Lemma walk_inner_grown (keys : list string) (visit : json -> result json) (d : dict) :
  Forall (fun v => Forall (fun x => forall x', visit x = Ok x' -> grown keys x x')
                     (children v)) (map snd d) ->
  forall d', walk_inner visit d = Ok d' ->
  Forall2 (fun kv kv' =>
             fst kv' = fst kv
             /\ (grown keys (snd kv) (snd kv') \/ mem (fst kv) keys = true)) d d'.
Proof.
  assert (R : forall r : dict,
    Forall2 (fun kv kv' =>
               fst kv' = fst kv
               /\ (grown keys (snd kv) (snd kv') \/ mem (fst kv) keys = true)) r r).
  { induction r as [|[k v] r IHr]; constructor; auto.
    split; [reflexivity|]. left. apply grown_refl. }
  induction d as [|[k v] d IH]; simpl; intros Hc d' H.
  - injection H as <-. constructor.
  - inversion Hc as [|? ? Hv Hr]; subst.
    destruct (String.eqb k "inner").
    + destruct v as [| | | |l|m]; try (injection H as <-; apply R).
      destruct (mapM visit l) as [l'| |] eqn:Hl; try discriminate H.
      simpl in H. injection H as <-. constructor; [|apply R].
      split; [reflexivity|]. left. apply grown_list.
      eapply mapM_grown; [|exact Hl]. exact Hv.
    + destruct (walk_inner visit d) as [r| |] eqn:Hw; try discriminate H.
      simpl in H. injection H as <-. constructor; [|now apply IH].
      split; [reflexivity|]. left. apply grown_refl.
Qed.

Lemma annotation_grown (j : json) :
  forall j',
    add_annotation_strings_recursive normpath source_file source_lines j = Ok j' ->
    grown ["annotation"] j j'.
Proof.
  induction j as [j IH] using json_ind_deep. intros j' H.
  destruct j as [| | | |l|d]; try (injection H as <-; apply grown_refl).
  cbn [add_annotation_strings_recursive] in H.
  destruct (annotation_of normpath source_file source_lines d) as [o| |];
    try discriminate H.
  cbn [bind] in H.
  destruct (walk_inner _ d) as [d'| |] eqn:Hw; try discriminate H.
  cbn [bind] in H. injection H as <-.
  assert (F : Forall2 (fun kv kv' =>
                fst kv' = fst kv
                /\ (grown ["annotation"] (snd kv) (snd kv')
                    \/ mem (fst kv) ["annotation"] = true)) d d').
  { eapply walk_inner_grown; [|exact Hw]. simpl in IH.
    eapply Forall_impl; [|exact IH]. intros v [_ Hc].
    eapply Forall_impl; [|exact Hc]. intros x Hx x'. apply Hx. }
  destruct o as [t|].
  - now apply dict_set_grown.
  - rewrite <- (app_nil_r d'). apply grown_object; [exact F|constructor].
Qed.
End AnnotationGrows.

(** ** The annotation of a node *)

Lemma annotation_of_found (normpath : string -> string) (source_file : string)
  (lines : list string) (d range range_begin loc : dict) (n : Z) (fp : string)
  (w : string) :
  kind_is "AnnotateAttr" d = true ->
  get "range" d = Some (JObj range) ->
  get "begin" range = Some (JObj range_begin) ->
  (get "expansionLoc" range_begin = Some (JObj loc) /\ loc <> []
   \/ get "expansionLoc" range_begin = None /\ loc = range_begin) ->
  get "line" loc = Some (JNum n) -> n <> 0 ->
  truthy (get_or_none "col" loc) = true ->
  get "file" loc = Some (JStr fp) -> fp <> "" ->
  normpath fp = normpath source_file ->
  extract_annotation_text (Some lines) (JNum n) (get_or_none "col" loc) = Some w ->
  w <> "" ->
  annotation_of normpath source_file (Some lines) d = Ok (Some w).
Proof.
  intros Hk Hr Hb He Hl Hn Hc Hf Hfp Hp Hx Hw.
  unfold annotation_of. cbv zeta. rewrite Hk.
  unfold get_default at 1. rewrite Hr. cbn [as_dict bind].
  unfold get_default at 1. rewrite Hb. cbn [as_dict bind].
  assert (E : (if truthy (get_default "expansionLoc" (JObj []) range_begin)
               then as_dict (get_default "expansionLoc" (JObj []) range_begin)
               else Ok range_begin) = Ok loc).
  { unfold get_default. destruct He as [[-> Hne] | [-> ->]]; [|reflexivity].
    destruct loc; [congruence|reflexivity]. }
  rewrite E. cbn [bind].
  unfold get_or_none, get_default in *. rewrite Hl, Hf in *.
  apply Z.eqb_neq in Hn. apply String.eqb_neq in Hfp, Hw.
  cbn [truthy]. rewrite Hn, Hc, Hfp. cbn [negb andb].
  rewrite Hp, String.eqb_refl, Hx. cbn [truthy]. now rewrite Hw.
Qed.

(** X27.  A well-typed [AnnotateAttr] node whose location (the expansion
    location when the node has one, the begin of its range otherwise) has
    a line number, a column and the path of the source file gets, as
    [annotation], the word written in the [METADATA( word )] macro of that
    line. *)
Theorem annotate_attr_gets_the_macro_text (normpath : string -> string) (source_file : string)
  (lines : list string) (d range range_begin loc : dict) (n : Z) (fp : string)
  (pre ws1 ws2 w ws3 post : string) :
  kind_is "AnnotateAttr" d = true ->
  get "range" d = Some (JObj range) ->
  get "begin" range = Some (JObj range_begin) ->
  (get "expansionLoc" range_begin = Some (JObj loc) /\ loc <> []
   \/ get "expansionLoc" range_begin = None /\ loc = range_begin) ->
  get "line" loc = Some (JNum n) -> 1 <= n ->
  truthy (get_or_none "col" loc) = true ->
  get "file" loc = Some (JStr fp) -> fp <> "" ->
  normpath fp = normpath source_file ->
  nth_error lines (Z.to_nat (n - 1))
  = Some (pre ++ "METADATA" ++ ws1 ++ "(" ++ ws2 ++ w ++ ws3 ++ ")" ++ post) ->
  all_chars (is_not "M") pre = true ->
  all_chars PyStr.isspace ws1 = true ->
  all_chars PyStr.isspace ws2 = true ->
  all_chars PyStr.isspace ws3 = true ->
  w <> "" -> all_chars is_word_char w = true ->
  well_typed (JObj d) = true ->
  exists r,
    add_annotation_strings_recursive normpath source_file (Some lines) (JObj d)
    = Ok (JObj r)
    /\ get "annotation" r = Some (JStr w).
Proof.
  intros Hk Hr Hb He Hl Hn Hc Hf Hfp Hp Hline P0 P1 P2 P3 Hw Hword Hwt.
  destruct (annotation_pass_good normpath source_file (Some lines) (JObj d) Hwt)
    as (j & Hj & _ & Ht).
  destruct j as [| | | | |r]; try discriminate Ht. exists r. split; [exact Hj|].
  cbn [add_annotation_strings_recursive] in Hj.
  rewrite (annotation_of_found normpath source_file lines d range range_begin loc
             n fp w Hk Hr Hb He Hl ltac:(lia) Hc Hf Hfp Hp) in Hj.
  - cbn [bind] in Hj.
    destruct (walk_inner _ d) as [d'| |]; try discriminate Hj.
    cbn [bind] in Hj. injection Hj as <-. apply get_dict_set_same.
  - now apply extract_annotation_text_found
      with pre ws1 ws2 ws3 post.
  - exact Hw.
Qed.

Lemma annotate_attr_gets_the_macro_text_witness :
  exists r,
    add_annotation_strings_recursive (fun p => p) "sample.h"
      (Some ["#pragma once"; "  METADATA( EXPORT_TO_SCRIPT ) void f();"])
      (JObj [("kind", JStr "AnnotateAttr");
             ("range",
              JObj [("begin",
                     JObj [("expansionLoc",
                            JObj [("line", JNum 2); ("col", JNum 3);
                                  ("file", JStr "sample.h")])])])])
    = Ok (JObj r)
    /\ get "annotation" r = Some (JStr "EXPORT_TO_SCRIPT").
Proof.
  apply (annotate_attr_gets_the_macro_text (fun p => p) "sample.h"
           ["#pragma once"; "  METADATA( EXPORT_TO_SCRIPT ) void f();"]
           [("kind", JStr "AnnotateAttr");
            ("range",
             JObj [("begin",
                    JObj [("expansionLoc",
                           JObj [("line", JNum 2); ("col", JNum 3);
                                 ("file", JStr "sample.h")])])])]
           [("begin",
             JObj [("expansionLoc",
                    JObj [("line", JNum 2); ("col", JNum 3);
                          ("file", JStr "sample.h")])])]
           [("expansionLoc",
             JObj [("line", JNum 2); ("col", JNum 3); ("file", JStr "sample.h")])]
           [("line", JNum 2); ("col", JNum 3); ("file", JStr "sample.h")]
           2 "sample.h" "  " "" " " "EXPORT_TO_SCRIPT" " " " void f();");
    try reflexivity; try discriminate.
  left. split; [reflexivity|discriminate].
Defined.

(** X28.  No pass removes, renames or reorders what it is given.  In the
    result of each pass a scalar is the same, a list has the same length
    with its elements grown in place, and an object has its fields in
    their order, followed by new ones; a value is replaced, and a field
    added, only under a key the pass assigns: [annotation] for the
    annotation pass, the interface and method names for the walker, the
    return types and [parameters] for the extractor, [first] and [last]
    for the flags, [interface_checksum] and [function_checksum] for the two
    fingerprint passes. *)
Theorem passes_only_grow_the_tree (j j' : json) :
  (forall normpath source_file source_lines,
     add_annotation_strings_recursive normpath source_file source_lines j = Ok j' ->
     grown ["annotation"] j j')
  /\ (forall package_name root_namespace ctx,
        add_wit_format_names_recursive package_name root_namespace ctx j = Ok j' ->
        grown (interface_keys ++ method_keys)%list j j')
  /\ (extract_method_signature_details j = Ok j' -> grown signature_keys j j')
  /\ (forall b, add_last_flags b j = Ok j' -> grown ["first"; "last"] j j')
  /\ (add_interface_checksums_recursive j = Ok j' ->
      grown ["interface_checksum"] j j')
  /\ (add_function_checksums_recursive j = Ok j' ->
      grown ["function_checksum"] j j').
Proof.
  split; [intros; now apply annotation_grown with normpath source_file source_lines|].
  split; [intros; now apply wit_grown with package_name root_namespace ctx|].
  split; [apply extract_grown|].
  split; [intros; now apply flags_grown with b|].
  split; [apply interface_grown|apply function_checksums_grown].
Qed.

(** * The outcome of the stage *)

(** ** The stage on a node of another type *)









